(** * The question-bank pipeline of [NCERT/questionbank/scripts/run_pipeline.py]

    A shallow embedding of the text pipeline (normalisation, heading-based
    segmentation, answer-key and question extraction, chunking) together with
    the properties stated for it.

    Python strings are sequences of Unicode code points: a string is a
    [list N].  The built-in string methods and the regular expressions of the
    script are written out as functions on such lists.  The regular
    expressions are expressed with a handful of backtracking combinators in
    continuation-passing style, so that each pattern of the script reads off
    its combinator term. *)

From Stdlib Require Import ZArith NArith Bool List String Ascii DecimalString.
From stdpp Require Import base numbers list option gmap.

Set Default Proof Using "Type".

(** ** Characters and strings *)

Abbreviation str := (list N).

(** [u "abc"] is the Python literal ["abc"] (ASCII only). *)
Definition u (s : string) : str :=
  List.map N_of_ascii (list_ascii_of_string s).

Definition LF : N := 10.
Definition CR : N := 13.
Definition TAB : N := 9.
Definition SPACE : N := 32.
Definition HYPHEN : N := 45.
Definition DOT : N := 46.
Definition UNDERSCORE : N := 95.

Definition between (lo hi c : N) : bool := (lo <=? c)%N && (c <=? hi)%N.

(** [Py_UNICODE_ISSPACE]: the characters removed by [str.strip()], separating
    words for [str.split()], and matched by [\s] in a [str] pattern. *)
Definition is_space (c : N) : bool :=
  between 9 13 c || between 28 31 c || (c =? 32)%N
  || (c =? 133)%N || (c =? 160)%N || (c =? 5760)%N
  || between 8192 8202 c || (c =? 8232)%N || (c =? 8233)%N
  || (c =? 8239)%N || (c =? 8287)%N || (c =? 12288)%N.

(** The line boundaries of [str.splitlines()]. *)
Definition is_linebreak (c : N) : bool :=
  between 10 13 c || between 28 30 c
  || (c =? 133)%N || (c =? 8232)%N || (c =? 8233)%N.

Definition is_ascii (c : N) : bool := (c <? 128)%N.
Definition ascii_digit (c : N) : bool := between 48 57 c.
Definition ascii_upper_letter (c : N) : bool := between 65 90 c.
Definition ascii_lower_letter (c : N) : bool := between 97 122 c.
Definition ascii_word (c : N) : bool :=
  ascii_digit c || ascii_upper_letter c || ascii_lower_letter c
  || (c =? UNDERSCORE)%N.

Definition ascii_to_lower (c : N) : N :=
  if ascii_upper_letter c then (c + 32)%N else c.
Definition ascii_to_upper (c : N) : N :=
  if ascii_lower_letter c then (c - 32)%N else c.

(** What Python's Unicode database decides for code points above 127.  The
    database is part of the interpreter, not of the script; it is a parameter
    of the development.  On ASCII text none of its fields is consulted. *)
Record unicode_tables := {
  (** non-ASCII code points matched by [\d] *)
  uni_decimal : N -> bool;
  (** non-ASCII code points matched by [\w] *)
  uni_word : N -> bool;
  (** [uni_caseless p c]: under [re.I] the non-ASCII code point [c] matches
      the lower-case ASCII letter [p] of a pattern *)
  uni_caseless : N -> N -> bool;
  (** [str.upper()] and [str.lower()] of strings that are not pure ASCII *)
  uni_upper : str -> str;
  uni_lower : str -> str
}.

(** The tables that classify no code point above 127 and map no case. *)
Definition ascii_tables : unicode_tables :=
  {| uni_decimal := fun _ => false;
     uni_word := fun _ => false;
     uni_caseless := fun _ _ => false;
     uni_upper := fun s => s;
     uni_lower := fun s => s |}.

(** *** Built-in string methods *)

Fixpoint drop_while (p : N -> bool) (s : str) : str :=
  match s with
  | c :: s' => if p c then drop_while p s' else s
  | [] => []
  end.

Definition lstrip_with (p : N -> bool) (s : str) : str := drop_while p s.
Definition rstrip_with (p : N -> bool) (s : str) : str :=
  rev (drop_while p (rev s)).
Definition strip_with (p : N -> bool) (s : str) : str :=
  rstrip_with p (lstrip_with p s).

(** [s.strip()] *)
Definition strip (s : str) : str := strip_with is_space s.

(** [sep.join(parts)] *)
Fixpoint join (sep : str) (parts : list str) : str :=
  match parts with
  | [] => []
  | p :: ps =>
    match ps with
    | [] => p
    | _ :: _ => p ++ sep ++ join sep ps
    end
  end.

(** [s.splitlines()]: a line ends at a line boundary, ["\r\n"] counts as one
    boundary, and a final boundary opens no further line. *)
Fixpoint splitlines (s : str) : list str :=
  match s with
  | [] => []
  | c :: s' =>
    if is_linebreak c then
      [] :: match s' with
            | d :: s'' =>
              if (c =? CR)%N && (d =? LF)%N then splitlines s''
              else splitlines s'
            | [] => []
            end
    else
      match splitlines s' with
      | [] => [[c]]
      | l :: ls => (c :: l) :: ls
      end
  end.

(** [s.split()]: the maximal runs of non-whitespace characters. *)
Fixpoint split (s : str) : list str :=
  match s with
  | [] => []
  | c :: s' =>
    if is_space c then split s'
    else
      match s' with
      | [] => [[c]]
      | d :: _ =>
        if is_space d then [c] :: split s'
        else
          match split s' with
          | [] => [[c]]
          | w :: ws => (c :: w) :: ws
          end
      end
  end.

(** [text.encode("ascii", "ignore").decode("ascii")] *)
Definition to_ascii (text : str) : str := List.filter is_ascii text.

(** [sum(1 for ch in text if ord(ch) > 127)] *)
Definition count_non_ascii (text : str) : nat :=
  length (List.filter (fun ch => (127 <? ch)%N) text).

Fixpoint starts_with (p s : str) : bool :=
  match p, s with
  | [], _ => true
  | a :: p', b :: s' => (a =? b)%N && starts_with p' s'
  | _ :: _, [] => false
  end.

(** [needle in hay] *)
Fixpoint contains (needle hay : str) : bool :=
  starts_with needle hay ||
  match hay with
  | [] => false
  | _ :: hay' => contains needle hay'
  end.

(** [seq[start:stop]] with Python's treatment of negative and out-of-range
    bounds. *)
Definition slice_bound (len i : Z) : Z :=
  if (i <? 0)%Z then Z.max 0 (len + i) else Z.min len i.

Definition slice {A} (l : list A) (start stop : Z) : list A :=
  let len := Z.of_nat (length l) in
  let a := slice_bound len start in
  let b := slice_bound len stop in
  take (Z.to_nat (b - a)) (drop (Z.to_nat a) l).

(** [str(n)] for an integer. *)
Definition str_of_int (n : Z) : str :=
  u (NilZero.string_of_int (Z.to_int n)).

Definition str_eqb (a b : str) : bool := bool_decide (a = b).

(** [re.sub(p+, r, s)] for a character class [p] and a one-character
    replacement [r]: every maximal run of [p] characters becomes one [r]. *)
Fixpoint collapse_runs (p : N -> bool) (r : N) (s : str) : str :=
  match s with
  | [] => []
  | c :: s' =>
    if p c then
      match s' with
      | d :: _ => if p d then collapse_runs p r s' else r :: collapse_runs p r s'
      | [] => [r]
      end
    else c :: collapse_runs p r s'
  end.

(** ** Backtracking matchers

    A matcher is applied to the input that remains and to the character just
    before it (needed by [\b]); it is given the matcher of the rest of the
    pattern as a continuation, and a failing continuation makes a greedy
    repetition give characters back, as Python's [re] does. *)
Section Matchers.
Context {A : Type}.

Definition cont : Type := option N -> str -> option A.

Definition orelse (x y : option A) : option A :=
  match x with Some r => Some r | None => y end.

(** one character of class [p] *)
Definition m_chr (p : N -> bool) (k : cont) : cont := fun prev s =>
  match s with
  | c :: s' => if p c then k (Some c) s' else None
  | [] => None
  end.

(** [p*], greedy *)
Fixpoint m_star (p : N -> bool) (k : cont) (prev : option N) (s : str)
  : option A :=
  match s with
  | c :: s' =>
    if p c then orelse (m_star p k (Some c) s') (k prev s) else k prev s
  | [] => k prev s
  end.

(** [p+], greedy *)
Definition m_plus (p : N -> bool) (k : cont) : cont :=
  m_chr p (m_star p k).

(** a capturing group around [p*], greedy: the captured text is handed to
    the continuation *)
Fixpoint m_star_cap (p : N -> bool) (k : str -> cont) (acc : str)
    (prev : option N) (s : str) : option A :=
  match s with
  | c :: s' =>
    if p c then
      orelse (m_star_cap p k (acc ++ [c]) (Some c) s') (k acc prev s)
    else k acc prev s
  | [] => k acc prev s
  end.

(** a capturing group around [p+], greedy *)
Definition m_plus_cap (p : N -> bool) (k : str -> cont) : cont :=
  fun prev s =>
    match s with
    | c :: s' => if p c then m_star_cap p k [c] (Some c) s' else None
    | [] => None
    end.

(** a literal, case-sensitive *)
Fixpoint m_lit (w : str) (k : cont) : cont :=
  match w with
  | [] => k
  | a :: w' => m_chr (N.eqb a) (m_lit w' k)
  end.

(** [m?], greedy *)
Definition m_opt (m : cont -> cont) (k : cont) : cont := fun prev s =>
  orelse (m k prev s) (k prev s).

(** [m1|m2|...], leftmost alternative first *)
Fixpoint m_alts (ms : list (cont -> cont)) (k : cont) : cont :=
  fun prev s =>
    match ms with
    | [] => None
    | m :: ms' => orelse (m k prev s) (m_alts ms' k prev s)
    end.

(** [(m)*] tried at most [n] times, greedy.  Every round of the groups
    repeated in the script consumes input, so [n] rounds with [n] the
    length of the input are all the rounds there can be. *)
Fixpoint m_many (n : nat) (m : cont -> cont) (k : cont) : cont :=
  match n with
  | O => k
  | S n' => fun prev s => orelse (m (m_many n' m k) prev s) (k prev s)
  end.

(** [$]: the end of the string, or just before a final newline *)
Definition m_eol (k : cont) : cont := fun prev s =>
  match s with
  | [] => k prev s
  | [c] => if (c =? LF)%N then k prev s else None
  | _ :: _ :: _ => None
  end.

(** [\b] for a given class of word characters *)
Definition m_wordb (word : N -> bool) (k : cont) : cont := fun prev s =>
  let before := match prev with Some c => word c | None => false end in
  let after := match s with c :: _ => word c | [] => false end in
  if xorb before after then k prev s else None.

(** [re.match]: at the start of the string only *)
Definition re_match (m : cont) (s : str) : option A := m None s.

(** [re.search]: the first position where the pattern matches *)
Fixpoint search_from (m : cont) (prev : option N) (s : str) : option A :=
  orelse (m prev s)
    match s with
    | [] => None
    | c :: s' => search_from m (Some c) s'
    end.

Definition re_search (m : cont) (s : str) : option A := search_from m None s.
End Matchers.

Definition accept : @cont unit := fun _ _ => Some tt.
Definition found {A} (o : option A) : bool :=
  match o with Some _ => true | None => false end.
Definition not_lf (c : N) : bool := negb (c =? LF)%N.
Definition not_space (c : N) : bool := negb (is_space c).
Definition one_of (cs : str) (c : N) : bool := existsb (N.eqb c) cs.

(** ** Data model *)

Inductive section_type :=
  | chapter_t | exercise_t | summary_t | note_t | answers_t | section_t.

#[global] Instance section_type_eq_dec : EqDecision section_type.
Proof. solve_decision. Defined.

(** The strings the script stores in ["type"]. *)
Definition type_name (t : section_type) : str :=
  match t with
  | chapter_t => u "chapter"
  | exercise_t => u "exercise"
  | summary_t => u "summary"
  | note_t => u "note"
  | answers_t => u "answers"
  | section_t => u "section"
  end.

Record section := {
  title : str;
  type : section_type;
  text : str
}.

(** The fields of [config.json] the pipeline reads; [class_] and [chapter]
    stand as they are printed inside the identifiers. *)
Record config := {
  subject : str;
  class_ : str;
  chapter : str;
  book : str;
  difficulty_levels : Z
}.

Record metadata := {
  md_subject : str;
  md_class : str;
  md_chapter : str;
  md_book : str
}.

Inductive answer_source_t := answer_key | missing.

Record question := {
  q_id : str;
  q_source : str;
  q_section_title : str;
  question_number : str;
  stem : str;
  options : option (list str);
  answer : option str;
  answer_source : answer_source_t;
  difficulty : Z;
  topics : list str;
  q_metadata : metadata
}.

Record chunk := {
  c_id : str;
  c_text : str;
  c_section_title : str;
  c_section_type : section_type;
  c_metadata : metadata
}.

(** What [parse_questions_from_section] returns for one question. *)
Record parsed_question := {
  number : option str;
  ptext : str
}.

(** ** The script *)

Section Pipeline.
Variable U : unicode_tables.

(** [\d], [\w] and a letter under [re.I], in a [str] pattern *)
Definition is_digit (c : N) : bool :=
  if is_ascii c then ascii_digit c else uni_decimal U c.
Definition is_word (c : N) : bool :=
  if is_ascii c then ascii_word c else uni_word U c.
Definition ci (p c : N) : bool :=
  if is_ascii c then (ascii_to_lower c =? ascii_to_lower p)%N
  else uni_caseless U (ascii_to_lower p) c.

(** [s.lower()] and [s.upper()] *)
Definition lower (s : str) : str :=
  if forallb is_ascii s then List.map ascii_to_lower s else uni_lower U s.
Definition upper (s : str) : str :=
  if forallb is_ascii s then List.map ascii_to_upper s else uni_upper U s.

(** a literal under [re.I] *)
Fixpoint m_lit_ci {A} (w : str) (k : @cont A) : @cont A :=
  match w with
  | [] => k
  | a :: w' => m_chr (ci a) (m_lit_ci w' k)
  end.

Definition wordb {A} : @cont A -> @cont A := m_wordb is_word.

(** *** normalize_text *)

(** [text.replace("\r\n", "\n")] *)
Fixpoint replace_crlf (s : str) : str :=
  match s with
  | [] => []
  | c :: s' =>
    match s' with
    | d :: s'' =>
      if (c =? CR)%N && (d =? LF)%N then LF :: replace_crlf s''
      else c :: replace_crlf s'
    | [] => [c]
    end
  end.

(** [text.replace("\r", "\n")] *)
Definition replace_cr (s : str) : str :=
  List.map (fun c => if (c =? CR)%N then LF else c) s.

(** [re.sub(r"(\w)-\n(\w)", r"\1\2", text)]: the matches are found from
    left to right and do not overlap, the scan resuming after the second
    word character of a match. *)
Fixpoint dehyphenate (s : str) : str :=
  match s with
  | [] => []
  | a :: s' =>
    match s' with
    | h :: n :: b :: rest =>
      if is_word a && (h =? HYPHEN)%N && (n =? LF)%N && is_word b
      then a :: b :: dehyphenate rest
      else a :: dehyphenate s'
    | _ => a :: dehyphenate s'
    end
  end.

Definition is_blank (c : N) : bool := (c =? SPACE)%N || (c =? TAB)%N.

(** [re.sub(r"[ \t]+", " ", text)] *)
Definition collapse_blanks (s : str) : str := collapse_runs is_blank SPACE s.

(** [re.sub(r"\n{3,}", "\n\n", text)]: of a run of three or more newlines
    the last two stay. *)
Fixpoint collapse_newlines (s : str) : str :=
  match s with
  | [] => []
  | c :: s' =>
    match s' with
    | d :: e :: _ =>
      if (c =? LF)%N && (d =? LF)%N && (e =? LF)%N then collapse_newlines s'
      else c :: collapse_newlines s'
    | _ => c :: collapse_newlines s'
    end
  end.

Definition normalize_text (text : str) : str :=
  let text := replace_cr (replace_crlf text) in
  let text := dehyphenate text in
  let text := collapse_blanks text in
  let text := collapse_newlines text in
  strip text.

(** *** is_heading *)

(** [^CHAPTER\s+\d+\b] *)
Definition re_chapter : @cont unit :=
  m_lit_ci (u "CHAPTER") (m_plus is_space (m_plus is_digit (wordb accept))).

(** [^\d+(\.\d+)+\s+\S+] *)
Definition re_outline (n : nat) : @cont unit :=
  let dotted k := m_chr (N.eqb DOT) (m_plus is_digit k) in
  m_plus is_digit
    (dotted (m_many n dotted (m_plus is_space (m_plus not_space accept)))).

(** [^EXERCISE\s+\d+(\.\d+)?\b] *)
Definition re_exercise : @cont unit :=
  let dotted k := m_chr (N.eqb DOT) (m_plus is_digit k) in
  m_lit_ci (u "EXERCISE")
    (m_plus is_space (m_plus is_digit (m_opt dotted (wordb accept)))).

(** [^MISCELLANEOUS\s+EXERCISE\b] *)
Definition re_misc_exercise : @cont unit :=
  m_lit_ci (u "MISCELLANEOUS")
    (m_plus is_space (m_lit_ci (u "EXERCISE") (wordb accept))).

(** [^SUMMARY\b] *)
Definition re_summary : @cont unit := m_lit_ci (u "SUMMARY") (wordb accept).

(** [^HISTORICAL\s+NOTE\b] *)
Definition re_historical_note : @cont unit :=
  m_lit_ci (u "HISTORICAL")
    (m_plus is_space (m_lit_ci (u "NOTE") (wordb accept))).

(** [^ANSWERS?\b] *)
Definition re_answers : @cont unit :=
  m_lit_ci (u "ANSWER") (m_opt (m_chr (ci 115)) (wordb accept)).

Definition is_heading (line : str) : bool :=
  let s := strip line in
  match s with
  | [] => false
  | _ :: _ =>
    if found (re_match re_chapter s) then true
    else if found (re_match (re_outline (length s)) s) then true
    else if found (re_match re_exercise s) then true
    else if found (re_match re_misc_exercise s) then true
    else if found (re_match re_summary s) then true
    else if found (re_match re_historical_note s) then true
    else if found (re_match re_answers s) then true
    else false
  end.

(** *** classify_section, make_section, split_sections *)

Definition classify_section (title : str) : section_type :=
  let t := upper title in
  if contains (u "EXERCISE") t then exercise_t
  else if starts_with (u "CHAPTER") t then chapter_t
  else if contains (u "SUMMARY") t then summary_t
  else if contains (u "HISTORICAL NOTE") t then note_t
  else if starts_with (u "ANSWERS") t then answers_t
  else section_t.

Definition make_section (title : str) (lines : list str) : section :=
  let body := strip (join [LF] lines) in
  {| title := title; type := classify_section title; text := body |}.

Definition flush (sections : list section) (current_title : str)
    (current_lines : list str) : list section :=
  match current_lines with
  | [] => sections
  | _ :: _ => sections ++ [make_section current_title current_lines]
  end.

(** the [for line in text.splitlines()] loop and the final flush *)
Fixpoint split_loop (lines : list str) (sections : list section)
    (current_title : str) (current_lines : list str) : list section :=
  match lines with
  | [] => flush sections current_title current_lines
  | line :: lines' =>
    if is_heading line then
      split_loop lines' (flush sections current_title current_lines)
        (strip line) []
    else split_loop lines' sections current_title (current_lines ++ [line])
  end.

Definition split_sections (text : str) : list section :=
  split_loop (splitlines text) [] (u "front_matter") [].

(** *** chunk_text *)

(** The [while idx < len(words)] loop.  [fuel] bounds the number of rounds;
    [None] means the bound was reached ([chunk_loop_total] shows that it is
    not with the bound [chunk_text_with] gives). *)
Fixpoint chunk_loop (fuel : nat) (words : list str) (max_words step : Z)
    (idx : Z) (chunks : list str) : option (list str) :=
  match fuel with
  | O => None
  | S fuel' =>
    if (idx <? Z.of_nat (length words))%Z then
      match slice words idx (idx + max_words) with
      | [] => Some chunks
      | part =>
        chunk_loop fuel' words max_words step (idx + step)
          (chunks ++ [join [SPACE] part])
      end
    else Some chunks
  end.

Definition chunk_step (max_words overlap : Z) : Z :=
  let step := (max_words - overlap)%Z in
  if (step <=? 0)%Z then max_words else step.

Definition chunk_text_with (text : str) (max_words overlap : Z) : list str :=
  let words := split text in
  match words with
  | [] => []
  | _ :: _ =>
    let step := chunk_step max_words overlap in
    default [] (chunk_loop (S (S (length words))) words max_words step 0 [])
  end.

(** [chunk_text(text)] with the default [max_words=200, overlap=40] *)
Definition chunk_text (text : str) : list str := chunk_text_with text 200 40.

(** *** parse_answer_key *)

(** [^\s*(\d+)\.\s*(.+)$], giving its two groups *)
Definition re_answer_line : @cont (str * str) :=
  m_star is_space
    (m_plus_cap is_digit (fun num =>
       m_chr (N.eqb DOT)
         (m_star is_space
            (m_plus_cap not_lf (fun rest =>
               m_eol (fun _ _ => Some (num, rest))))))).

Definition answer_line (answers : gmap str str) (line : str)
  : gmap str str :=
  match re_match re_answer_line line with
  | Some (num, rest) => <[num := strip rest]> answers
  | None => answers
  end.

Definition answer_section (answers : gmap str str) (s : section)
  : gmap str str :=
  if decide (type s = answers_t)
  then foldl answer_line answers (splitlines (text s))
  else answers.

Definition parse_answer_key (sections : list section) : gmap str str :=
  foldl answer_section ∅ sections.

(** *** parse_questions_from_section *)

(** [^\s*(\d+)\.\s+(REST)$] where [REST] is [.*] *)
Definition re_question : @cont (str * str) :=
  m_star is_space
    (m_plus_cap is_digit (fun num =>
       m_chr (N.eqb DOT)
         (m_plus is_space
            (m_star_cap not_lf (fun rest =>
               m_eol (fun _ _ => Some (num, rest))) [])))).

(** [^\s*Q\.?\s*(\d+)\s*[-:.]?\s*(REST)$] under [re.I], where [REST]
    is [.*] *)
Definition re_question_alt : @cont (str * str) :=
  m_star is_space
    (m_chr (ci 81)
       (m_opt (m_chr (N.eqb DOT))
          (m_star is_space
             (m_plus_cap is_digit (fun num =>
                m_star is_space
                  (m_opt (m_chr (one_of (u "-:.")))
                     (m_star is_space
                        (m_star_cap not_lf (fun rest =>
                           m_eol (fun _ _ => Some (num, rest))) [])))))))).

(** the loop state: [questions], [current], [current_num] *)
Record pq_state := {
  pq_questions : list parsed_question;
  pq_current : option (list str);
  pq_current_num : option str
}.

Definition close_question (st : pq_state) : list parsed_question :=
  match pq_current st with
  | Some current =>
    pq_questions st ++
      [{| number := pq_current_num st; ptext := strip (join [LF] current) |}]
  | None => pq_questions st
  end.

Definition open_question (st : pq_state) (num rest : str) : pq_state :=
  let line_text := strip rest in
  {| pq_questions := close_question st;
     pq_current := Some (match line_text with [] => [] | _ :: _ => [line_text] end);
     pq_current_num := Some num |}.

Definition pq_line (st : pq_state) (line : str) : pq_state :=
  match re_match re_question line, re_match re_question_alt line with
  | Some (num, rest), _ => open_question st num rest
  | None, Some (num, rest) => open_question st num rest
  | None, None =>
    match pq_current st with
    | Some current =>
      match strip line with
      | [] => st
      | _ :: _ =>
        {| pq_questions := pq_questions st;
           pq_current := Some (current ++ [strip line]);
           pq_current_num := pq_current_num st |}
      end
    | None => st
    end
  end.

Definition pq_init : pq_state :=
  {| pq_questions := []; pq_current := None; pq_current_num := None |}.

Definition parse_questions_from_section (s : section)
  : list parsed_question :=
  close_question (foldl pq_line pq_init (splitlines (text s))).

(** *** extract_options *)

(** [^\s*\(?([a-dA-D])\)\s*(.+)$], giving the second group *)
Definition re_option : @cont str :=
  m_star is_space
    (m_opt (m_chr (N.eqb 40))
       (m_chr (fun c => between 97 100 c || between 65 68 c)
          (m_chr (N.eqb 41)
             (m_star is_space
                (m_plus_cap not_lf (fun rest =>
                   m_eol (fun _ _ => Some rest))))))).

Definition option_line (options : list str) (line : str) : list str :=
  match re_match re_option line with
  | Some rest => options ++ [strip rest]
  | None => options
  end.

(** [options or None] *)
Definition extract_options (text : str) : option (list str) :=
  match foldl option_line [] (splitlines text) with
  | [] => None
  | options => Some options
  end.

(** *** detect_topics *)

Definition TOPIC_KEYWORDS : list (str * list str) :=
  [ (u "set", [u "set"; u "sets"; u "subset"; u "superset"; u "power set"]);
    (u "operations",
     [u "union"; u "intersection"; u "difference"; u "complement"]);
    (u "notation",
     [u "roster"; u "set-builder"; u "element"; u "belongs"; u "empty set"]);
    (u "venn", [u "venn"; u "diagram"]);
    (u "intervals", [u "interval"; u "open interval"; u "closed interval"]) ].

Definition detect_topics (text : str) : list str :=
  let text_lower := lower text in
  foldl (fun hits '(topic, keywords) =>
           if existsb (fun kw => contains kw text_lower) keywords
           then hits ++ [topic] else hits)
        [] TOPIC_KEYWORDS.

(** *** score_difficulty *)

(** [\bprove\b|\bshow that\b|\bderive\b|\bverify\b] *)
Definition re_proof_verb : @cont unit :=
  m_alts [ (fun k => wordb (m_lit (u "prove") (wordb k)));
           (fun k => wordb (m_lit (u "show that") (wordb k)));
           (fun k => wordb (m_lit (u "derive") (wordb k)));
           (fun k => wordb (m_lit (u "verify") (wordb k))) ] accept.

(** [\bif\b.*\bthen\b] *)
Definition re_if_then : @cont unit :=
  wordb (m_lit (u "if") (wordb
    (m_star not_lf (wordb (m_lit (u "then") (wordb accept)))))).

(** [\b(i\)|\(ii\)|\(a\)|\(b\))] *)
Definition re_subpart : @cont unit :=
  wordb (m_alts [ m_lit (u "i)"); m_lit (u "(ii)");
                  m_lit (u "(a)"); m_lit (u "(b)") ] accept).

(** [[=<>]|union|intersection|complement|subset] *)
Definition re_symbolic : @cont unit :=
  m_alts [ m_chr (one_of (u "=<>")); m_lit (u "union");
           m_lit (u "intersection"); m_lit (u "complement");
           m_lit (u "subset") ] accept.

(** the score before the clamp *)
Definition raw_score (text : str) : Z :=
  let score := 1%Z in
  let lower := lower text in
  let score :=
    if found (re_search re_proof_verb lower) then (score + 1)%Z else score in
  let score :=
    if found (re_search re_if_then lower) then (score + 1)%Z else score in
  let score :=
    if found (re_search re_subpart lower) then (score + 1)%Z else score in
  let score :=
    if (80 <? length (split text))%nat then (score + 1)%Z else score in
  let score :=
    if found (re_search re_symbolic lower) then (score + 1)%Z else score in
  score.

Definition score_difficulty (text : str) (levels : Z) : Z :=
  let score := raw_score text in
  if (score >? levels)%Z then levels else score.

(** *** slugify *)

Definition slugify (value : str) : str :=
  let value := lower value in
  let value :=
    collapse_runs (fun c => negb (ascii_lower_letter c || ascii_digit c))
      UNDERSCORE value in
  strip_with (N.eqb UNDERSCORE) value.

(** *** build_questions *)

(** [f"{slugify(config['subject'])}_{config['class']}_ch{config['chapter']}"] *)
Definition base_id (cfg : config) : str :=
  slugify (subject cfg) ++ u "_" ++ class_ cfg ++ u "_ch" ++ chapter cfg.

Definition config_metadata (cfg : config) : metadata :=
  {| md_subject := subject cfg; md_class := class_ cfg;
     md_chapter := chapter cfg; md_book := book cfg |}.

(** [a or b] on strings: [b] when [a] is [None] or empty *)
Definition or_str (a : option str) (b : str) : str :=
  match a with
  | Some ((_ :: _) as x) => x
  | _ => b
  end.

(** the truth value of [answers.get(q_num)] *)
Definition truthy (a : option str) : bool :=
  match a with
  | Some (_ :: _) => true
  | _ => false
  end.

(** the body of the inner loop: the question built from the [idx]-th parsed
    question [q] of section [s] *)
Definition build_question (answers : gmap str str) (cfg : config)
    (s : section) (section_slug : str) (idx : Z) (q : parsed_question)
  : question :=
  let q_num := or_str (number q) (str_of_int idx) in
  let answer := answers !! q_num in
  let question_text := strip (ptext q) in
  let question_text_ascii := to_ascii question_text in
  let options := extract_options question_text_ascii in
  let difficulty :=
    score_difficulty question_text_ascii (difficulty_levels cfg) in
  let qid := base_id cfg ++ u "_" ++ section_slug ++ u "_q" ++ q_num in
  {| q_id := qid;
     q_source := u "exercise";
     q_section_title := title s;
     question_number := q_num;
     stem := question_text_ascii;
     options := options;
     answer := if truthy answer then to_ascii <$> answer else None;
     answer_source := if truthy answer then answer_key else missing;
     difficulty := difficulty;
     topics := detect_topics question_text_ascii;
     q_metadata := config_metadata cfg |}.

(** [for idx, q in enumerate(section_questions, start=1)] *)
Fixpoint enumerate_from {A} (start : Z) (l : list A) : list (Z * A) :=
  match l with
  | [] => []
  | x :: l' => (start, x) :: enumerate_from (start + 1) l'
  end.

Definition section_questions (answers : gmap str str) (cfg : config)
    (s : section) : list question :=
  let section_questions := parse_questions_from_section s in
  let section_slug :=
    match slugify (title s) with [] => u "exercise" | slug => slug end in
  List.map (fun '(idx, q) => build_question answers cfg s section_slug idx q)
    (enumerate_from 1 section_questions).

Definition build_questions (sections : list section) (answers : gmap str str)
    (cfg : config) : list question :=
  foldl (fun questions s =>
           if decide (type s = exercise_t)
           then questions ++ section_questions answers cfg s
           else questions)
        [] sections.

(** *** build_chunks *)

Definition build_chunk (cfg : config) (s : section) (chunk_index : Z)
    (text : str) : chunk :=
  {| c_id := base_id cfg ++ u "_chunk_" ++ str_of_int chunk_index;
     c_text := to_ascii text;
     c_section_title := title s;
     c_section_type := type s;
     c_metadata := config_metadata cfg |}.

(** the loop state: [chunks] and [chunk_index] *)
Definition chunk_state : Type := list chunk * Z.

Definition chunk_section (cfg : config) (st : chunk_state) (s : section)
  : chunk_state :=
  if decide (type s = answers_t) then st
  else
    foldl (fun '(chunks, chunk_index) text =>
             (chunks ++ [build_chunk cfg s chunk_index text],
              (chunk_index + 1)%Z))
          st (chunk_text (text s)).

Definition build_chunks (sections : list section) (cfg : config)
  : list chunk :=
  fst (foldl (chunk_section cfg) ([], 1%Z) sections).

(** *** main, from the extracted text on *)

Record report := {
  raw_text_chars : nat;
  raw_text_ascii_chars : nat;
  non_ascii_removed : nat;
  sections_count : nat;
  questions_count : nat;
  answers_found : nat;
  needs_ocr : bool
}.

Record outputs := {
  out_raw_text : str;
  out_sections : list section;
  out_questions : list question;
  out_chunks : list chunk;
  out_report : report
}.

Definition main (cfg : config) (extracted : str) : outputs :=
  let raw_text := extracted in
  let non_ascii_count := count_non_ascii raw_text in
  let raw_text := normalize_text raw_text in
  let raw_text_ascii := to_ascii raw_text in
  let sections := split_sections raw_text in
  let sections :=
    List.map (fun s => {| title := title s; type := type s;
                          text := to_ascii (text s) |}) sections in
  let answers := parse_answer_key sections in
  let questions := build_questions sections answers cfg in
  let chunks := build_chunks sections cfg in
  {| out_raw_text := raw_text_ascii;
     out_sections := sections;
     out_questions := questions;
     out_chunks := chunks;
     out_report :=
       {| raw_text_chars := length raw_text;
          raw_text_ascii_chars := length raw_text_ascii;
          non_ascii_removed := non_ascii_count;
          sections_count := length sections;
          questions_count := length questions;
          answers_found := size answers;
          needs_ocr := (length raw_text_ascii <? 2000)%nat |} |}.

End Pipeline.

(** * Properties *)

(** ** What a successful match says about the continuation *)

Section MatcherFacts.
Context {A : Type}.
Implicit Types (k : @cont A) (p : N -> bool) (r : A).

Lemma orelse_Some (x y : option A) r :
  orelse x y = Some r -> x = Some r \/ y = Some r.
Proof. destruct x; simpl; auto. Qed.

Lemma m_chr_Some p k prev s r :
  m_chr p k prev s = Some r ->
  exists c s', s = c :: s' /\ p c = true /\ k (Some c) s' = Some r.
Proof.
  destruct s as [|c s']; simpl; [discriminate|].
  destruct (p c) eqn:Hp; [|discriminate]. eauto.
Qed.

Lemma m_star_Some p k prev s r :
  m_star p k prev s = Some r -> exists prev' s', k prev' s' = Some r.
Proof.
  revert prev. induction s as [|c s' IH]; intros prev; simpl; [eauto|].
  destruct (p c); [|eauto].
  intros [H|H]%orelse_Some; eauto.
Qed.

Lemma m_star_cap_Some p (k : str -> @cont A) acc prev s r :
  m_star_cap p k acc prev s = Some r ->
  exists cap prev' s',
    forallb p cap = true /\ k (acc ++ cap) prev' s' = Some r.
Proof.
  revert acc prev. induction s as [|c s' IH]; intros acc prev; simpl.
  - intros H. exists [], prev, []. by rewrite app_nil_r.
  - destruct (p c) eqn:Hp.
    + intros [H|H]%orelse_Some.
      * apply IH in H as (cap & prev' & s'' & Hcap & Hk).
        exists (c :: cap), prev', s''. simpl. rewrite Hp, Hcap.
        by rewrite <- app_assoc in Hk.
      * exists [], prev, (c :: s'). by rewrite app_nil_r.
    + intros H. exists [], prev, (c :: s'). by rewrite app_nil_r.
Qed.

Lemma m_plus_cap_Some p (k : str -> @cont A) prev s r :
  m_plus_cap p k prev s = Some r ->
  exists cap prev' s',
    cap <> [] /\ forallb p cap = true /\ k cap prev' s' = Some r.
Proof.
  destruct s as [|c s']; simpl; [discriminate|].
  destruct (p c) eqn:Hp; [|discriminate].
  intros (cap & prev' & s'' & Hcap & Hk)%m_star_cap_Some.
  exists (c :: cap), prev', s''. simpl. by rewrite Hp, Hcap.
Qed.

Lemma m_opt_Some (m : @cont A -> @cont A) k prev s r :
  m_opt m k prev s = Some r -> m k prev s = Some r \/ k prev s = Some r.
Proof. apply orelse_Some. Qed.

Lemma m_eol_Some k prev s r :
  m_eol k prev s = Some r -> k prev s = Some r.
Proof.
  destruct s as [|c [|d s']]; simpl; [done| |discriminate].
  by destruct (c =? LF)%N.
Qed.
End MatcherFacts.

Ltac unmatch H :=
  unfold re_match, m_plus in H;
  repeat first
    [ apply m_star_Some in H as (? & ? & H)
    | apply m_plus_cap_Some in H as (? & ? & ? & ? & ? & H)
    | apply m_star_cap_Some in H as (? & ? & ? & ? & H)
    | apply m_chr_Some in H as (? & ? & ? & ? & H)
    | apply m_eol_Some in H
    | apply m_opt_Some in H as [H|H] ].

Section Properties.
Variable U : unicode_tables.

(** ** Parsed question numbers *)

(** a non-empty string of [\d] characters *)
Definition numeral (n : str) : Prop :=
  n <> [] /\ forallb (is_digit U) n = true.

Lemma re_question_numeral line num rest :
  re_match (re_question U) line = Some (num, rest) -> numeral num.
Proof.
  unfold re_question. intros H. unmatch H.
  simpl in H. injection H as <- _. by split.
Qed.

Lemma re_question_alt_numeral line num rest :
  re_match (re_question_alt U) line = Some (num, rest) -> numeral num.
Proof.
  unfold re_question_alt. intros H.
  unmatch H; simpl in H; injection H as <- _; by split.
Qed.

Lemma re_answer_line_numeral line num rest :
  re_match (re_answer_line U) line = Some (num, rest) -> numeral num.
Proof.
  unfold re_answer_line. intros H. unmatch H.
  injection H as <- _. by split.
Qed.

(** the loop invariant of [parse_questions_from_section]: every question
    closed so far has a numeral, and so has the open one *)
Definition numbered (q : parsed_question) : Prop :=
  exists n, number q = Some n /\ numeral n.

Definition pq_inv (st : pq_state) : Prop :=
  Forall numbered (pq_questions st) /\
  (is_Some (pq_current st) ->
   exists n, pq_current_num st = Some n /\ numeral n).

Lemma close_question_numbered st :
  pq_inv st -> Forall numbered (close_question st).
Proof.
  intros [Hq Hc]. unfold close_question.
  destruct (pq_current st) as [cur|]; [|done].
  apply Forall_app. split; [done|].
  destruct Hc as (n & Hn & Hnum); [by eexists|].
  repeat constructor. exists n. by split.
Qed.

Lemma open_question_inv st num rest :
  pq_inv st -> numeral num -> pq_inv (open_question st num rest).
Proof.
  intros Hst Hnum. split; simpl.
  - by apply close_question_numbered.
  - intros _. by exists num.
Qed.

Lemma pq_line_inv st line : pq_inv st -> pq_inv (pq_line U st line).
Proof.
  intros Hst. unfold pq_line.
  destruct (re_match (re_question U) line) as [[num rest]|] eqn:Hm.
  { apply open_question_inv; [done|]. by eapply re_question_numeral. }
  destruct (re_match (re_question_alt U) line) as [[num rest]|] eqn:Ha.
  { apply open_question_inv; [done|]. by eapply re_question_alt_numeral. }
  destruct (pq_current st) as [cur|] eqn:Hcur; [|done].
  destruct (strip line); [done|].
  destruct Hst as [Hq Hc]. split; simpl; [done|].
  intros _. apply Hc. rewrite Hcur. by eexists.
Qed.

Lemma pq_loop_inv lines st :
  pq_inv st -> pq_inv (foldl (pq_line U) st lines).
Proof.
  revert st. induction lines as [|line lines IH]; intros st Hst; simpl.
  - done.
  - apply IH. by apply pq_line_inv.
Qed.

Lemma parse_questions_numbered s :
  Forall numbered (parse_questions_from_section U s).
Proof.
  apply close_question_numbered, pq_loop_inv.
  split; simpl; [constructor|]. by intros [? ?].
Qed.

Lemma or_str_numeral n fallback : numeral n -> or_str (Some n) fallback = n.
Proof. intros [Hne _]. by destruct n. Qed.

(** ** The questions [build_questions] returns *)

Lemma build_questions_foldl sections answers cfg acc :
  foldl (fun questions s =>
           if decide (type s = exercise_t)
           then questions ++ section_questions U answers cfg s
           else questions) acc sections
  = acc ++ build_questions U sections answers cfg.
Proof.
  unfold build_questions. revert acc.
  induction sections as [|s sections IH]; intros acc; simpl.
  - by rewrite app_nil_r.
  - rewrite IH. rewrite (IH (if decide _ then _ else _)).
    destruct (decide (type s = exercise_t)); simpl.
    + by rewrite app_assoc.
    + done.
Qed.

Lemma build_questions_cons s sections answers cfg :
  build_questions U (s :: sections) answers cfg
  = (if decide (type s = exercise_t)
     then section_questions U answers cfg s else [])
    ++ build_questions U sections answers cfg.
Proof.
  unfold build_questions at 1. simpl. rewrite build_questions_foldl.
  by destruct (decide (type s = exercise_t)).
Qed.

Lemma enumerate_from_elem {A} (l : list A) start idx x :
  (idx, x) ∈ enumerate_from start l -> x ∈ l.
Proof.
  revert start. induction l as [|y l IH]; intros start; simpl.
  - by intros ?%elem_of_nil.
  - intros [Heq|Hin]%elem_of_cons.
    + injection Heq as _ ->. apply elem_of_cons. by left.
    + apply elem_of_cons. right. by eapply IH.
Qed.

(** every question comes from a parsed question of an exercise section *)
Lemma build_questions_elem sections answers cfg q :
  q ∈ build_questions U sections answers cfg ->
  exists s slug idx pq,
    s ∈ sections /\ type s = exercise_t /\
    pq ∈ parse_questions_from_section U s /\
    q = build_question U answers cfg s slug idx pq.
Proof.
  induction sections as [|s sections IH].
  - by intros ?%elem_of_nil.
  - rewrite build_questions_cons. intros [Hq|Hq]%elem_of_app.
    + destruct (decide (type s = exercise_t)) as [Ht|];
        [|by apply elem_of_nil in Hq].
      unfold section_questions in Hq.
      apply list_elem_of_fmap in Hq as ([idx pq] & -> & Hin).
      apply enumerate_from_elem in Hin.
      eexists s, _, idx, pq. repeat split; [by left|done|done].
    + destruct (IH Hq) as (s' & slug & idx & pq & Hs & Ht & Hpq & ->).
      exists s', slug, idx, pq. repeat split; [by right|done|done].
Qed.

(** the parsed questions of the sections of type [exercise], in document
    order *)
Definition document_questions (sections : list section)
  : list parsed_question :=
  flat_map (fun s =>
              if decide (type s = exercise_t)
              then parse_questions_from_section U s else [])
           sections.

(** the questions built from parsed questions that all have a numeral carry
    these numerals, one question for each parsed question, whatever the
    position the enumeration starts at *)
Lemma build_question_numbers answers cfg s slug start pqs :
  Forall numbered pqs ->
  Forall2 (fun q pq => number pq = Some (question_number q) /\
                       numeral (question_number q))
          (List.map (fun '(idx, q) => build_question U answers cfg s slug idx q)
                    (enumerate_from start pqs))
          pqs.
Proof.
  intros Hall. revert start.
  induction Hall as [|pq pqs (n & Hn & Hnum) _ IH]; intros start.
  - constructor.
  - cbn [enumerate_from List.map]. constructor; [|apply IH].
    unfold build_question. cbn [question_number].
    rewrite Hn, (or_str_numeral n _ Hnum). by split.
Qed.

(** C9: every question returned by [parse_questions_from_section] carries a
    parsed number, a non-empty string of digits, so that
    [q["number"] or str(idx)] in [build_questions] is that number whatever
    the position [idx]; and the questions [build_questions] returns are, one
    for one and in document order, the parsed questions of the sections of
    type [exercise], the [question_number] of each being the number parsed
    for it, never its position. *)
Theorem question_number_is_parsed s sections answers cfg :
  Forall (fun pq => exists n,
            number pq = Some n /\ numeral n /\
            forall idx, or_str (number pq) (str_of_int idx) = n)
         (parse_questions_from_section U s) /\
  Forall2 (fun q pq => number pq = Some (question_number q) /\
                       numeral (question_number q))
          (build_questions U sections answers cfg)
          (document_questions sections).
Proof.
  split.
  - eapply Forall_impl; [apply parse_questions_numbered|].
    intros pq (n & Hn & Hnum). exists n. split; [done|]. split; [done|].
    intros idx. rewrite Hn. by apply or_str_numeral.
  - induction sections as [|s' sections IH]; [constructor|].
    rewrite build_questions_cons. unfold document_questions. simpl.
    apply Forall2_app; [|exact IH].
    destruct (decide (type s' = exercise_t)); [|constructor].
    apply build_question_numbers, parse_questions_numbered.
Qed.

(** ** Answer linkage *)

Lemma build_question_linkage answers cfg s slug idx pq :
  let q := build_question U answers cfg s slug idx pq in
  (answer_source q = answer_key <-> answer q <> None) /\
  (answer_source q = missing <-> answer q = None).
Proof.
  simpl. destruct (answers !! _) as [[|c a]|]; simpl;
    repeat split; intros; try done.
Qed.

(** C5: for every question built, over every list of sections, answer-key
    mapping and configuration, [answer_source] is ["answer_key"] exactly
    when [answer] is not [None], and ["missing"] exactly when it is. *)
Theorem answer_linkage sections answers cfg :
  Forall (fun q =>
            (answer_source q = answer_key <-> answer q <> None) /\
            (answer_source q = missing <-> answer q = None))
         (build_questions U sections answers cfg).
Proof.
  apply Forall_forall. intros q Hq.
  apply build_questions_elem in Hq as (s & slug & idx & pq & _ & _ & _ & ->).
  apply build_question_linkage.
Qed.

(** ** Difficulty *)

Lemma raw_score_bounds text : (1 <= raw_score U text <= 6)%Z.
Proof.
  unfold raw_score.
  repeat match goal with |- context [if ?b then _ else _] => destruct b end;
    lia.
Qed.

Lemma score_difficulty_min text levels :
  score_difficulty U text levels = Z.min (raw_score U text) levels.
Proof.
  unfold score_difficulty.
  destruct (Z.gtb_spec (raw_score U text) levels); lia.
Qed.


(** ** The answer key *)

(** The matching answer lines of a document, in document order: for every
    section of type [answers], in order, the two groups of every line the
    answer pattern matches, in line order. *)
Definition answer_entries (sections : list section) : list (str * str) :=
  flat_map (fun s =>
              if decide (type s = answers_t)
              then omap (re_match (re_answer_line U)) (splitlines (text s))
              else [])
           sections.

(** the rest-of-line of the last entry with number [k] *)
Definition last_entry (k : str) (entries : list (str * str)) : option str :=
  snd <$> last (filter (fun e => e.1 = k) entries).

(** the assignments [answers[num] = rest.strip()] for a list of entries *)
Definition store (answers : gmap str str) (entries : list (str * str))
  : gmap str str :=
  foldl (fun m e => <[e.1 := strip e.2]> m) answers entries.

Lemma store_app answers es1 es2 :
  store answers (es1 ++ es2) = store (store answers es1) es2.
Proof. apply foldl_app. Qed.

Lemma answer_lines_store answers lines :
  foldl (answer_line U) answers lines
  = store answers (omap (re_match (re_answer_line U)) lines).
Proof.
  revert answers. induction lines as [|line lines IH]; intros answers; simpl.
  - done.
  - unfold answer_line at 2.
    destruct (re_match (re_answer_line U) line) as [[num rest]|]; simpl;
      by rewrite IH.
Qed.

Lemma parse_answer_key_store sections :
  parse_answer_key U sections = store ∅ (answer_entries sections).
Proof.
  unfold parse_answer_key. generalize (∅ : gmap str str).
  induction sections as [|s sections IH]; intros answers; simpl.
  - done.
  - rewrite IH, store_app. f_equal. unfold answer_section.
    destruct (decide (type s = answers_t)); [|done].
    apply answer_lines_store.
Qed.

Lemma last_entry_cons k e entries :
  last_entry k (e :: entries)
  = match last_entry k entries with
    | Some v => Some v
    | None => if decide (e.1 = k) then Some e.2 else None
    end.
Proof.
  unfold last_entry. rewrite filter_cons.
  destruct (decide (e.1 = k)) as [He|He]; [|by destruct (last _)].
  destruct (filter _ entries) as [|e' es] eqn:Hf; [done|].
  rewrite last_cons. by destruct (last (e' :: es)) eqn:Hl.
Qed.

Lemma store_lookup answers entries k :
  store answers entries !! k
  = match last_entry k entries with
    | Some v => Some (strip v)
    | None => answers !! k
    end.
Proof.
  revert answers. induction entries as [|e entries IH]; intros answers.
  - done.
  - change (store answers (e :: entries))
      with (store (<[e.1 := strip e.2]> answers) entries).
    rewrite IH, last_entry_cons.
    destruct (last_entry k entries); [done|].
    destruct (decide (e.1 = k)) as [<-|He].
    + by rewrite lookup_insert_eq.
    + by rewrite lookup_insert_ne.
Qed.

Lemma parse_answer_key_lookup sections k :
  parse_answer_key U sections !! k
  = strip <$> last_entry k (answer_entries sections).
Proof.
  rewrite parse_answer_key_store, store_lookup.
  by destruct (last_entry k (answer_entries sections)).
Qed.

(** C8: [parse_answer_key] maps a question number to the trimmed
    rest-of-line of the last answer line with that number, in document order
    over the sections of type [answers] (a later line with the same number,
    in the same section or a later one, overwrites an earlier one), and
    to nothing when no answer line has that number. *)
Theorem answer_key_last_write_wins sections k :
  parse_answer_key U sections !! k
  = strip <$> last_entry k (answer_entries sections).
Proof. apply parse_answer_key_lookup. Qed.

Lemma drop_while_all p s : forallb p s = true -> drop_while p s = [].
Proof.
  induction s as [|c s IH]; simpl; [done|].
  destruct (p c); [done|discriminate].
Qed.

Lemma strip_whitespace s : forallb is_space s = true -> strip s = [].
Proof.
  intros H. unfold strip, strip_with, lstrip_with, rstrip_with.
  by rewrite (drop_while_all _ _ H).
Qed.

Lemma drop_while_nil p s : drop_while p s = [] -> forallb p s = true.
Proof.
  induction s as [|c s IH]; simpl; [done|].
  destruct (p c); [done|discriminate].
Qed.

Lemma drop_while_head p s c t : drop_while p s = c :: t -> p c = false.
Proof.
  induction s as [|d s IH]; simpl; [done|].
  destruct (p d) eqn:Hd; [done|]. by intros [= <- _].
Qed.

(** only a string of whitespace is trimmed to nothing *)
Lemma strip_visible s : forallb is_space s = false -> strip s <> [].
Proof.
  intros Hs Hstrip. unfold strip, strip_with, lstrip_with, rstrip_with in Hstrip.
  apply (f_equal (@rev N)) in Hstrip. rewrite rev_involutive in Hstrip.
  simpl in Hstrip. apply drop_while_nil in Hstrip.
  destruct (drop_while is_space s) as [|c t] eqn:Hdrop.
  - apply drop_while_nil in Hdrop. congruence.
  - apply drop_while_head in Hdrop. simpl in Hstrip.
    rewrite forallb_app in Hstrip. simpl in Hstrip.
    rewrite Hdrop in Hstrip. by rewrite andb_false_r in Hstrip.
Qed.

Lemma whitespace_answer sections cfg k rest :
  last_entry k (answer_entries sections) = Some rest ->
  forallb is_space rest = true ->
  parse_answer_key U sections !! k = Some [] /\
  Forall (fun q => question_number q = k ->
                   answer q = None /\ answer_source q = missing)
         (build_questions U sections (parse_answer_key U sections) cfg) /\
  k ∈ dom (parse_answer_key U sections) /\
  (0 < size (parse_answer_key U sections))%nat.
Proof.
  intros Hlast Hrest.
  assert (parse_answer_key U sections !! k = Some []) as Hk.
  { rewrite parse_answer_key_lookup, Hlast. simpl.
    by rewrite strip_whitespace. }
  split; [done|]. split.
  { apply Forall_forall. intros q Hq.
    apply build_questions_elem in Hq as (s & slug & idx & pq & _ & _ & _ & ->).
    unfold build_question. cbn [question_number answer answer_source].
    intros ->. by rewrite Hk. }
  split; [apply elem_of_dom; by rewrite Hk|].
  destruct (decide (size (parse_answer_key U sections) = 0%nat)) as [Hz|];
    [|lia].
  apply map_size_empty_inv in Hz. by rewrite Hz in Hk.
Qed.

Lemma visible_answer sections cfg k rest :
  last_entry k (answer_entries sections) = Some rest ->
  forallb is_space rest = false ->
  Forall (fun q => question_number q = k ->
                   answer q = Some (to_ascii (strip rest)) /\
                   answer_source q = answer_key)
         (build_questions U sections (parse_answer_key U sections) cfg).
Proof.
  intros Hlast Hrest.
  assert (parse_answer_key U sections !! k = Some (strip rest)) as Hk.
  { by rewrite parse_answer_key_lookup, Hlast. }
  apply strip_visible in Hrest.
  apply Forall_forall. intros q Hq.
  apply build_questions_elem in Hq as (s & slug & idx & pq & _ & _ & _ & ->).
  unfold build_question. cbn [question_number answer answer_source].
  intros ->. rewrite Hk. by destruct (strip rest).
Qed.

(** C10, as the script has it: an answer line that matches the answer
    pattern with a rest-of-line [rest] of whitespace only stores the empty
    string under its number [k]; when this is the last answer line with
    number [k] (a later line with the same number overwrites the entry),
    the answer key holds the empty string under [k], and every question
    numbered [k] has no answer and the source ["missing"], although [k] is
    a key of the answer key and is counted in the report's
    [answers_found].  The condition is needed: when the last answer line
    with number [k] has a rest-of-line that is not whitespace only, every
    question numbered [k] has that rest-of-line, trimmed, as its answer and
    the source ["answer_key"]. *)
Theorem whitespace_answer_is_missing k rest :
  forallb is_space rest = true ->
  (forall answers line,
     re_match (re_answer_line U) line = Some (k, rest) ->
     answer_line U answers line = <[k := []]> answers) /\
  (forall cfg extracted,
     let o := main U cfg extracted in
     let answers := parse_answer_key U (out_sections o) in
     last_entry k (answer_entries (out_sections o)) = Some rest ->
     answers !! k = Some [] /\
     Forall (fun q => question_number q = k ->
                      answer q = None /\ answer_source q = missing)
            (out_questions o) /\
     k ∈ dom answers /\
     answers_found (out_report o) = size answers /\
     (0 < answers_found (out_report o))%nat) /\
  (forall cfg extracted later,
     let o := main U cfg extracted in
     last_entry k (answer_entries (out_sections o)) = Some later ->
     forallb is_space later = false ->
     Forall (fun q => question_number q = k ->
                      answer q = Some (to_ascii (strip later)) /\
                      answer_source q = answer_key)
            (out_questions o)).
Proof.
  intros Hrest. split; [|split].
  - intros answers line Hline. unfold answer_line.
    by rewrite Hline, strip_whitespace.
  - intros cfg extracted o answers Hlast.
    destruct (whitespace_answer (out_sections o) cfg k rest Hlast Hrest)
      as (Hk & Hq & Hdom & Hsize).
    repeat split; done.
  - intros cfg extracted later o Hlast Hlater.
    exact (visible_answer (out_sections o) cfg k later Hlast Hlater).
Qed.

(** ** Chunks *)

(** the windows of a section that [build_chunks] turns into chunks *)
Definition section_pieces (s : section) : list (section * str) :=
  if decide (type s = answers_t) then []
  else (fun piece => (s, piece)) <$> chunk_text (text s).

(** the windows of the whole document, in document order *)
Definition document_pieces (sections : list section) : list (section * str) :=
  flat_map section_pieces sections.

(** the chunks of a list of windows, numbered from [n] on *)
Fixpoint number_chunks (cfg : config) (n : Z) (pieces : list (section * str))
  : list chunk :=
  match pieces with
  | [] => []
  | (s, piece) :: pieces' =>
    build_chunk U cfg s n piece :: number_chunks cfg (n + 1) pieces'
  end.

Lemma number_chunks_app cfg n ps1 ps2 :
  number_chunks cfg n (ps1 ++ ps2)
  = number_chunks cfg n ps1
    ++ number_chunks cfg (n + Z.of_nat (length ps1)) ps2.
Proof.
  revert n. induction ps1 as [|[s piece] ps1 IH]; intros n; simpl.
  - f_equal. lia.
  - rewrite IH. do 3 f_equal. lia.
Qed.

Lemma chunk_pieces_foldl cfg s pieces chunks n :
  foldl (fun '(chunks, chunk_index) text =>
           (chunks ++ [build_chunk U cfg s chunk_index text],
            (chunk_index + 1)%Z))
        (chunks, n) pieces
  = (chunks ++ number_chunks cfg n ((fun piece => (s, piece)) <$> pieces),
     (n + Z.of_nat (length pieces))%Z).
Proof.
  revert chunks n. induction pieces as [|piece pieces IH]; intros chunks n.
  - simpl. rewrite app_nil_r. f_equal. lia.
  - simpl. rewrite IH. rewrite <- app_assoc. simpl. f_equal. lia.
Qed.

Lemma chunk_section_pieces cfg s chunks n :
  chunk_section U cfg (chunks, n) s
  = (chunks ++ number_chunks cfg n (section_pieces s),
     (n + Z.of_nat (length (section_pieces s)))%Z).
Proof.
  unfold chunk_section, section_pieces.
  destruct (decide (type s = answers_t)).
  - simpl. rewrite app_nil_r. f_equal. lia.
  - rewrite chunk_pieces_foldl. by rewrite length_fmap.
Qed.

Lemma chunk_sections_pieces cfg sections chunks n :
  foldl (chunk_section U cfg) (chunks, n) sections
  = (chunks ++ number_chunks cfg n (document_pieces sections),
     (n + Z.of_nat (length (document_pieces sections)))%Z).
Proof.
  revert chunks n.
  induction sections as [|s sections IH]; intros chunks n; simpl.
  - rewrite app_nil_r. f_equal. lia.
  - rewrite chunk_section_pieces, IH, number_chunks_app, length_app.
    rewrite <- app_assoc. f_equal. lia.
Qed.

Lemma build_chunks_pieces sections cfg :
  build_chunks U sections cfg = number_chunks cfg 1 (document_pieces sections).
Proof. unfold build_chunks. by rewrite chunk_sections_pieces. Qed.

Lemma number_chunks_lookup cfg n pieces i c :
  number_chunks cfg n pieces !! i = Some c ->
  exists s piece,
    pieces !! i = Some (s, piece) /\
    c = build_chunk U cfg s (n + Z.of_nat i) piece.
Proof.
  revert n i. induction pieces as [|[s piece] pieces IH]; intros n i; simpl.
  - by rewrite lookup_nil.
  - destruct i as [|i]; simpl.
    + intros [= <-]. exists s, piece. split; [done|]. f_equal. lia.
    + intros (s' & piece' & Hp & ->)%IH. exists s', piece'.
      split; [done|]. f_equal. lia.
Qed.

Lemma document_pieces_type sections s piece :
  (s, piece) ∈ document_pieces sections -> type s <> answers_t.
Proof.
  unfold document_pieces. rewrite list_elem_of_In, in_flat_map.
  intros (s' & _ & Hin). unfold section_pieces in Hin.
  destruct (decide (type s' = answers_t)); [done|].
  apply list_elem_of_In, list_elem_of_fmap in Hin as (? & [= -> ->] & _).
  done.
Qed.

Lemma document_pieces_cons s sections :
  document_pieces (s :: sections)
  = section_pieces s ++ document_pieces sections.
Proof. done. Qed.

Lemma document_pieces_filter sections :
  document_pieces (filter (fun s => type s <> answers_t) sections)
  = document_pieces sections.
Proof.
  induction sections as [|s sections IH]; [done|].
  rewrite filter_cons, document_pieces_cons.
  destruct (decide (type s <> answers_t)) as [Hs|Hs].
  - by rewrite document_pieces_cons, IH.
  - rewrite IH. unfold section_pieces.
    destruct (decide (type s = answers_t)); [done|]. by destruct Hs.
Qed.

Lemma number_chunks_text cfg n pieces :
  c_text <$> number_chunks cfg n pieces = (to_ascii ∘ snd) <$> pieces.
Proof.
  revert n. induction pieces as [|[s piece] pieces IH]; intros n; simpl.
  - done.
  - by rewrite IH.
Qed.

(** C7: [build_chunks] makes chunks of the windows of the sections whose
    type is not [answers] only, in document order, and the [i]-th chunk of
    the document (counting from 1 across all sections) has the identifier
    [<base>_chunk_<i>]: one counter for the whole document. *)
Theorem chunk_ids_count_across_sections sections cfg :
  build_chunks U sections cfg
  = build_chunks U (filter (fun s => type s <> answers_t) sections) cfg /\
  Forall (fun c => c_section_type c <> answers_t)
         (build_chunks U sections cfg) /\
  c_text <$> build_chunks U sections cfg
  = to_ascii <$>
      flat_map (fun s => chunk_text (text s))
               (filter (fun s => type s <> answers_t) sections) /\
  forall i c,
    build_chunks U sections cfg !! i = Some c ->
    c_id c = base_id U cfg ++ u "_chunk_" ++ str_of_int (Z.of_nat i + 1).
Proof.
  repeat split.
  - by rewrite !build_chunks_pieces, document_pieces_filter.
  - apply Forall_forall. intros c Hc.
    apply list_elem_of_lookup in Hc as [i Hi].
    rewrite build_chunks_pieces in Hi.
    apply number_chunks_lookup in Hi as (s & piece & Hp & ->). simpl.
    eapply document_pieces_type, list_elem_of_lookup_2, Hp.
  - rewrite build_chunks_pieces, number_chunks_text.
    rewrite <- document_pieces_filter.
    induction sections as [|s sections IH]; [done|].
    rewrite filter_cons.
    destruct (decide (type s <> answers_t)) as [Hs|Hs]; [|done].
    rewrite document_pieces_cons. simpl. rewrite !fmap_app, IH. f_equal.
    unfold section_pieces.
    destruct (decide (type s = answers_t)); [done|].
    by rewrite <- list_fmap_compose.
  - intros i c Hi. rewrite build_chunks_pieces in Hi.
    apply number_chunks_lookup in Hi as (s & piece & _ & ->).
    unfold build_chunk. cbn [c_id].
    by replace (1 + Z.of_nat i)%Z with (Z.of_nat i + 1)%Z by lia.
Qed.

(** ** Windows of words *)

(** a word of [str.split()]: not empty, no whitespace inside *)
Definition word_ok (w : str) : Prop :=
  w <> [] /\ forallb not_space w = true.

Lemma split_words s : Forall word_ok (split s).
Proof.
  induction s as [|c s IH]; simpl; [constructor|].
  destruct (is_space c) eqn:Hc; [done|].
  assert (word_ok [c]) as Hone.
  { split; [done|]. simpl. unfold not_space. by rewrite Hc. }
  destruct s as [|d s']; [by apply Forall_singleton|].
  destruct (is_space d) eqn:Hd; [by apply Forall_cons|].
  destruct (split (d :: s')) as [|w ws]; [by apply Forall_singleton|].
  apply Forall_cons in IH as [[Hne Hw] Hws].
  apply Forall_cons. split; [|done]. split; [done|].
  simpl. unfold not_space at 1. by rewrite Hc.
Qed.

Lemma split_word_app w r :
  word_ok w ->
  match r with [] => True | c :: _ => is_space c = true end ->
  split (w ++ r) = w :: split r.
Proof.
  intros [Hne Hw] Hr. induction w as [|c w IH]; [done|].
  simpl in Hw. apply andb_prop in Hw as [Hc Hw].
  unfold not_space in Hc. apply negb_true_iff in Hc.
  destruct w as [|c2 w'].
  - simpl. rewrite Hc. destruct r as [|d r']; [done|]. by rewrite Hr.
  - specialize (IH ltac:(done) Hw).
    change ((c :: c2 :: w') ++ r) with (c :: (c2 :: w') ++ r).
    remember ((c2 :: w') ++ r) as t eqn:Ht.
    simpl. rewrite Hc. rewrite Ht at 1. simpl.
    simpl in Hw. apply andb_prop in Hw as [Hc2 _].
    unfold not_space in Hc2. apply negb_true_iff in Hc2. rewrite Hc2.
    by rewrite IH.
Qed.

Lemma split_join ws :
  Forall word_ok ws -> split (join [SPACE] ws) = ws.
Proof.
  induction 1 as [|w ws Hw Hws IH]; [done|].
  destruct ws as [|w' ws'].
  - simpl. rewrite <- (app_nil_r w) at 1. by rewrite split_word_app.
  - change (join [SPACE] (w :: w' :: ws'))
      with (w ++ SPACE :: join [SPACE] (w' :: ws')).
    rewrite split_word_app; [|done|done].
    f_equal. exact IH.
Qed.

Lemma slice_Forall {A} (P : A -> Prop) l a b :
  Forall P l -> Forall P (slice l a b).
Proof. intros H. unfold slice. by apply Forall_take, Forall_drop. Qed.

Lemma slice_length_le {A} (l : list A) idx n :
  (0 <= idx)%Z -> (0 <= n)%Z ->
  (Z.of_nat (length (slice l idx (idx + n))) <= n)%Z.
Proof.
  intros Hidx Hn. unfold slice, slice_bound.
  rewrite length_take.
  destruct (Z.ltb_spec idx 0); [lia|].
  destruct (Z.ltb_spec (idx + n) 0); lia.
Qed.

Lemma slice_nonempty {A} (l : list A) idx n :
  (0 <= idx < Z.of_nat (length l))%Z -> (0 < n)%Z ->
  slice l idx (idx + n) <> [].
Proof.
  intros Hidx Hn Hnil. apply (f_equal length) in Hnil.
  unfold slice, slice_bound in Hnil.
  rewrite length_take, length_drop in Hnil. simpl in Hnil.
  destruct (Z.ltb_spec idx 0); [lia|].
  destruct (Z.ltb_spec (idx + n) 0); lia.
Qed.

Lemma slice_backwards {A} (l : list A) a b :
  (a < 0)%Z -> (b <= a)%Z -> slice l a b = [].
Proof.
  intros Ha Hb. unfold slice, slice_bound.
  destruct (Z.ltb_spec a 0); [|lia]. destruct (Z.ltb_spec b 0); [|lia].
  replace (Z.to_nat _) with 0%nat by lia. done.
Qed.

(** the first [n] windows of [max_words] words, [step] words apart, from
    word [idx] on *)
Fixpoint windows (n : nat) (words : list str) (max_words step idx : Z)
  : list str :=
  match n with
  | O => []
  | S n' =>
    join [SPACE] (slice words idx (idx + max_words))
      :: windows n' words max_words step (idx + step)
  end.

(** how many multiples of [step] from [idx] on lie below [len] *)
Definition window_count (len step idx : Z) : nat :=
  Z.to_nat ((len - idx + step - 1) / step).

Lemma window_count_done len step idx :
  (0 < step)%Z -> (len <= idx)%Z -> window_count len step idx = 0%nat.
Proof.
  intros Hstep Hidx. unfold window_count.
  assert ((len - idx + step - 1) / step <= 0)%Z; [|lia].
  apply Z.lt_succ_r, Z.div_lt_upper_bound; lia.
Qed.

Lemma window_count_next len step idx :
  (0 < step)%Z -> (idx < len)%Z ->
  window_count len step idx = S (window_count len step (idx + step)).
Proof.
  intros Hstep Hidx. unfold window_count.
  replace (len - idx + step - 1)%Z with (len - idx - 1 + 1 * step)%Z by lia.
  replace (len - (idx + step) + step - 1)%Z with (len - idx - 1)%Z by lia.
  rewrite Z.div_add by lia.
  assert (0 <= (len - idx - 1) / step)%Z by (apply Z.div_pos; lia).
  lia.
Qed.

Lemma window_count_le len step idx :
  (0 < step)%Z -> (0 <= idx)%Z -> (0 <= len)%Z ->
  (Z.of_nat (window_count len step idx) <= len)%Z.
Proof.
  intros Hstep Hidx Hlen. unfold window_count.
  destruct (Z.le_gt_cases len idx) as [Hle|Hgt].
  - assert ((len - idx + step - 1) / step <= 0)%Z; [|lia].
    apply Z.lt_succ_r, Z.div_lt_upper_bound; lia.
  - assert ((len - idx + step - 1) / step <= len)%Z; [|lia].
    apply Z.lt_succ_r, Z.div_lt_upper_bound; [lia|]. nia.
Qed.

Lemma chunk_loop_windows fuel words max_words step idx chunks :
  (0 < max_words)%Z -> (0 < step)%Z -> (0 <= idx)%Z ->
  (window_count (Z.of_nat (length words)) step idx < fuel)%nat ->
  chunk_loop fuel words max_words step idx chunks
  = Some (chunks ++
          windows (window_count (Z.of_nat (length words)) step idx)
                  words max_words step idx).
Proof.
  intros Hmw Hstep. revert idx chunks.
  induction fuel as [|fuel IH]; intros idx chunks Hidx Hfuel; [lia|].
  simpl. destruct (Z.ltb_spec idx (Z.of_nat (length words))) as [Hlt|Hge].
  - rewrite window_count_next in * by done.
    pose proof (slice_nonempty words idx max_words ltac:(lia) Hmw) as Hne.
    destruct (slice words idx (idx + max_words)) as [|w part] eqn:Hs; [done|].
    rewrite IH by lia. simpl. rewrite Hs. by rewrite <- app_assoc.
  - rewrite window_count_done by done. simpl. by rewrite app_nil_r.
Qed.

(** *** the loop always ends within the rounds [chunk_text_with] allows *)

Lemma chunk_loop_total words max_words overlap :
  is_Some (chunk_loop (S (S (length words))) words max_words
             (chunk_step max_words overlap) 0 []).
Proof.
  set (step := chunk_step max_words overlap).
  set (len := Z.of_nat (length words)).
  assert (forall fuel idx chunks,
            (0 < step)%Z -> (len - idx < Z.of_nat fuel)%Z -> (0 < fuel)%nat ->
            is_Some (chunk_loop fuel words max_words step idx chunks))
    as Hforward.
  { induction fuel as [|fuel IH]; intros idx chunks Hstep Hfuel Hpos; [lia|].
    simpl. fold len. destruct (Z.ltb_spec idx len); [|by eexists].
    destruct (slice words idx (idx + max_words)); [by eexists|].
    apply IH; [done|lia|lia]. }
  destruct (Z.lt_ge_cases 0 step) as [Hstep|Hstep].
  { apply Hforward; [done|lia|lia]. }
  assert (step = max_words) as Hsm.
  { unfold step, chunk_step in *.
    destruct (Z.leb_spec (max_words - overlap) 0); [done|lia]. }
  rewrite Hsm in *. cbn [chunk_loop]. fold len.
  destruct (Z.ltb_spec 0 len); [|by eexists].
  destruct (slice words 0 (0 + max_words)) as [|w part] eqn:Hs; [by eexists|].
  destruct (Z.ltb_spec (0 + max_words) len); [|by eexists].
  destruct (Z.eq_dec max_words 0%Z) as [Hz|Hne].
  { rewrite Hz in Hs. unfold slice, slice_bound in Hs. simpl in Hs.
    replace (Z.to_nat _) with 0%nat in Hs by lia. done. }
  rewrite slice_backwards by lia. by eexists.
Qed.

(** the ceiling of [a / b], for [0 < b] *)
Definition ceil_div (a b : Z) : Z := (- ((- a) / b))%Z.

Lemma chunk_text_windows text :
  split text <> [] ->
  chunk_text text
  = windows (window_count (Z.of_nat (length (split text))) 160 0)
            (split text) 200 160 0.
Proof.
  intros Hne. unfold chunk_text, chunk_text_with.
  destruct (split text) as [|w ws] eqn:Hs; [done|].
  change (chunk_step 200 40) with 160%Z.
  rewrite chunk_loop_windows; [done|lia|lia|lia|].
  pose proof (window_count_le (Z.of_nat (length (w :: ws))) 160 0). lia.
Qed.

Lemma windows_length n words max_words step idx :
  length (windows n words max_words step idx) = n.
Proof.
  revert idx. induction n as [|n IH]; intros idx; simpl; [done|].
  by rewrite IH.
Qed.

Lemma windows_word_count n words max_words step idx :
  Forall word_ok words ->
  (0 <= max_words)%Z -> (0 <= step)%Z -> (0 <= idx)%Z ->
  Forall (fun c => (Z.of_nat (length (split c)) <= max_words)%Z)
         (windows n words max_words step idx).
Proof.
  intros Hwords Hmw Hstep. revert idx.
  induction n as [|n IH]; intros idx Hidx; simpl; [constructor|].
  apply Forall_cons. split; [|apply IH; lia].
  rewrite split_join by by apply slice_Forall.
  by apply slice_length_le.
Qed.

(** C6: with the default window of 200 words and overlap of 40, a text of
    [W > 0] words gives a number of chunks within 1 of the ceiling of
    [(W - 40) / 160], and every chunk has at most 200 words; a text without
    words gives no chunk, whatever the window and the overlap; when the
    overlap is at least the window the step is the window; and a text of 350
    words gives exactly the three chunks of the words from 0, from 160 and
    from 320 on. *)
Theorem chunk_coverage text :
  let words := split text in
  let W := Z.of_nat (length words) in
  ((0 < W)%Z ->
   (Z.abs (Z.of_nat (length (chunk_text text)) - ceil_div (W - 40) 160)
    <= 1)%Z) /\
  Forall (fun c => (length (split c) <= 200)%nat) (chunk_text text) /\
  (words = [] ->
   forall max_words overlap, chunk_text_with text max_words overlap = []) /\
  (forall max_words overlap : Z,
     (max_words <= overlap)%Z -> chunk_step max_words overlap = max_words) /\
  (W = 350%Z ->
   chunk_text text
   = [ join [SPACE] (slice words 0 200);
       join [SPACE] (slice words 160 360);
       join [SPACE] (slice words 320 520) ]).
Proof.
  intros words W. repeat apply conj.
  - intros HW. rewrite chunk_text_windows, windows_length.
    + fold words W. unfold window_count, ceil_div.
      assert (0 <= (W - 0 + 160 - 1) / 160)%Z by (apply Z.div_pos; lia).
      rewrite Z2Nat.id by done.
      Z.div_mod_to_equations. lia.
    + fold words. intros Hnil. unfold W in HW. rewrite Hnil in HW.
      simpl in HW. lia.
  - destruct (split text) as [|w ws] eqn:Hs.
    + unfold chunk_text, chunk_text_with. rewrite Hs. constructor.
    + rewrite chunk_text_windows by by rewrite Hs.
      eapply Forall_impl.
      * apply windows_word_count; [apply split_words|lia|lia|lia].
      * simpl. intros c Hc. lia.
  - intros Hnil max_words overlap. unfold chunk_text_with.
    fold words. by rewrite Hnil.
  - intros max_words overlap Hle. unfold chunk_step.
    destruct (Z.leb_spec (max_words - overlap) 0); [done|lia].
  - intros HW. rewrite chunk_text_windows.
    + fold words W. rewrite HW. done.
    + fold words. intros Hnil. unfold W in HW. rewrite Hnil in HW.
      simpl in HW. lia.
Qed.

(** ** The worked scenario *)

Definition scenario : str :=
  join [LF]
    [ u "CHAPTER 1 SETS"; u "1.1 Intro"; u "Some text."; u "EXERCISE 1.1";
      u "1. What is a set?"; u "(a) A collection"; u "(b) A number";
      u "ANSWERS"; u "1. A collection" ].

Definition scenario_question (cfg : config) : question :=
  {| q_id := base_id U cfg ++ u "_exercise_1_1_q1";
     q_source := u "exercise";
     q_section_title := u "EXERCISE 1.1";
     question_number := u "1";
     stem := join [LF] [u "What is a set?"; u "(a) A collection";
                        u "(b) A number"];
     options := Some [u "A collection"; u "A number"];
     answer := Some (u "A collection");
     answer_source := answer_key;
     difficulty := 1;
     topics := [u "set"];
     q_metadata := config_metadata cfg |}.

(** C3: on the scenario text, with any configuration whose
    [difficulty_levels] is at least 1, the pipeline finds three sections of
    which exactly one is an exercise, and exactly one question: number "1",
    the two options, the answer "A collection" from the answer key,
    difficulty 1 and the topic "set". *)
Theorem scenario_outputs cfg :
  (1 <= difficulty_levels cfg)%Z ->
  let o := main U cfg scenario in
  List.map type (out_sections o) = [section_t; exercise_t; answers_t] /\
  List.map title (out_sections o)
  = [u "1.1 Intro"; u "EXERCISE 1.1"; u "ANSWERS"] /\
  out_questions o = [scenario_question cfg].
Proof.
  intros Hlevels. destruct cfg as [subj cls chap bk levels].
  simpl in Hlevels.
  destruct levels as [|p|p]; [lia| |lia].
  destruct p; repeat split; vm_compute; reflexivity.
Qed.

(** ** Normalisation *)

(** *** trimming *)

Lemma drop_while_suffix p s : exists t, s = t ++ drop_while p s.
Proof.
  induction s as [|c s [t Ht]]; simpl; [by exists []|].
  destruct (p c); [|by exists []].
  exists (c :: t). simpl. by rewrite <- Ht.
Qed.

Lemma drop_while_idem p s : drop_while p (drop_while p s) = drop_while p s.
Proof.
  induction s as [|c s IH]; simpl; [done|].
  destruct (p c) eqn:Hc; [done|]. simpl. by rewrite Hc.
Qed.

Lemma drop_while_app_stop p l c r :
  p c = false -> drop_while p (l ++ c :: r) = drop_while p l ++ c :: r.
Proof.
  intros Hc. induction l as [|d l IH]; simpl; [by rewrite Hc|].
  by destruct (p d).
Qed.

Lemma rstrip_cons p c s :
  p c = false -> rstrip_with p (c :: s) = c :: rstrip_with p s.
Proof.
  intros Hc. unfold rstrip_with. simpl.
  rewrite drop_while_app_stop by done.
  by rewrite rev_app_distr.
Qed.

Lemma rstrip_prefix p s : exists t, s = rstrip_with p s ++ t.
Proof.
  unfold rstrip_with.
  destruct (drop_while_suffix p (rev s)) as [t Ht].
  exists (rev t). rewrite <- rev_app_distr, <- Ht. by rewrite rev_involutive.
Qed.

Lemma rstrip_idem p s : rstrip_with p (rstrip_with p s) = rstrip_with p s.
Proof.
  unfold rstrip_with. by rewrite rev_involutive, drop_while_idem.
Qed.

Lemma strip_with_idem p s : strip_with p (strip_with p s) = strip_with p s.
Proof.
  unfold strip_with, lstrip_with.
  destruct (drop_while p s) as [|c t] eqn:Hd; [done|].
  assert (p c = false) as Hc.
  { pose proof (drop_while_idem p s) as Hi. rewrite Hd in Hi. simpl in Hi.
    destruct (p c) eqn:Hc; [|done].
    apply (f_equal length) in Hi.
    destruct (drop_while_suffix p t) as [t' Ht'].
    apply (f_equal length) in Ht'. rewrite length_app in Ht'.
    simpl in Hi. lia. }
  rewrite rstrip_cons by done. simpl. rewrite Hc.
  rewrite rstrip_cons by done. by rewrite rstrip_idem.
Qed.

(** the trimmed text is a piece of the text *)
Lemma strip_with_infix p s :
  exists l r, s = l ++ strip_with p s ++ r.
Proof.
  unfold strip_with, lstrip_with.
  destruct (drop_while_suffix p s) as [l Hl].
  destruct (rstrip_prefix p (drop_while p s)) as [r Hr].
  exists l, r. by rewrite <- Hr.
Qed.

(** *** the properties each stage establishes *)

Definition no_cr (s : str) : Prop := Forall (fun c => c <> CR) s.

(** no tab, and no two blanks in a row *)
Fixpoint blanks_collapsed (s : str) : bool :=
  match s with
  | [] => true
  | c :: s' =>
    negb (c =? TAB)%N
    && match s' with
       | d :: _ => negb (is_blank c && is_blank d)
       | [] => true
       end
    && blanks_collapsed s'
  end.

(** no three newlines in a row *)
Fixpoint newlines_collapsed (s : str) : bool :=
  match s with
  | [] => true
  | c :: s' =>
    match s' with
    | d :: e :: _ => negb ((c =? LF)%N && (d =? LF)%N && (e =? LF)%N)
    | _ => true
    end
    && newlines_collapsed s'
  end.

(** an occurrence of [\w-\n\w] *)
Fixpoint has_soft_break (s : str) : bool :=
  match s with
  | [] => false
  | a :: s' =>
    match s' with
    | h :: n :: b :: _ =>
      is_word U a && (h =? HYPHEN)%N && (n =? LF)%N && is_word U b
    | _ => false
    end
    || has_soft_break s'
  end.

Lemma replace_crlf_eq c s' :
  replace_crlf (c :: s')
  = match s' with
    | d :: s'' =>
      if (c =? CR)%N && (d =? LF)%N then LF :: replace_crlf s''
      else c :: replace_crlf s'
    | [] => [c]
    end.
Proof. done. Qed.

Lemma replace_crlf_id s : no_cr s -> replace_crlf s = s.
Proof.
  induction 1 as [|c s Hc Hs IH]; [done|].
  rewrite replace_crlf_eq, IH. destruct s as [|d s']; [done|].
  by destruct (N.eqb_spec c CR).
Qed.

Lemma replace_cr_id s : no_cr s -> replace_cr s = s.
Proof.
  induction 1 as [|c s Hc Hs IH]; [done|].
  simpl. destruct (N.eqb_spec c CR); [done|]. f_equal. exact IH.
Qed.

Lemma replace_cr_no_cr s : no_cr (replace_cr s).
Proof.
  induction s as [|c s IH]; simpl; [constructor|].
  apply Forall_cons. split; [|done].
  destruct (N.eqb_spec c CR); [done|done].
Qed.

Lemma dehyphenate_eq a s' :
  dehyphenate U (a :: s')
  = match s' with
    | h :: n :: b :: rest =>
      if is_word U a && (h =? HYPHEN)%N && (n =? LF)%N && is_word U b
      then a :: b :: dehyphenate U rest
      else a :: dehyphenate U s'
    | _ => a :: dehyphenate U s'
    end.
Proof. done. Qed.

Lemma dehyphenate_Forall (P : N -> Prop) s :
  Forall P s -> Forall P (dehyphenate U s).
Proof.
  remember (length s) as n eqn:Hn. revert s Hn.
  induction n as [n IH] using lt_wf_ind. intros s Hn HP.
  destruct s as [|a s']; [constructor|].
  rewrite dehyphenate_eq.
  apply Forall_cons in HP as [Ha Hs'].
  assert (Forall P (a :: dehyphenate U s')) as Hskip.
  { apply Forall_cons. split; [done|].
    eapply IH; [|done|done]. simpl in Hn. lia. }
  destruct s' as [|h [|nl [|b rest]]]; try exact Hskip.
  destruct (_ && _); [|exact Hskip].
  apply Forall_cons in Hs' as [_ Hs']. apply Forall_cons in Hs' as [_ Hs'].
  apply Forall_cons in Hs' as [Hb Hrest].
  apply Forall_cons. split; [done|]. apply Forall_cons. split; [done|].
  eapply IH; [|done|done]. simpl in Hn. lia.
Qed.

Lemma dehyphenate_id s : has_soft_break s = false -> dehyphenate U s = s.
Proof.
  induction s as [|a s' IH]; [done|].
  rewrite dehyphenate_eq. simpl. intros [Hhere Hrest]%orb_false_elim.
  rewrite (IH Hrest).
  destruct s' as [|h [|nl [|b rest]]]; try done.
  by rewrite Hhere.
Qed.

Lemma collapse_runs_Forall (P : N -> Prop) p r s :
  P r -> Forall P s -> Forall P (collapse_runs p r s).
Proof.
  intros Hr. induction 1 as [|c s Hc Hs IH]; [constructor|].
  simpl. destruct (p c).
  - destruct s as [|d s']; [by apply Forall_singleton|].
    destruct (p d); [done|]. by apply Forall_cons.
  - by apply Forall_cons.
Qed.

Lemma collapse_newlines_Forall (P : N -> Prop) s :
  Forall P s -> Forall P (collapse_newlines s).
Proof.
  induction 1 as [|c s Hc Hs IH]; [constructor|].
  simpl. destruct s as [|d [|e s']]; try by apply Forall_cons.
  destruct (_ && _); [done|]. by apply Forall_cons.
Qed.

Lemma strip_Forall (P : N -> Prop) s : Forall P s -> Forall P (strip s).
Proof.
  intros H. destruct (strip_with_infix is_space s) as (l & r & Hs).
  rewrite Hs in H. apply Forall_app in H as [_ H].
  by apply Forall_app in H as [H _].
Qed.

Lemma collapse_runs_eq p r c s' :
  collapse_runs p r (c :: s')
  = if p c then
      match s' with
      | d :: _ =>
        if p d then collapse_runs p r s' else r :: collapse_runs p r s'
      | [] => [r]
      end
    else c :: collapse_runs p r s'.
Proof. done. Qed.

Lemma collapse_newlines_eq c s' :
  collapse_newlines (c :: s')
  = match s' with
    | d :: e :: _ =>
      if (c =? LF)%N && (d =? LF)%N && (e =? LF)%N then collapse_newlines s'
      else c :: collapse_newlines s'
    | _ => c :: collapse_newlines s'
    end.
Proof. done. Qed.

(** [c] and the character after it are not two blanks *)
Definition apart (c : N) (next : option N) : bool :=
  match next with
  | Some d => negb (is_blank c && is_blank d)
  | None => true
  end.

Lemma blanks_collapsed_eq c s' :
  blanks_collapsed (c :: s')
  = negb (c =? TAB)%N && apart c (head s') && blanks_collapsed s'.
Proof. by destruct s'. Qed.

Lemma collapse_blanks_collapsed s : blanks_collapsed (collapse_blanks s) = true.
Proof.
  unfold collapse_blanks. induction s as [|c s IH]; [done|].
  rewrite collapse_runs_eq. destruct (is_blank c) eqn:Hc.
  - destruct s as [|d s']; [done|].
    destruct (is_blank d) eqn:Hd; [exact IH|].
    rewrite blanks_collapsed_eq, IH.
    rewrite collapse_runs_eq, Hd. simpl. by rewrite Hd.
  - rewrite blanks_collapsed_eq, IH.
    unfold apart. rewrite Hc.
    unfold is_blank in Hc. apply orb_false_elim in Hc as [_ ->].
    by destruct (head _).
Qed.

Lemma collapse_blanks_id s :
  blanks_collapsed s = true -> collapse_blanks s = s.
Proof.
  unfold collapse_blanks. induction s as [|c s IH]; [done|].
  rewrite blanks_collapsed_eq, collapse_runs_eq.
  intros [[Htab Hapart]%andb_prop Hs]%andb_prop.
  rewrite (IH Hs). destruct (is_blank c) eqn:Hc; [|done].
  assert (c = SPACE) as ->.
  { unfold is_blank in Hc. apply negb_true_iff in Htab. rewrite Htab in Hc.
    rewrite orb_false_r in Hc. by apply N.eqb_eq. }
  destruct s as [|d s']; [done|].
  simpl in Hapart. apply negb_true_iff in Hapart. by rewrite Hapart.
Qed.

Lemma collapse_newlines_head s : head (collapse_newlines s) = head s.
Proof.
  induction s as [|c s IH]; [done|].
  rewrite collapse_newlines_eq.
  destruct s as [|d [|e s']]; try done.
  destruct (N.eqb_spec c LF) as [->|]; [|done].
  destruct (N.eqb_spec d LF) as [->|]; [|done].
  destruct (e =? LF)%N; [|done]. cbn [andb]. by rewrite IH.
Qed.

Lemma blanks_collapsed_newlines s :
  blanks_collapsed s = true -> blanks_collapsed (collapse_newlines s) = true.
Proof.
  induction s as [|c s IH]; [done|].
  rewrite blanks_collapsed_eq.
  intros [[Htab Hapart]%andb_prop Hs]%andb_prop.
  assert (blanks_collapsed (c :: collapse_newlines s) = true) as Hkeep.
  { rewrite blanks_collapsed_eq, collapse_newlines_head, Htab, Hapart.
    by apply IH. }
  rewrite collapse_newlines_eq.
  destruct s as [|d [|e s']]; try exact Hkeep.
  destruct (_ && _); [by apply IH|exact Hkeep].
Qed.

Lemma blanks_collapsed_app x y :
  blanks_collapsed (x ++ y) = true ->
  blanks_collapsed x = true /\ blanks_collapsed y = true.
Proof.
  induction x as [|c x IH]; [done|].
  change ((c :: x) ++ y) with (c :: x ++ y).
  rewrite !blanks_collapsed_eq.
  intros [[Htab Hapart]%andb_prop Hs]%andb_prop.
  destruct (IH Hs) as [Hx Hy]. split; [|done].
  rewrite Htab, Hx. destruct x; [done|]. simpl in *. by rewrite Hapart.
Qed.

Lemma blanks_collapsed_strip s :
  blanks_collapsed s = true -> blanks_collapsed (strip s) = true.
Proof.
  intros H. destruct (strip_with_infix is_space s) as (l & r & Hs).
  rewrite Hs in H. apply blanks_collapsed_app in H as [_ H].
  by apply blanks_collapsed_app in H as [H _].
Qed.

(** [c] and the two characters after it are not three newlines *)
Definition no_triple (c : N) (s' : str) : bool :=
  match s' with
  | d :: e :: _ => negb ((c =? LF)%N && (d =? LF)%N && (e =? LF)%N)
  | _ => true
  end.

Lemma newlines_collapsed_eq c s' :
  newlines_collapsed (c :: s') = no_triple c s' && newlines_collapsed s'.
Proof. done. Qed.

Lemma collapse_newlines_head2 s t :
  collapse_newlines s = LF :: LF :: t -> exists t', s = LF :: LF :: t'.
Proof.
  revert t. induction s as [|c s IH]; intros t; [done|].
  rewrite collapse_newlines_eq.
  assert (c :: collapse_newlines s = LF :: LF :: t ->
          exists t', c :: s = LF :: LF :: t') as Hkeep.
  { intros [= -> Hs]. pose proof (collapse_newlines_head s) as Hh.
    rewrite Hs in Hh. destruct s as [|d s']; [done|].
    injection Hh as <-. by eexists. }
  destruct s as [|d [|e s']]; try exact Hkeep.
  destruct (N.eqb_spec c LF) as [->|]; [|exact Hkeep].
  destruct (N.eqb_spec d LF) as [->|]; [|exact Hkeep].
  destruct (e =? LF)%N; [|exact Hkeep].
  intros _. by eexists.
Qed.

Lemma collapse_newlines_collapsed s :
  newlines_collapsed (collapse_newlines s) = true.
Proof.
  induction s as [|c s IH]; [done|].
  rewrite collapse_newlines_eq.
  assert (no_triple c s = true ->
          newlines_collapsed (c :: collapse_newlines s) = true) as Hkeep.
  { intros Hc. rewrite newlines_collapsed_eq, IH, andb_true_r.
    destruct (collapse_newlines s) as [|d [|e t]] eqn:Hs; try done.
    simpl.
    destruct (N.eqb_spec c LF) as [->|]; [|done].
    destruct (N.eqb_spec d LF) as [->|]; [|done].
    destruct (N.eqb_spec e LF) as [->|]; [|done].
    apply collapse_newlines_head2 in Hs as [t' ->].
    simpl in Hc. done. }
  destruct s as [|d [|e s']]; try by apply Hkeep.
  destruct (_ && _) eqn:Hdrop; [exact IH|].
  apply Hkeep. simpl. by rewrite Hdrop.
Qed.

Lemma collapse_newlines_id s :
  newlines_collapsed s = true -> collapse_newlines s = s.
Proof.
  induction s as [|c s IH]; [done|].
  rewrite newlines_collapsed_eq, collapse_newlines_eq.
  intros [Hc Hs]%andb_prop. rewrite (IH Hs).
  destruct s as [|d [|e s']]; try done.
  simpl in Hc. apply negb_true_iff in Hc. by rewrite Hc.
Qed.

Lemma newlines_collapsed_app x y :
  newlines_collapsed (x ++ y) = true ->
  newlines_collapsed x = true /\ newlines_collapsed y = true.
Proof.
  induction x as [|c x IH]; [done|].
  change ((c :: x) ++ y) with (c :: x ++ y).
  rewrite !newlines_collapsed_eq.
  intros [Hc Hs]%andb_prop.
  destruct (IH Hs) as [Hx Hy]. split; [|done].
  rewrite Hx, andb_true_r. by destruct x as [|d [|e x']].
Qed.

Lemma newlines_collapsed_strip s :
  newlines_collapsed s = true -> newlines_collapsed (strip s) = true.
Proof.
  intros H. destruct (strip_with_infix is_space s) as (l & r & Hs).
  rewrite Hs in H. apply newlines_collapsed_app in H as [_ H].
  by apply newlines_collapsed_app in H as [H _].
Qed.

(** what [normalize_text] establishes *)
Lemma normalize_text_normal s :
  let n := normalize_text U s in
  no_cr n /\ blanks_collapsed n = true /\ newlines_collapsed n = true /\
  strip n = n.
Proof.
  unfold normalize_text. repeat split.
  - apply strip_Forall, collapse_newlines_Forall.
    apply collapse_runs_Forall; [done|].
    apply dehyphenate_Forall, replace_cr_no_cr.
  - apply blanks_collapsed_strip, blanks_collapsed_newlines.
    apply collapse_blanks_collapsed.
  - apply newlines_collapsed_strip, collapse_newlines_collapsed.
  - apply strip_with_idem.
Qed.

(** C2, as the script has it: normalising a normalised text changes nothing
    when no word-hyphen-newline-word break is left in it.  (The hyphenation
    repair is one pass of non-overlapping matches, so that a break can be
    left over.) *)
Theorem normalize_text_idempotent s :
  has_soft_break (normalize_text U s) = false ->
  normalize_text U (normalize_text U s) = normalize_text U s.
Proof.
  intros Hbreak.
  destruct (normalize_text_normal s) as (Hcr & Hblank & Hnl & Hstrip).
  unfold normalize_text at 1.
  rewrite (replace_crlf_id _ Hcr), (replace_cr_id _ Hcr).
  rewrite (dehyphenate_id _ Hbreak).
  rewrite (collapse_blanks_id _ Hblank).
  rewrite (collapse_newlines_id _ Hnl).
  exact Hstrip.
Qed.

(** *** the condition is needed: a break that is left is repaired *)

Lemma has_soft_break_eq a s' :
  has_soft_break (a :: s')
  = match s' with
    | h :: n :: b :: _ =>
      is_word U a && (h =? HYPHEN)%N && (n =? LF)%N && is_word U b
    | _ => false
    end
    || has_soft_break s'.
Proof. done. Qed.

Lemma dehyphenate_length s :
  (length (dehyphenate U s) + (if has_soft_break s then 1 else 0)
   <= length s)%nat.
Proof.
  remember (length s) as n eqn:Hn. revert s Hn.
  induction n as [n IH] using lt_wf_ind. intros s Hn.
  destruct s as [|a s']; [simpl; lia|].
  rewrite dehyphenate_eq, has_soft_break_eq.
  assert (length (a :: dehyphenate U s')
          + (if has_soft_break s' then 1 else 0) <= n)%nat as Hskip.
  { pose proof (IH (length s') ltac:(simpl in Hn; lia) s' eq_refl).
    simpl in *. lia. }
  destruct s' as [|h [|nl [|b rest]]]; try exact Hskip.
  destruct (_ && _); [|exact Hskip].
  pose proof (IH (length rest) ltac:(simpl in Hn; lia) rest eq_refl).
  simpl in *. destruct (has_soft_break rest); lia.
Qed.

Lemma collapse_runs_length p r s :
  (length (collapse_runs p r s) <= length s)%nat.
Proof.
  induction s as [|c s IH]; [done|].
  rewrite collapse_runs_eq. destruct (p c); [|simpl; lia].
  destruct s as [|d s']; [done|]. destruct (p d); simpl in *; lia.
Qed.

Lemma collapse_newlines_length s :
  (length (collapse_newlines s) <= length s)%nat.
Proof.
  induction s as [|c s IH]; [done|].
  rewrite collapse_newlines_eq.
  destruct s as [|d [|e s']]; try (simpl in *; lia).
  destruct (_ && _); simpl in *; lia.
Qed.

Lemma strip_length s : (length (strip s) <= length s)%nat.
Proof.
  destruct (strip_with_infix is_space s) as (l & r & Hs).
  apply (f_equal length) in Hs. rewrite !length_app in Hs.
  unfold strip. lia.
Qed.

Lemma normalize_text_repairs_break s :
  has_soft_break (normalize_text U s) = true ->
  normalize_text U (normalize_text U s) <> normalize_text U s.
Proof.
  intros Hbreak Heq.
  destruct (normalize_text_normal s) as (Hcr & _).
  apply (f_equal length) in Heq. revert Heq.
  unfold normalize_text at 1.
  rewrite (replace_crlf_id _ Hcr), (replace_cr_id _ Hcr).
  pose proof (dehyphenate_length (normalize_text U s)) as Hd.
  rewrite Hbreak in Hd.
  pose proof (collapse_runs_length is_blank SPACE
                (dehyphenate U (normalize_text U s))) as Hb.
  pose proof (collapse_newlines_length
                (collapse_blanks (dehyphenate U (normalize_text U s)))) as Hn.
  pose proof (strip_length
                (collapse_newlines
                   (collapse_blanks (dehyphenate U (normalize_text U s)))))
    as Hs.
  unfold collapse_blanks in *. lia.
Qed.

(** ** Sections and the text they come from *)

(** the heading a section is printed under: nothing for the text before the
    first heading *)
Definition heading_text (s : section) : str :=
  if decide (title s = u "front_matter") then [] else title s.

(** the sections one after the other, each heading followed by its text *)
Definition reassemble (sections : list section) : str :=
  concat ((fun s => heading_text s ++ text s) <$> sections).

(** the same with every heading and every text on lines of their own *)
Definition reassemble_lines (sections : list section) : str :=
  join [LF]
    (flat_map (fun s =>
                 (if decide (title s = u "front_matter") then []
                  else [title s]) ++ [text s])
              sections).

(** The lines of a text in groups: the lines before the first heading line,
    and every heading line with the lines under it, up to the next heading
    line. *)
Fixpoint line_groups (lines : list str)
  : list str * list (str * list str) :=
  match lines with
  | [] => ([], [])
  | l :: ls =>
    let (front, headed) := line_groups ls in
    if is_heading U l then ([], (l, front) :: headed)
    else (l :: front, headed)
  end.

(** the lines of the groups, one group after the other *)
Definition group_lines (g : list str * list (str * list str)) : list str :=
  g.1 ++ flat_map (fun hb => hb.1 :: hb.2) g.2.

(** what a title and the lines under it give: no section when there is no
    line, else one section, whose text is the lines joined by newlines and
    trimmed at both ends *)
Definition section_of (t : str) (lines : list str) : list section :=
  match lines with
  | [] => []
  | _ :: _ =>
    [ {| title := t; type := classify_section U t;
         text := strip (join [LF] lines) |} ]
  end.

(** the sections of the groups: the title of a group is its heading line
    trimmed, and ["front_matter"] for the lines before the first heading *)
Definition group_sections (g : list str * list (str * list str))
  : list section :=
  section_of (u "front_matter") g.1
  ++ flat_map (fun hb => section_of (strip hb.1) hb.2) g.2.

Lemma splitlines_eq c s' :
  splitlines (c :: s')
  = if is_linebreak c then
      [] :: match s' with
            | d :: s'' =>
              if (c =? CR)%N && (d =? LF)%N then splitlines s''
              else splitlines s'
            | [] => []
            end
    else
      match splitlines s' with
      | [] => [[c]]
      | l :: ls => (c :: l) :: ls
      end.
Proof. done. Qed.

Lemma is_heading_not_front_matter line :
  is_heading U line = true -> strip line <> u "front_matter".
Proof.
  intros H Heq. unfold is_heading in H. rewrite Heq in H.
  vm_compute in H. discriminate.
Qed.

(** *** the groups are the lines *)

Lemma line_groups_cons l ls :
  line_groups (l :: ls)
  = if is_heading U l
    then ([], (l, (line_groups ls).1) :: (line_groups ls).2)
    else (l :: (line_groups ls).1, (line_groups ls).2).
Proof. simpl. by destruct (line_groups ls). Qed.

Lemma line_groups_lines lines : group_lines (line_groups lines) = lines.
Proof.
  unfold group_lines. induction lines as [|l ls IH]; [done|].
  rewrite line_groups_cons. destruct (is_heading U l); simpl.
  - by rewrite IH.
  - by rewrite IH.
Qed.

Lemma line_groups_front lines :
  Forall (fun l => is_heading U l = false) (line_groups lines).1.
Proof.
  induction lines as [|l ls IH]; [constructor|].
  rewrite line_groups_cons. destruct (is_heading U l) eqn:Hl; simpl.
  - constructor.
  - by constructor.
Qed.

Lemma line_groups_headed lines :
  Forall (fun hb => is_heading U hb.1 = true /\
                    Forall (fun l => is_heading U l = false) hb.2)
         (line_groups lines).2.
Proof.
  induction lines as [|l ls IH]; [constructor|].
  rewrite line_groups_cons. destruct (is_heading U l) eqn:Hl; simpl.
  - constructor; [|done]. split; [done|]. apply line_groups_front.
  - done.
Qed.

(** *** the sections are those of the groups *)

Lemma flush_section_of sections t current :
  flush U sections t current = sections ++ section_of t current.
Proof. destruct current; simpl; [by rewrite app_nil_r|done]. Qed.

Lemma split_loop_groups lines sections t current :
  split_loop U lines sections t current
  = sections
    ++ section_of t (current ++ (line_groups lines).1)
    ++ flat_map (fun hb => section_of (strip hb.1) hb.2)
         (line_groups lines).2.
Proof.
  revert sections t current.
  induction lines as [|l ls IH]; intros sections t current.
  - simpl. by rewrite flush_section_of, !app_nil_r.
  - rewrite line_groups_cons. simpl. destruct (is_heading U l); simpl.
    + rewrite IH, flush_section_of, app_nil_r. by rewrite <- !app_assoc.
    + rewrite IH. by rewrite <- app_assoc.
Qed.

(** *** the lines are the text *)

Lemma splitlines_nil s : splitlines s = [] -> s = [].
Proof.
  destruct s as [|c s]; [done|]. rewrite splitlines_eq.
  destruct (is_linebreak c); [done|]. by destruct (splitlines s).
Qed.

Lemma join_cons_line (c : N) l ls :
  join [LF] ((c :: l) :: ls) = c :: join [LF] (l :: ls).
Proof. by destruct ls. Qed.

Lemma join_lines txt :
  Forall (fun c => is_linebreak c = true -> c = LF) txt ->
  last txt <> Some LF ->
  join [LF] (splitlines txt) = txt.
Proof.
  induction txt as [|c s IH]; [done|].
  intros [Hc Hs]%Forall_cons Hlast. rewrite splitlines_eq.
  assert (s <> [] -> join [LF] (splitlines s) = s) as IH'.
  { intros Hne. apply IH; [done|]. by destruct s. }
  destruct (is_linebreak c) eqn:Hbreak.
  - rewrite (Hc eq_refl) in *. destruct s as [|d s']; [done|].
    change (LF =? CR)%N with false. cbn [andb].
    destruct (splitlines (d :: s')) as [|l ls] eqn:Hlines.
    { by apply splitlines_nil in Hlines. }
    change (join [LF] ([] :: l :: ls)) with (LF :: join [LF] (l :: ls)).
    by rewrite IH'.
  - destruct (splitlines s) as [|l ls] eqn:Hlines.
    + by rewrite (splitlines_nil s Hlines).
    + rewrite join_cons_line. f_equal. apply IH'.
      intros ->. discriminate.
Qed.

(** *** where trimming removes nothing, the sections give the text back *)

Lemma join_app_lines (a b : list str) :
  a <> [] -> b <> [] ->
  join [LF] (a ++ b) = join [LF] a ++ LF :: join [LF] b.
Proof.
  intros Ha Hb. induction a as [|l a IH]; [done|].
  destruct a as [|l' a'].
  - destruct b; [done|]. done.
  - change (join [LF] ((l :: l' :: a') ++ b))
      with (l ++ LF :: join [LF] ((l' :: a') ++ b)).
    rewrite IH; [|done].
    change (join [LF] (l :: l' :: a')) with (l ++ LF :: join [LF] (l' :: a')).
    by rewrite <- app_assoc.
Qed.

Lemma join_join (groups : list (list str)) :
  Forall (fun g => g <> []) groups ->
  join [LF] (join [LF] <$> groups) = join [LF] (concat groups).
Proof.
  induction 1 as [|g groups Hg Hgroups IH]; [done|].
  destruct groups as [|g' groups'].
  - simpl. by rewrite app_nil_r.
  - change (join [LF] (join [LF] <$> g :: g' :: groups'))
      with (join [LF] g ++ LF :: join [LF] (join [LF] <$> g' :: groups')).
    rewrite IH. change (concat (g :: g' :: groups'))
      with (g ++ concat (g' :: groups')).
    rewrite join_app_lines; [done|done|].
    apply Forall_cons in Hgroups as [Hg' _]. simpl.
    by destruct g'.
Qed.

(** the lines of a section as it is printed, when nothing is trimmed *)
Lemma headed_printed headed :
  Forall (fun hb : str * list str =>
            is_heading U hb.1 = true /\ hb.2 <> [] /\ strip hb.1 = hb.1 /\
            strip (join [LF] hb.2) = join [LF] hb.2) headed ->
  flat_map (fun s => (if decide (title s = u "front_matter") then []
                      else [title s]) ++ [text s])
           (flat_map (fun hb => section_of (strip hb.1) hb.2) headed)
  = join [LF] <$> flat_map (fun hb => [[hb.1]; hb.2]) headed.
Proof.
  induction 1 as [|[h b] headed (Hh & Hb & Hstrip & Hbody) _ IH]; [done|].
  cbn [fst snd] in *. destruct b as [|l b']; [done|].
  apply is_heading_not_front_matter in Hh. rewrite Hstrip in Hh.
  change (flat_map ?f ((h, l :: b') :: headed))
    with (f (h, l :: b') ++ flat_map f headed).
  rewrite flat_map_app, fmap_app, IH. f_equal.
  cbn [fst snd section_of flat_map title text app].
  rewrite Hstrip, Hbody.
  by destruct (decide (h = u "front_matter")).
Qed.

Lemma headed_lines (headed : list (str * list str)) :
  concat (flat_map (fun hb => [[hb.1]; hb.2]) headed)
  = flat_map (fun hb => hb.1 :: hb.2) headed.
Proof.
  induction headed as [|[h b] headed IH]; [done|].
  simpl. by rewrite IH.
Qed.

Lemma group_sections_printed g :
  Forall (fun hb : str * list str =>
            is_heading U hb.1 = true /\ hb.2 <> [] /\ strip hb.1 = hb.1 /\
            strip (join [LF] hb.2) = join [LF] hb.2) g.2 ->
  strip (join [LF] g.1) = join [LF] g.1 ->
  reassemble_lines (group_sections g) = join [LF] (group_lines g).
Proof.
  intros Hheaded Hfront. unfold reassemble_lines, group_sections, group_lines.
  rewrite flat_map_app, (headed_printed _ Hheaded), <- headed_lines.
  assert (Forall (fun l : list str => l <> [])
            (flat_map (fun hb : str * list str => [[hb.1]; hb.2]) g.2))
    as Hne.
  { clear Hfront. induction Hheaded as [|[h b] headed (_ & Hb & _) _ IH];
      [constructor|].
    simpl. by repeat constructor. }
  destruct g.1 as [|l front].
  - simpl. by apply join_join.
  - cbn [section_of flat_map title text app].
    destruct (decide (u "front_matter" = u "front_matter")); [|done].
    rewrite Hfront.
    apply (join_join ((l :: front) :: flat_map _ g.2)).
    by constructor.
Qed.

(** C1, as the script has it.  The lines of the text fall, in order and with
    none left out or used twice, into the lines before the first heading
    line and, for every heading line, that line with the lines under it up
    to the next heading line.  The sections are, in order, those of the
    groups that have a line under the heading: the title is the heading line
    trimmed (["front_matter"] for the first group), the text is the lines
    under it joined by newlines and trimmed, the text inside kept as it is;
    a heading with no line under it gives no section.  When ["\n"] is the
    only line boundary of the text and the text does not end in one, the
    lines of the groups joined by newlines are the text; when moreover
    every heading has a line under it and trimming removes nothing from a
    heading line or from the joined lines of a group, the titles (none for
    ["front_matter"]) and texts of the sections, joined by newlines, are the
    text. *)
Theorem sections_cover_text txt :
  let g := line_groups (splitlines txt) in
  group_lines g = splitlines txt /\
  Forall (fun l => is_heading U l = false) g.1 /\
  Forall (fun hb => is_heading U hb.1 = true /\
                    Forall (fun l => is_heading U l = false) hb.2) g.2 /\
  split_sections U txt = group_sections g /\
  (Forall (fun c => is_linebreak c = true -> c = LF) txt ->
   last txt <> Some LF ->
   join [LF] (group_lines g) = txt /\
   (Forall (fun hb => hb.2 <> [] /\ strip hb.1 = hb.1 /\
                      strip (join [LF] hb.2) = join [LF] hb.2) g.2 ->
    strip (join [LF] g.1) = join [LF] g.1 ->
    reassemble_lines (split_sections U txt) = txt)).
Proof.
  intros g.
  assert (split_sections U txt = group_sections g) as Hsections.
  { unfold split_sections. by rewrite split_loop_groups. }
  split; [apply line_groups_lines|].
  split; [apply line_groups_front|].
  split; [apply line_groups_headed|].
  split; [done|].
  intros Hbreaks Hlast.
  assert (join [LF] (group_lines g) = txt) as Htext.
  { unfold g. rewrite line_groups_lines. by apply join_lines. }
  split; [done|]. intros Hheaded Hfront.
  rewrite Hsections, group_sections_printed; [done| |done].
  pose proof (line_groups_headed (splitlines txt)) as Hh. fold g in Hh.
  clear Hsections Htext Hfront. induction Hheaded as [|hb headed H _ IH].
  - constructor.
  - apply Forall_cons in Hh as [[Hhb _] Hh'].
    constructor; [|by apply IH]. by destruct H as (? & ? & ?).
Qed.

End Properties.

(** * Concrete runs

    The runs below are on ASCII text, where the Unicode tables are not
    consulted; they are stated with [ascii_tables]. *)

Definition sample_config : config :=
  {| subject := u "Mathematics"; class_ := u "11"; chapter := u "1";
     book := u "NCERT"; difficulty_levels := 5 |}.


(** ** Sections *)

(** a heading directly under a heading *)
Definition bare_heading_text : str :=
  join [LF] [u "SUMMARY"; u "ANSWERS"; u "x"].

Definition answers_only_text : str := join [LF] [u "ANSWERS"; u "x"].

(** a paragraph break before a heading *)
Definition paragraph_text : str := join [LF] [u "a"; u ""; u "SUMMARY"; u "b"].

(** C1 fails as stated: two different normalised texts have the same
    sections, the heading [SUMMARY] of the first being dropped, so that the
    sections give back neither; and where no heading is dropped the line
    breaks between the pieces are lost, and with them, even when every
    piece is put on lines of its own, the blank line that trimming removes
    from the end of a section. *)
Lemma sections_do_not_partition :
  normalize_text ascii_tables bare_heading_text = bare_heading_text /\
  normalize_text ascii_tables answers_only_text = answers_only_text /\
  bare_heading_text <> answers_only_text /\
  split_sections ascii_tables bare_heading_text
  = split_sections ascii_tables answers_only_text /\
  reassemble (split_sections ascii_tables bare_heading_text) = u "ANSWERSx" /\
  reassemble (split_sections ascii_tables bare_heading_text)
  <> bare_heading_text /\
  normalize_text ascii_tables paragraph_text = paragraph_text /\
  reassemble (split_sections ascii_tables paragraph_text) = u "aSUMMARYb" /\
  reassemble (split_sections ascii_tables paragraph_text) <> paragraph_text /\
  reassemble_lines (split_sections ascii_tables paragraph_text)
  = join [LF] [u "a"; u "SUMMARY"; u "b"] /\
  reassemble_lines (split_sections ascii_tables paragraph_text)
  <> paragraph_text.
Proof. repeat split; vm_compute; (reflexivity || discriminate). Qed.

(** a text whose headings and sections have whitespace to trim *)
Definition covered_text : str :=
  join [LF] [u "Sets are  collections."; u ""; u " SUMMARY "; u "  key points";
             u "ANSWERS"; u "1. x"].

(** a text where trimming finds nothing to remove *)
Definition exact_text : str :=
  join [LF] [u "Sets are collections."; u ""; u "A set has elements.";
             u "SUMMARY"; u "key points"; u "ANSWERS"; u "1. x"; u "2. y"].

Lemma sections_cover_text_witness :
  line_groups ascii_tables (splitlines covered_text)
  = ([u "Sets are  collections."; u ""],
     [(u " SUMMARY ", [u "  key points"]); (u "ANSWERS", [u "1. x"])]) /\
  split_sections ascii_tables covered_text
  = [ {| title := u "front_matter"; type := section_t;
         text := u "Sets are  collections." |};
      {| title := u "SUMMARY"; type := summary_t; text := u "key points" |};
      {| title := u "ANSWERS"; type := answers_t; text := u "1. x" |} ] /\
  join [LF]
    (group_lines (line_groups ascii_tables (splitlines covered_text)))
  = covered_text /\
  reassemble_lines (split_sections ascii_tables covered_text) <> covered_text /\
  normalize_text ascii_tables exact_text = exact_text /\
  reassemble_lines (split_sections ascii_tables exact_text) = exact_text.
Proof.
  pose proof (sections_cover_text ascii_tables covered_text) as Hcovered.
  pose proof (sections_cover_text ascii_tables exact_text) as Hexact.
  cbv zeta in Hcovered, Hexact.
  destruct Hcovered as (_ & _ & _ & Hsections & Htext).
  destruct Hexact as (_ & _ & _ & _ & Hback).
  split; [vm_compute; reflexivity|].
  split; [rewrite Hsections; vm_compute; reflexivity|].
  split.
  { apply Htext.
    - apply (bool_decide_unpack _). vm_compute. exact I.
    - vm_compute. discriminate. }
  split; [vm_compute; discriminate|].
  split; [vm_compute; reflexivity|].
  apply Hback.
  - apply (bool_decide_unpack _). vm_compute. exact I.
  - vm_compute. discriminate.
  - apply (bool_decide_unpack _). vm_compute. exact I.
  - vm_compute. reflexivity.
Defined.

(** ** Normalisation *)

(** two line-end hyphens around a single letter *)
Definition double_break_text : str := join [LF] [u "a-"; u "b-"; u "c"].

(** C2 fails as stated: the first normalisation repairs the first break
    only, the second repairs the break that was left. *)
Lemma normalize_text_not_idempotent :
  normalize_text ascii_tables double_break_text = join [LF] [u "ab-"; u "c"] /\
  normalize_text ascii_tables (normalize_text ascii_tables double_break_text)
  = u "abc" /\
  normalize_text ascii_tables (normalize_text ascii_tables double_break_text)
  <> normalize_text ascii_tables double_break_text.
Proof. repeat split; vm_compute; (reflexivity || discriminate). Qed.

Definition untidy_text : str :=
  u "  exam-" ++ [LF] ++ u "ple  text" ++ [TAB; TAB; CR; LF; CR; LF; LF; CR]
    ++ u "next  paragraph " ++ [LF].

Lemma normalize_text_idempotent_witness :
  has_soft_break ascii_tables (normalize_text ascii_tables untidy_text)
  = false /\
  normalize_text ascii_tables (normalize_text ascii_tables untidy_text)
  = normalize_text ascii_tables untidy_text.
Proof.
  split; [vm_compute; reflexivity|].
  apply (normalize_text_idempotent ascii_tables untidy_text).
  vm_compute. reflexivity.
Defined.

(** ** The scenario *)

Lemma scenario_outputs_witness :
  (1 <= difficulty_levels sample_config)%Z /\
  out_questions (main ascii_tables sample_config scenario)
  = [scenario_question ascii_tables sample_config].
Proof.
  assert (1 <= difficulty_levels sample_config)%Z as H by (simpl; lia).
  split; [exact H|].
  exact (proj2 (proj2 (scenario_outputs ascii_tables sample_config H))).
Defined.

(** ** Difficulty *)



(** ** Question numbers *)

(** questions numbered 7 and 3, in this order *)
Definition numbered_text : str :=
  join [LF] [u "EXERCISE 1.1"; u "7. First"; u "Q3 Second"].

Lemma question_number_is_parsed_witness :
  let sections := split_sections ascii_tables numbered_text in
  let questions := build_questions ascii_tables sections ∅ sample_config in
  document_questions ascii_tables sections
  = [ {| number := Some (u "7"); ptext := u "First" |};
      {| number := Some (u "3"); ptext := u "Second" |} ] /\
  Forall2 (fun q pq => number pq = Some (question_number q) /\
                       numeral ascii_tables (question_number q))
          questions (document_questions ascii_tables sections) /\
  question_number <$> questions = [u "7"; u "3"].
Proof.
  intros sections questions.
  split; [vm_compute; reflexivity|].
  split; [|vm_compute; reflexivity].
  exact (proj2 (question_number_is_parsed ascii_tables
                  (make_section ascii_tables (u "EXERCISE 1.1") [])
                  sections ∅ sample_config)).
Defined.

(** ** A blank answer *)

(** the answer line [1. ] ends in a space *)
Definition blank_answer_text : str :=
  join [LF] [u "EXERCISE 1.1"; u "1. What is a set?"; u "2. What is a map?";
             u "ANSWERS"; u "1. "; u "2. B"].

(** the answer line [1. ] ends in a space; a second line gives question 1
    the answer [A] *)
Definition overwritten_answer_text : str :=
  join [LF] [u "EXERCISE 1.1"; u "1. What is a set?";
             u "ANSWERS"; u "1. "; u "1. A"].

(** C10 fails as stated: the line [1. ] of the answers section matches the
    answer pattern with a rest-of-line of whitespace only and stores the
    empty string under [1], but the next line overwrites the entry, and
    question 1 gets the answer [A] with the source ["answer_key"]. *)
Lemma whitespace_answer_overwritten :
  let o := main ascii_tables sample_config overwritten_answer_text in
  List.map (fun s => (title s, type s, splitlines (text s))) (out_sections o)
  = [ (u "EXERCISE 1.1", exercise_t, [u "1. What is a set?"]);
      (u "ANSWERS", answers_t, [u "1. "; u "1. A"]) ] /\
  re_match (re_answer_line ascii_tables) (u "1. ") = Some (u "1", u " ") /\
  forallb is_space (u " ") = true /\
  answer_line ascii_tables ∅ (u "1. ") = <[u "1" := []]> ∅ /\
  parse_answer_key ascii_tables (out_sections o) !! u "1" = Some (u "A") /\
  List.map (fun q => (question_number q, answer q, answer_source q))
           (out_questions o)
  = [ (u "1", Some (u "A"), answer_key) ] /\
  ~ Forall (fun q => question_number q = u "1" ->
                     answer q = None /\ answer_source q = missing)
           (out_questions o).
Proof.
  intros o.
  assert (List.map (fun q => (question_number q, answer q, answer_source q))
                   (out_questions o)
          = [ (u "1", Some (u "A"), answer_key) ]) as Hq
    by (vm_compute; reflexivity).
  split; [vm_compute; reflexivity|].
  split; [vm_compute; reflexivity|].
  split; [reflexivity|].
  split; [vm_compute; reflexivity|].
  split; [vm_compute; reflexivity|].
  split; [exact Hq|].
  intros Hall. destruct (out_questions o) as [|q [|q' qs]]; try discriminate.
  injection Hq as Hnum Hans _.
  apply Forall_cons in Hall as [H _]. destruct (H Hnum) as [Hnone _].
  rewrite Hnone in Hans. discriminate.
Qed.

Lemma whitespace_answer_is_missing_witness :
  let o := main ascii_tables sample_config blank_answer_text in
  forallb is_space (u " ") = true /\
  re_match (re_answer_line ascii_tables) (u "1. ") = Some (u "1", u " ") /\
  answer_line ascii_tables ∅ (u "1. ") = <[u "1" := []]> ∅ /\
  last_entry (u "1") (answer_entries ascii_tables (out_sections o))
  = Some (u " ") /\
  parse_answer_key ascii_tables (out_sections o) !! u "1" = Some [] /\
  List.map (fun q => (question_number q, answer q, answer_source q))
           (out_questions o)
  = [ (u "1", None, missing); (u "2", Some (u "B"), answer_key) ] /\
  answers_found (out_report o) = 2%nat /\
  let o' := main ascii_tables sample_config overwritten_answer_text in
  last_entry (u "1") (answer_entries ascii_tables (out_sections o'))
  = Some (u "A") /\
  Forall (fun q => question_number q = u "1" ->
                   answer q = Some (to_ascii (strip (u "A"))) /\
                   answer_source q = answer_key)
         (out_questions o').
Proof.
  intros o.
  assert (forallb is_space (u " ") = true) as Hrest by reflexivity.
  assert (re_match (re_answer_line ascii_tables) (u "1. ")
          = Some (u "1", u " ")) as Hline by (vm_compute; reflexivity).
  assert (last_entry (u "1") (answer_entries ascii_tables (out_sections o))
          = Some (u " ")) as Hlast by (vm_compute; reflexivity).
  assert (last_entry (u "1")
            (answer_entries ascii_tables
               (out_sections
                  (main ascii_tables sample_config overwritten_answer_text)))
          = Some (u "A")) as Hlater by (vm_compute; reflexivity).
  destruct (whitespace_answer_is_missing ascii_tables (u "1") (u " ") Hrest)
    as (Hstore & Hrun & Hvisible).
  split; [exact Hrest|]. split; [exact Hline|].
  split; [exact (Hstore ∅ (u "1. ") Hline)|].
  split; [exact Hlast|].
  split; [exact (proj1 (Hrun sample_config blank_answer_text Hlast))|].
  split; [vm_compute; reflexivity|].
  split; [vm_compute; reflexivity|].
  split; [exact Hlater|].
  exact (Hvisible sample_config overwritten_answer_text (u "A") Hlater
           eq_refl).
Defined.

(** ** 350 words *)

Definition words_350 : str := concat (replicate 350 (u "w ")).

Lemma chunk_coverage_witness :
  length (split words_350) = 350%nat /\
  List.map (fun c => length (split c)) (chunk_text words_350)
  = [200; 190; 30]%nat.
Proof.
  assert (Z.of_nat (length (split words_350)) = 350%Z) as H
    by (vm_compute; reflexivity).
  split; [vm_compute; reflexivity|].
  destruct (chunk_coverage words_350) as (_ & _ & _ & _ & H350).
  rewrite (H350 H). vm_compute. reflexivity.
Defined.

(** * Further properties of the script *)

(** ** extract_text, from the pages of the reader on

    What [page.extract_text()] does for one page: it returns a string or
    [None], or it raises. *)
Inductive page :=
  | page_returns (t : option str)
  | page_raises.

(** [text = page.extract_text() or ""], and [text = ""] on an exception *)
Definition page_text (p : page) : str :=
  match p with
  | page_returns (Some t) => t
  | page_returns None => []
  | page_raises => []
  end.

(** [extract_text]: [pypdf] is [None] when the import fails, and holds the
    pages of the reader otherwise; the result is the [RuntimeError] of the
    missing dependency or the pages joined by a blank line. *)
Inductive extracted :=
  | missing_dependency
  | extracted_text (t : str).

Definition extract_text (pypdf : option (list page)) : extracted :=
  match pypdf with
  | None => missing_dependency
  | Some pages => extracted_text (join [LF; LF] (page_text <$> pages))
  end.

(** the number of characters a predicate holds of *)
Definition count_if (q : N -> bool) (s : str) : nat :=
  length (List.filter q s).

(** a question start: what the two patterns of
    [parse_questions_from_section] give for a line, the first pattern
    first *)
Definition question_start (U : unicode_tables) (line : str)
  : option (str * str) :=
  match re_match (re_question U) line, re_match (re_question_alt U) line with
  | Some m, _ => Some m
  | None, Some m => Some m
  | None, None => None
  end.

(** the characters of a slug *)
Definition slug_char (c : N) : bool :=
  ascii_lower_letter c || ascii_digit c || (c =? UNDERSCORE)%N.

Section Further.
Variable U : unicode_tables.

(** ** to_ascii and count_non_ascii *)

Lemma to_ascii_is_ascii s : forallb is_ascii (to_ascii s) = true.
Proof.
  induction s as [|c s IH]; simpl; [done|].
  destruct (is_ascii c) eqn:Hc; simpl; [by rewrite Hc|done].
Qed.

Lemma to_ascii_id s : forallb is_ascii s = true -> to_ascii s = s.
Proof.
  induction s as [|c s IH]; simpl; [done|].
  intros [Hc Hs]%andb_prop. by rewrite Hc, IH.
Qed.

Lemma to_ascii_length s :
  (length (to_ascii s) + count_non_ascii s = length s)%nat.
Proof.
  unfold to_ascii, count_non_ascii, is_ascii.
  induction s as [|c s IH]; simpl; [done|].
  destruct (N.ltb_spec c 128), (N.ltb_spec 127 c); simpl; lia.
Qed.

(** X1: [to_ascii] keeps exactly the characters below 128, in order: its
    result is ASCII, applying it again changes nothing, the characters it
    drops are the ones [count_non_ascii] counts, and it changes nothing
    exactly when [count_non_ascii] is 0. *)
Theorem to_ascii_accounts s :
  forallb is_ascii (to_ascii s) = true /\
  to_ascii (to_ascii s) = to_ascii s /\
  (length (to_ascii s) + count_non_ascii s = length s)%nat /\
  (count_non_ascii s = 0%nat <-> to_ascii s = s).
Proof.
  split; [apply to_ascii_is_ascii|].
  split; [apply to_ascii_id, to_ascii_is_ascii|].
  split; [apply to_ascii_length|].
  pose proof (to_ascii_length s) as Hlen. split.
  - intros Hz. apply to_ascii_id.
    unfold count_non_ascii in Hz. clear Hlen.
    induction s as [|c s IH]; simpl in *; [done|].
    unfold is_ascii at 1.
    destruct (N.ltb_spec 127 c); simpl in Hz; [done|].
    destruct (N.ltb_spec c 128); [|lia]. by apply IH.
  - intros Heq. rewrite Heq in Hlen. lia.
Qed.

(** ** The shape of normalised text *)

Lemma contains_cons needle c s :
  contains needle (c :: s) = starts_with needle (c :: s) || contains needle s.
Proof. done. Qed.

Lemma blanks_collapsed_no_tab s :
  blanks_collapsed s = true -> TAB ∉ s.
Proof.
  induction s as [|c s IH]; [intros _; apply not_elem_of_nil|].
  rewrite blanks_collapsed_eq.
  intros [[Htab _]%andb_prop Hs]%andb_prop.
  apply not_elem_of_cons. split; [|by apply IH].
  apply negb_true_iff, N.eqb_neq in Htab. congruence.
Qed.

Lemma starts_with_cons a p b s :
  starts_with (a :: p) (b :: s) = (a =? b)%N && starts_with p s.
Proof. done. Qed.

Lemma blanks_collapsed_no_pair s :
  blanks_collapsed s = true -> contains [SPACE; SPACE] s = false.
Proof.
  induction s as [|c s IH]; [done|].
  rewrite blanks_collapsed_eq, contains_cons.
  intros [[_ Hapart]%andb_prop Hs]%andb_prop.
  rewrite (IH Hs), orb_false_r, starts_with_cons.
  destruct (N.eqb_spec SPACE c) as [<-|]; [|done].
  destruct s as [|d s']; [done|]. rewrite starts_with_cons.
  destruct (N.eqb_spec SPACE d) as [<-|]; [|done].
  done.
Qed.

Lemma newlines_collapsed_no_triple s :
  newlines_collapsed s = true -> contains [LF; LF; LF] s = false.
Proof.
  induction s as [|c s IH]; [done|].
  rewrite newlines_collapsed_eq, contains_cons.
  intros [Hc Hs]%andb_prop.
  rewrite (IH Hs), orb_false_r, starts_with_cons.
  destruct (N.eqb_spec LF c) as [<-|]; [|done].
  destruct s as [|d s']; [done|]. rewrite starts_with_cons.
  destruct (N.eqb_spec LF d) as [<-|]; [|done].
  destruct s' as [|e s'']; [done|]. rewrite starts_with_cons.
  destruct (N.eqb_spec LF e) as [<-|]; [|done].
  done.
Qed.

(** X2: whatever the input, the text [normalize_text] returns has no
    carriage return and no tab, no two spaces in a row, no three newlines in
    a row, and no whitespace at either end. *)
Theorem normalize_text_normal_form s :
  let n := normalize_text U s in
  (CR ∉ n) /\ (TAB ∉ n) /\
  contains [SPACE; SPACE] n = false /\
  contains [LF; LF; LF] n = false /\
  strip n = n.
Proof.
  destruct (normalize_text_normal U s) as (Hcr & Hblank & Hnl & Hstrip).
  simpl. repeat split.
  - intros Hin. unfold no_cr in Hcr. rewrite Forall_forall in Hcr.
    by apply (Hcr CR).
  - by apply blanks_collapsed_no_tab.
  - by apply blanks_collapsed_no_pair.
  - by apply newlines_collapsed_no_triple.
  - done.
Qed.

(** ** normalize_text adds nothing *)

Lemma forallb_Forall (p : N -> bool) s :
  forallb p s = true <-> Forall (fun c => p c = true) s.
Proof.
  induction s as [|c s IH]; simpl.
  - split; [constructor|done].
  - rewrite andb_true_iff, Forall_cons. by rewrite IH.
Qed.

Lemma replace_crlf_Forall (P : N -> Prop) s :
  Forall P s -> Forall P (replace_crlf s).
Proof.
  remember (length s) as n eqn:Hn. revert s Hn.
  induction n as [n IH] using lt_wf_ind. intros s Hn HP.
  destruct s as [|c s']; [constructor|].
  rewrite replace_crlf_eq.
  apply Forall_cons in HP as [Hc Hs'].
  destruct s' as [|d s'']; [by apply Forall_singleton|].
  destruct (_ && _) eqn:Hcrlf.
  - apply andb_prop in Hcrlf as [_ Hd%N.eqb_eq]. subst d.
    apply Forall_cons in Hs' as [Hd Hs''].
    apply Forall_cons. split; [done|].
    eapply IH; [|done|done]. simpl in Hn. lia.
  - apply Forall_cons. split; [done|].
    eapply IH; [|done|done]. simpl in *. lia.
Qed.

Lemma replace_cr_Forall (P : N -> Prop) s :
  P LF -> Forall P s -> Forall P (replace_cr s).
Proof.
  intros HLF. induction 1 as [|c s Hc Hs IH]; [constructor|].
  simpl. apply Forall_cons. split; [|done]. by destruct (c =? CR)%N.
Qed.

(** every stage keeps what holds of all characters, of [LF] and of a
    space *)
Lemma normalize_text_Forall (P : N -> Prop) s :
  P LF -> P SPACE -> Forall P s -> Forall P (normalize_text U s).
Proof.
  intros HLF HSP Hs. unfold normalize_text.
  apply strip_Forall, collapse_newlines_Forall.
  apply collapse_runs_Forall; [done|].
  apply dehyphenate_Forall, replace_cr_Forall; [done|].
  by apply replace_crlf_Forall.
Qed.

Lemma count_if_cons q c s :
  count_if q (c :: s) = ((if q c then 1 else 0) + count_if q s)%nat.
Proof. unfold count_if. simpl. by destruct (q c). Qed.

Lemma count_if_app q s t :
  count_if q (s ++ t) = (count_if q s + count_if q t)%nat.
Proof. unfold count_if. by rewrite List.filter_app, length_app. Qed.

Lemma replace_crlf_count q s :
  (count_if q (replace_crlf s) <= count_if q s)%nat.
Proof.
  remember (length s) as n eqn:Hn. revert s Hn.
  induction n as [n IH] using lt_wf_ind. intros s Hn.
  destruct s as [|c s']; [done|].
  rewrite replace_crlf_eq.
  destruct s' as [|d s'']; [done|].
  destruct (_ && _) eqn:Hcrlf.
  - apply andb_prop in Hcrlf as [_ Hd%N.eqb_eq]. subst d.
    pose proof (IH (length s'') ltac:(simpl in Hn; lia) s'' eq_refl).
    rewrite !count_if_cons. lia.
  - pose proof (IH (length (d :: s'')) ltac:(simpl in *; lia) _ eq_refl).
    rewrite (count_if_cons q c), (count_if_cons q c (d :: s'')). lia.
Qed.

Lemma replace_cr_count q s :
  q LF = false -> (count_if q (replace_cr s) <= count_if q s)%nat.
Proof.
  intros HLF. induction s as [|c s IH]; [done|].
  change (replace_cr (c :: s))
    with ((if (c =? CR)%N then LF else c) :: replace_cr s).
  rewrite !count_if_cons. destruct (c =? CR)%N; [rewrite HLF|]; lia.
Qed.

Lemma dehyphenate_count q s :
  (count_if q (dehyphenate U s) <= count_if q s)%nat.
Proof.
  remember (length s) as n eqn:Hn. revert s Hn.
  induction n as [n IH] using lt_wf_ind. intros s Hn.
  destruct s as [|a s']; [done|].
  rewrite dehyphenate_eq.
  assert (count_if q (a :: dehyphenate U s') <= count_if q (a :: s'))%nat
    as Hskip.
  { pose proof (IH (length s') ltac:(simpl in Hn; lia) s' eq_refl).
    rewrite !count_if_cons. lia. }
  destruct s' as [|h [|nl [|b rest]]]; try exact Hskip.
  destruct (_ && _); [|exact Hskip].
  pose proof (IH (length rest) ltac:(simpl in Hn; lia) rest eq_refl).
  rewrite !count_if_cons. lia.
Qed.

Lemma collapse_runs_count q p r s :
  q r = false -> (count_if q (collapse_runs p r s) <= count_if q s)%nat.
Proof.
  intros Hr. induction s as [|c s IH]; [done|].
  rewrite collapse_runs_eq, (count_if_cons q c s).
  destruct (p c); [|rewrite count_if_cons; lia].
  destruct s as [|d s']; [rewrite count_if_cons, Hr; simpl; lia|].
  destruct (p d); [lia|]. rewrite count_if_cons, Hr. lia.
Qed.

Lemma collapse_newlines_count q s :
  (count_if q (collapse_newlines s) <= count_if q s)%nat.
Proof.
  induction s as [|c s IH]; [done|].
  rewrite collapse_newlines_eq, (count_if_cons q c s).
  destruct s as [|d [|e s']]; try (rewrite count_if_cons; lia).
  destruct (_ && _); [lia|rewrite count_if_cons; lia].
Qed.

Lemma strip_count q s : (count_if q (strip s) <= count_if q s)%nat.
Proof.
  destruct (strip_with_infix is_space s) as (l & r & Hs).
  apply (f_equal (count_if q)) in Hs. rewrite !count_if_app in Hs.
  unfold strip. lia.
Qed.

Lemma normalize_text_count q s :
  q LF = false -> q SPACE = false ->
  (count_if q (normalize_text U s) <= count_if q s)%nat.
Proof.
  intros HLF HSP. unfold normalize_text, collapse_blanks.
  etrans; [apply strip_count|].
  etrans; [apply collapse_newlines_count|].
  etrans; [by apply collapse_runs_count|].
  etrans; [apply dehyphenate_count|].
  etrans; [by apply replace_cr_count|].
  apply replace_crlf_count.
Qed.

Lemma count_if_all s : count_if (fun _ => true) s = length s.
Proof. unfold count_if. induction s; simpl; [done|]. by f_equal. Qed.

Lemma replace_crlf_length s : (length (replace_crlf s) <= length s)%nat.
Proof.
  remember (length s) as n eqn:Hn. revert s Hn.
  induction n as [n IH] using lt_wf_ind. intros s Hn.
  destruct s as [|c s']; [simpl; lia|].
  rewrite replace_crlf_eq.
  destruct s' as [|d s'']; [simpl in *; lia|].
  destruct (_ && _).
  - pose proof (IH (length s'') ltac:(simpl in Hn; lia) s'' eq_refl).
    simpl in *. lia.
  - pose proof (IH (length (d :: s'')) ltac:(simpl in *; lia) _ eq_refl).
    simpl in *. lia.
Qed.

Lemma normalize_text_length s :
  (length (normalize_text U s) <= length s)%nat.
Proof.
  unfold normalize_text, collapse_blanks.
  etrans; [apply strip_length|].
  etrans; [apply collapse_newlines_length|].
  etrans; [apply collapse_runs_length|].
  pose proof (dehyphenate_length U (replace_cr (replace_crlf s))) as Hd.
  pose proof (replace_crlf_length s) as Hc.
  unfold replace_cr in *. rewrite length_map in Hd.
  destruct (has_soft_break _ _); lia.
Qed.

(** X3: [normalize_text] adds nothing: its result is no longer than the
    input, has no more characters above 127 than the input, and is ASCII
    when the input is. *)
Theorem normalize_text_adds_nothing s :
  (length (normalize_text U s) <= length s)%nat /\
  (count_non_ascii (normalize_text U s) <= count_non_ascii s)%nat /\
  (forallb is_ascii s = true ->
   forallb is_ascii (normalize_text U s) = true).
Proof.
  split; [apply normalize_text_length|]. split.
  - by apply (normalize_text_count (fun ch => (127 <? ch)%N)).
  - rewrite !forallb_Forall. by apply normalize_text_Forall.
Qed.

(** X4: in the report of a run, [raw_text_chars] is
    [raw_text_ascii_chars] plus the characters above 127 of the normalised
    text, so that the difference of the two is at most [non_ascii_removed]
    (which is counted before normalisation), and neither length exceeds the
    length of the extracted text; [needs_ocr] says that
    [raw_text_ascii_chars] is below 2000. *)
Theorem report_accounts cfg extracted_chars :
  let r := out_report (main U cfg extracted_chars) in
  raw_text_chars r
  = (raw_text_ascii_chars r
     + count_non_ascii (normalize_text U extracted_chars))%nat /\
  (raw_text_chars r - raw_text_ascii_chars r <= non_ascii_removed r)%nat /\
  (raw_text_ascii_chars r <= raw_text_chars r
   <= length extracted_chars)%nat /\
  (needs_ocr r = true <-> (raw_text_ascii_chars r < 2000)%nat).
Proof.
  unfold main.
  cbn [out_report raw_text_chars raw_text_ascii_chars non_ascii_removed
       needs_ocr].
  pose proof (to_ascii_length (normalize_text U extracted_chars)) as Hlen.
  pose proof (normalize_text_count (fun ch => (127 <? ch)%N)
                extracted_chars eq_refl eq_refl) as Hcount.
  pose proof (normalize_text_length extracted_chars) as Hshort.
  unfold count_non_ascii in *. unfold count_if in Hcount.
  split; [lia|]. split; [lia|]. split; [lia|].
  apply Nat.ltb_lt.
Qed.

(** ** Text without content *)

Lemma normalize_text_blank s :
  forallb is_space s = true -> normalize_text U s = [].
Proof.
  intros Hs.
  assert (forallb is_space (collapse_newlines
            (collapse_blanks (dehyphenate U (replace_cr (replace_crlf s)))))
          = true) as Hall.
  { apply forallb_Forall, collapse_newlines_Forall.
    apply collapse_runs_Forall; [done|].
    apply dehyphenate_Forall, replace_cr_Forall; [done|].
    by apply replace_crlf_Forall, forallb_Forall. }
  unfold normalize_text. by apply strip_whitespace.
Qed.

Lemma join_blank sep parts :
  forallb is_space sep = true ->
  Forall (fun p => forallb is_space p = true) parts ->
  forallb is_space (join sep parts) = true.
Proof.
  intros Hsep. induction 1 as [|p ps Hp Hps IH]; [done|].
  destruct ps as [|p' ps']; [done|].
  change (join sep (p :: p' :: ps')) with (p ++ sep ++ join sep (p' :: ps')).
  by rewrite !forallb_app, Hp, Hsep, IH.
Qed.

Lemma main_blank cfg t :
  forallb is_space t = true ->
  let o := main U cfg t in
  out_raw_text o = [] /\ out_sections o = [] /\ out_questions o = [] /\
  out_chunks o = [] /\
  sections_count (out_report o) = 0%nat /\
  questions_count (out_report o) = 0%nat /\
  answers_found (out_report o) = 0%nat /\
  needs_ocr (out_report o) = true.
Proof.
  intros Ht. unfold main. rewrite (normalize_text_blank t Ht).
  repeat split.
Qed.

(** X5: when every page of the document fails to extract, returns [None]
    or returns whitespace only, the extracted text normalises to the empty
    string: the run has no section, no question, no chunk and no answer, and
    the report asks for OCR. *)
Theorem blank_pages_give_nothing cfg pages :
  Forall (fun p => forallb is_space (page_text p) = true) pages ->
  exists t,
    extract_text (Some pages) = extracted_text t /\
    normalize_text U t = [] /\
    let o := main U cfg t in
    out_raw_text o = [] /\ out_sections o = [] /\ out_questions o = [] /\
    out_chunks o = [] /\
    sections_count (out_report o) = 0%nat /\
    questions_count (out_report o) = 0%nat /\
    answers_found (out_report o) = 0%nat /\
    needs_ocr (out_report o) = true.
Proof.
  intros Hpages. eexists. split; [done|].
  assert (forallb is_space (join [LF; LF] (page_text <$> pages)) = true)
    as Hblank.
  { apply join_blank; [done|]. by apply Forall_fmap. }
  split; [by apply normalize_text_blank|]. by apply main_blank.
Qed.

(** ** The sections [split_sections] returns *)

Lemma is_heading_strip line : is_heading U (strip line) = is_heading U line.
Proof.
  unfold is_heading, strip. by rewrite strip_with_idem.
Qed.

Lemma flush_app sections t current :
  flush U sections t current = sections ++ flush U [] t current.
Proof. destruct current; simpl; [by rewrite app_nil_r|done]. Qed.

Lemma split_loop_app lines sections t current :
  split_loop U lines sections t current
  = sections ++ split_loop U lines [] t current.
Proof.
  revert sections t current.
  induction lines as [|l lines IH]; intros sections t current; simpl.
  - apply flush_app.
  - destruct (is_heading U l); [|apply IH].
    rewrite IH, (IH (flush U [] t current)), flush_app.
    by rewrite app_assoc.
Qed.

(** the section comes from a heading line among [lines] *)
Definition from_heading (lines : list str) (s : section) : Prop :=
  exists line,
    line ∈ lines /\ is_heading U line = true /\ title s = strip line.

Lemma from_heading_cons l lines s :
  from_heading lines s -> from_heading (l :: lines) s.
Proof.
  intros (line & Hin & Hh & Ht). exists line. split; [by right|done].
Qed.

(** a section as [make_section] builds it: its type is read off its title,
    its text is trimmed *)
Definition made (s : section) : Prop :=
  type s = classify_section U (title s) /\ strip (text s) = text s.

Lemma make_section_made t lines : made (make_section U t lines).
Proof. split; [done|]. apply strip_with_idem. Qed.

Lemma flush_cases t current :
  flush U [] t current = [] \/
  flush U [] t current = [make_section U t current].
Proof. destruct current; [by left|by right]. Qed.

Lemma split_loop_shape lines t current :
  let out := split_loop U lines [] t current in
  Forall made out /\
  (forall s, head out = Some s -> title s = t \/ from_heading lines s) /\
  Forall (from_heading lines) (drop 1 out) /\
  (length out <= S (length (List.filter (is_heading U) lines)))%nat.
Proof.
  revert t current.
  induction lines as [|l lines IH]; intros t current.
  - simpl. destruct (flush_cases t current) as [-> | ->]; simpl.
    + repeat split; try done; lia.
    + repeat split; try lia.
      * apply Forall_singleton, make_section_made.
      * intros s [= <-]. by left.
      * constructor.
  - simpl. destruct (is_heading U l) eqn:Hl.
    + rewrite split_loop_app.
      destruct (IH (strip l) []) as (Hmade & Hhead & Htail & Hlen).
      set (out' := split_loop U lines [] (strip l) []) in *.
      assert (Forall (from_heading (l :: lines)) out') as Hall.
      { destruct out' as [|s0 rest]; [constructor|].
        apply Forall_cons. split.
        - destruct (Hhead s0 eq_refl) as [Ht|Hf].
          + exists l. split; [by left|done].
          + by apply from_heading_cons.
        - eapply Forall_impl; [exact Htail|].
          intros s. apply from_heading_cons. }
      destruct (flush_cases t current) as [-> | ->]; simpl.
      * split; [done|]. split; [|split].
        -- intros s Hs. right.
           destruct out' as [|s0 rest]; [done|].
           injection Hs as <-. by apply Forall_cons in Hall as [? _].
        -- by apply Forall_drop.
        -- lia.
      * split; [apply Forall_cons; split; [apply make_section_made|done]|].
        split; [|split].
        -- intros s [= <-]. by left.
        -- by rewrite drop_0.
        -- lia.
    + destruct (IH t (current ++ [l])) as (Hmade & Hhead & Htail & Hlen).
      split; [done|]. split; [|split].
      * intros s Hs. destruct (Hhead s Hs) as [?|?]; [by left|right].
        by apply from_heading_cons.
      * eapply Forall_impl; [exact Htail|].
        intros s. apply from_heading_cons.
      * done.
Qed.

(** X6: every section [split_sections] returns has the type
    [classify_section] gives its title and a trimmed text; its title is
    ["front_matter"] or the trimmed text of a heading line of the input, and
    is then a heading itself; only the first section can be
    ["front_matter"]; and there is at most one section more than there are
    heading lines. *)
Theorem split_sections_shape txt :
  let sections := split_sections U txt in
  Forall (fun s =>
            type s = classify_section U (title s) /\
            strip (text s) = text s /\
            (title s = u "front_matter" \/
             (is_heading U (title s) = true /\
              exists line, line ∈ splitlines txt /\ title s = strip line)))
         sections /\
  Forall (fun s => title s <> u "front_matter") (drop 1 sections) /\
  (length sections
   <= S (length (List.filter (is_heading U) (splitlines txt))))%nat.
Proof.
  unfold split_sections.
  destruct (split_loop_shape (splitlines txt) (u "front_matter") [])
    as (Hmade & Hhead & Htail & Hlen).
  set (out := split_loop U (splitlines txt) [] (u "front_matter") []) in *.
  assert (forall s, from_heading (splitlines txt) s ->
            is_heading U (title s) = true /\
            exists line, line ∈ splitlines txt /\ title s = strip line)
    as Hfrom.
  { intros s (line & Hin & Hh & Ht). split; [|by exists line].
    by rewrite Ht, is_heading_strip. }
  split; [|split; [|done]].
  - destruct out as [|s0 rest]; [constructor|].
    apply Forall_cons in Hmade as [[Hty Htx] Hrest].
    apply Forall_cons. split.
    + split; [done|]. split; [done|].
      destruct (Hhead s0 eq_refl) as [?|?]; [by left|right; by apply Hfrom].
    + simpl in Htail. rewrite drop_0 in Htail.
      apply Forall_forall. intros s Hs.
      rewrite Forall_forall in Hrest, Htail.
      destruct (Hrest s Hs) as [? ?].
      split; [done|]. split; [done|]. right. by apply Hfrom, Htail.
  - eapply Forall_impl; [exact Htail|].
    intros s (line & _ & Hh & Ht) Hfront. rewrite Hfront in Ht.
    by apply (is_heading_not_front_matter U line).
Qed.

Lemma split_loop_no_heading lines sections t current :
  Forall (fun l => is_heading U l = false) lines ->
  split_loop U lines sections t current
  = flush U sections t (current ++ lines).
Proof.
  intros H. revert current.
  induction H as [|l lines Hl Hlines IH]; intros current; simpl.
  - by rewrite app_nil_r.
  - rewrite Hl, IH. by rewrite <- app_assoc.
Qed.

(** X7: a text none of whose lines is a heading gives one section,
    ["front_matter"] of type [section], holding the trimmed text of all the
    lines joined by newlines; an empty text gives no section. *)
Theorem split_sections_no_heading txt :
  Forall (fun l => is_heading U l = false) (splitlines txt) ->
  split_sections U txt
  = match splitlines txt with
    | [] => []
    | lines =>
      [ {| title := u "front_matter"; type := section_t;
           text := strip (join [LF] lines) |} ]
    end.
Proof.
  intros H. unfold split_sections.
  rewrite split_loop_no_heading by done.
  by destruct (splitlines txt).
Qed.

(** ** The entries of the answer key *)

Lemma last_entry_elem k entries v :
  last_entry k entries = Some v -> (k, v) ∈ entries.
Proof.
  induction entries as [|e entries IH]; [done|].
  rewrite last_entry_cons.
  destruct (last_entry k entries) as [v'|].
  - intros [= ->]. right. by apply IH.
  - destruct (decide (e.1 = k)) as [<-|]; [|done].
    intros [= <-]. destruct e. by left.
Qed.

Lemma answer_entries_match sections k rest :
  (k, rest) ∈ answer_entries U sections ->
  exists s line,
    s ∈ sections /\ type s = answers_t /\ line ∈ splitlines (text s) /\
    re_match (re_answer_line U) line = Some (k, rest).
Proof.
  unfold answer_entries. rewrite list_elem_of_In, in_flat_map.
  intros (s & Hs & Hin). destruct (decide (type s = answers_t)); [|done].
  apply list_elem_of_In, list_elem_of_omap in Hin as (line & Hline & Hm).
  exists s, line. by rewrite list_elem_of_In.
Qed.

Lemma store_size answers entries :
  (size (store answers entries) <= size answers + length entries)%nat.
Proof.
  revert answers. induction entries as [|e entries IH]; intros answers.
  - simpl. lia.
  - change (store answers (e :: entries))
      with (store (<[e.1 := strip e.2]> answers) entries).
    etrans; [apply IH|]. simpl.
    destruct (answers !! e.1) eqn:He.
    + rewrite map_size_insert_Some by done. lia.
    + rewrite map_size_insert_None by done. lia.
Qed.

Lemma answer_entries_none sections :
  Forall (fun s => type s <> answers_t) sections ->
  answer_entries U sections = [].
Proof.
  induction 1 as [|s sections Hs _ IH]; [done|].
  unfold answer_entries in *. simpl. rewrite IH.
  by destruct (decide (type s = answers_t)).
Qed.

(** X8: every key of the answer key is a non-empty string of digits and
    every value is trimmed, the trimmed rest of an answer line of a section
    of type [answers] with that number; the key has at most as many entries
    as there are matching answer lines, and none when no section has the
    type [answers]. *)
Theorem answer_key_entries sections :
  (forall k v,
     parse_answer_key U sections !! k = Some v ->
     numeral U k /\ strip v = v /\
     exists s line rest,
       s ∈ sections /\ type s = answers_t /\ line ∈ splitlines (text s) /\
       re_match (re_answer_line U) line = Some (k, rest) /\
       v = strip rest) /\
  (size (parse_answer_key U sections)
   <= length (answer_entries U sections))%nat /\
  (Forall (fun s => type s <> answers_t) sections ->
   parse_answer_key U sections = ∅).
Proof.
  split; [|split].
  - intros k v. rewrite parse_answer_key_lookup.
    destruct (last_entry k (answer_entries U sections)) as [rest|] eqn:Hlast;
      [|done].
    intros [= <-].
    apply last_entry_elem, answer_entries_match in Hlast
      as (s & line & Hs & Hty & Hline & Hm).
    split; [by eapply re_answer_line_numeral|].
    split; [apply strip_with_idem|].
    by exists s, line, rest.
  - rewrite parse_answer_key_store.
    pose proof (store_size ∅ (answer_entries U sections)) as H.
    by rewrite map_size_empty in H.
  - intros Hnone. rewrite parse_answer_key_store.
    by rewrite answer_entries_none.
Qed.

(** ** The questions and the lines that start them *)

Lemma question_start_numeral line num rest :
  question_start U line = Some (num, rest) -> numeral U num.
Proof.
  unfold question_start.
  destruct (re_match (re_question U) line) as [[n r]|] eqn:Hm.
  { intros [= <- <-]. by eapply re_question_numeral. }
  destruct (re_match (re_question_alt U) line) as [[n r]|] eqn:Ha; [|done].
  intros [= <- <-]. by eapply re_question_alt_numeral.
Qed.

Lemma pq_line_numbers st line :
  number <$> close_question (pq_line U st line)
  = (number <$> close_question st)
    ++ match question_start U line with
       | Some (num, _) => [Some num]
       | None => []
       end.
Proof.
  unfold pq_line, question_start.
  destruct (re_match (re_question U) line) as [[num rest]|].
  { unfold close_question at 1. simpl. by rewrite fmap_app. }
  destruct (re_match (re_question_alt U) line) as [[num rest]|].
  { unfold close_question at 1. simpl. by rewrite fmap_app. }
  rewrite app_nil_r. unfold close_question.
  destruct (pq_current st) as [current|] eqn:Hcur; [|by rewrite Hcur].
  destruct (strip line); [by rewrite Hcur|].
  simpl. by rewrite !fmap_app.
Qed.

Lemma pq_loop_numbers lines st :
  number <$> close_question (foldl (pq_line U) st lines)
  = (number <$> close_question st)
    ++ ((fun m => Some m.1) <$> omap (question_start U) lines).
Proof.
  revert st. induction lines as [|line lines IH]; intros st; simpl.
  - by rewrite app_nil_r.
  - rewrite IH, pq_line_numbers, <- app_assoc. f_equal.
    by destruct (question_start U line) as [[num rest]|].
Qed.

Lemma parse_questions_numbers s :
  number <$> parse_questions_from_section U s
  = (fun m => Some m.1) <$> omap (question_start U) (splitlines (text s)).
Proof. unfold parse_questions_from_section. by rewrite pq_loop_numbers. Qed.

Lemma section_questions_numbers answers cfg s :
  question_number <$> section_questions U answers cfg s
  = fst <$> omap (question_start U) (splitlines (text s)).
Proof.
  unfold section_questions.
  pose proof (parse_questions_numbers s) as Hnum.
  pose proof (parse_questions_numbered U s) as Hall.
  revert Hnum Hall.
  generalize (omap (question_start U) (splitlines (text s))).
  generalize (match slugify U (title s) with
              | [] => u "exercise" | slug => slug end).
  generalize 1%Z.
  induction (parse_questions_from_section U s) as [|q qs IH];
    intros idx slug starts Hnum Hall.
  - by destruct starts.
  - destruct starts as [|[num rest] starts]; [done|].
    injection Hnum as Hq Hqs.
    apply Forall_cons in Hall as [(n & Hn & Hnumeral) Hall].
    simpl. f_equal; [|by apply IH].
    rewrite Hn in Hq. injection Hq as ->. rewrite Hn.
    by apply (or_str_numeral U).
Qed.

(** X9: the question numbers, in the order of the questions, are the
    numbers of the lines that start a question (a line either question
    pattern matches) in the sections of type [exercise], in document order:
    one question for every such line, whatever the answer key and the
    configuration. *)
Theorem question_numbers_follow_lines sections answers cfg :
  question_number <$> build_questions U sections answers cfg
  = flat_map (fun s =>
                if decide (type s = exercise_t)
                then fst <$> omap (question_start U) (splitlines (text s))
                else [])
             sections.
Proof.
  induction sections as [|s sections IH]; [done|].
  rewrite build_questions_cons, fmap_app, IH. simpl. f_equal.
  destruct (decide (type s = exercise_t)); [|done].
  apply section_questions_numbers.
Qed.

Lemma section_questions_ids answers cfg s :
  exists prefix,
    q_id <$> section_questions U answers cfg s
    = (app prefix) <$> (question_number <$> section_questions U answers cfg s).
Proof.
  unfold section_questions.
  set (slug := match slugify U (title s) with
               | [] => u "exercise" | slug => slug end).
  exists (base_id U cfg ++ u "_" ++ slug ++ u "_q").
  generalize 1%Z.
  induction (parse_questions_from_section U s) as [|q qs IH]; intros idx.
  - done.
  - cbn [enumerate_from List.map fmap list_fmap]. f_equal; [|apply IH].
    unfold build_question. cbn [q_id question_number].
    by rewrite <- !app_assoc.
Qed.

(** X10: within one section a question identifier is a fixed prefix
    followed by the question number, so that the identifiers of the section
    are pairwise distinct exactly when its question numbers are: two
    questions with the same number get the same identifier. *)
Theorem question_ids_distinct answers cfg s :
  let qs := section_questions U answers cfg s in
  (exists prefix, forall q, q ∈ qs -> q_id q = prefix ++ question_number q) /\
  (NoDup (q_id <$> qs) <-> NoDup (question_number <$> qs)).
Proof.
  destruct (section_questions_ids answers cfg s) as [prefix Hids].
  simpl. split.
  - exists prefix. intros q Hq.
    apply list_elem_of_lookup in Hq as [i Hi].
    apply (f_equal (fun l => l !! i)) in Hids.
    rewrite !list_lookup_fmap, Hi in Hids. simpl in Hids.
    by injection Hids.
  - rewrite Hids. apply NoDup_fmap. apply _.
Qed.

(** ** Topics *)

Lemma starts_with_prefix p s :
  starts_with p s = true <-> exists r, s = p ++ r.
Proof.
  revert s. induction p as [|a p IH]; intros s.
  - split; [by exists s|done].
  - destruct s as [|b s]; simpl.
    + split; [done|]. by intros [r Hr].
    + rewrite andb_true_iff, N.eqb_eq, IH. split.
      * intros [-> [r ->]]. by exists r.
      * intros [r [= -> ->]]. split; [done|]. by exists r.
Qed.

Lemma contains_infix a b :
  contains a b = true <-> exists l r, b = l ++ a ++ r.
Proof.
  induction b as [|c b IH].
  - simpl. rewrite orb_false_r, starts_with_prefix. split.
    + intros [r Hr]. by exists [], r.
    + intros (l & r & Hb). symmetry in Hb.
      apply app_eq_nil in Hb as [-> Hb]. by exists r.
  - rewrite contains_cons, orb_true_iff, starts_with_prefix, IH. split.
    + intros [[r Hr] | (l & r & ->)].
      * by exists [], r.
      * by exists (c :: l), r.
    + intros (l & r & Hb). destruct l as [|d l].
      * left. by exists r.
      * right. injection Hb as -> ->. by exists l, r.
Qed.

Lemma contains_trans a b c :
  contains a b = true -> contains b c = true -> contains a c = true.
Proof.
  rewrite !contains_infix. intros (l1 & r1 & ->) (l2 & r2 & ->).
  exists (l2 ++ l1), (r1 ++ r2). by rewrite <- !app_assoc.
Qed.

Lemma foldl_hits {A} (f : list str -> A -> list str) (g : A -> list str)
    table hits :
  (forall hits x, f hits x = hits ++ g x) ->
  foldl f hits table = hits ++ flat_map g table.
Proof.
  intros Hf. revert hits.
  induction table as [|x table IH]; intros hits; simpl.
  - by rewrite app_nil_r.
  - by rewrite IH, Hf, <- app_assoc.
Qed.

(** the keywords of a topic are looked for in the lower-case text *)
Definition topic_hit (text : str) (entry : str * list str) : bool :=
  existsb (fun kw => contains kw (lower U text)) entry.2.

Lemma detect_topics_eq text :
  detect_topics U text
  = flat_map (fun entry => if topic_hit text entry then [entry.1] else [])
             TOPIC_KEYWORDS.
Proof.
  unfold detect_topics.
  rewrite (foldl_hits _
             (fun entry => if topic_hit text entry then [entry.1] else [])).
  - done.
  - intros hits [topic keywords]. unfold topic_hit. simpl.
    destruct (existsb _ keywords); [done|by rewrite app_nil_r].
Qed.

Lemma hits_sublist {A} (hit : A -> bool) (name : A -> str) table :
  flat_map (fun x => if hit x then [name x] else []) table
  `sublist_of` (name <$> table).
Proof.
  induction table as [|x table IH]; simpl; [constructor|].
  destruct (hit x); simpl; by constructor.
Qed.

Lemma topic_set_hit text :
  topic_hit text (u "set", [u "set"; u "sets"; u "subset"; u "superset";
                            u "power set"])
  = contains (u "set") (lower U text).
Proof.
  unfold topic_hit. cbn [snd existsb].
  destruct (contains (u "set") (lower U text)) eqn:Hset; [done|].
  rewrite orb_false_l, orb_false_r.
  repeat match goal with
         | |- context [contains ?kw (lower U text)] =>
           lazymatch kw with
           | u "set" => fail
           | _ =>
             let H := fresh in
             destruct (contains kw (lower U text)) eqn:H;
             [ assert (contains (u "set") kw = true) as Hkw
                 by (vm_compute; reflexivity);
               pose proof (contains_trans _ _ _ Hkw H); congruence
             | ]
           end
         end.
  done.
Qed.

Lemma topic_intervals_hit text :
  topic_hit text (u "intervals", [u "interval"; u "open interval";
                                  u "closed interval"])
  = contains (u "interval") (lower U text).
Proof.
  unfold topic_hit. cbn [snd existsb].
  destruct (contains (u "interval") (lower U text)) eqn:Hset; [done|].
  rewrite orb_false_l, orb_false_r.
  repeat match goal with
         | |- context [contains ?kw (lower U text)] =>
           lazymatch kw with
           | u "interval" => fail
           | _ =>
             let H := fresh in
             destruct (contains kw (lower U text)) eqn:H;
             [ assert (contains (u "interval") kw = true) as Hkw
                 by (vm_compute; reflexivity);
               pose proof (contains_trans _ _ _ Hkw H); congruence
             | ]
           end
         end.
  done.
Qed.

(** X11: the topics of a text are taken from the topic table in the order
    of the table, each at most once.  Of the keywords of the topic "set"
    only "set" matters, the others contain it: the topic is found exactly
    when the lower-case text contains "set"; likewise "intervals" is found
    exactly when the text contains "interval". *)
Theorem detect_topics_table text :
  detect_topics U text `sublist_of` (fst <$> TOPIC_KEYWORDS) /\
  NoDup (detect_topics U text) /\
  (u "set" ∈ detect_topics U text
   <-> contains (u "set") (lower U text) = true) /\
  (u "intervals" ∈ detect_topics U text
   <-> contains (u "interval") (lower U text) = true).
Proof.
  assert (detect_topics U text `sublist_of` (fst <$> TOPIC_KEYWORDS)) as Hsub.
  { rewrite detect_topics_eq. apply hits_sublist. }
  split; [done|]. split.
  { eapply sublist_NoDup; [|exact Hsub]. vm_compute.
    repeat (apply NoDup_cons; split;
            [rewrite ?elem_of_cons, elem_of_nil; intros H;
             repeat destruct H as [H|H]; done|]).
    apply NoDup_nil_2. }
  rewrite detect_topics_eq. unfold TOPIC_KEYWORDS. cbn [flat_map].
  rewrite topic_set_hit, topic_intervals_hit.
  rewrite !elem_of_app.
  split.
  - split.
    + intros [H|[H|[H|[H|[H|H]]]]];
        repeat match type of H with
               | _ ∈ (if ?b then _ else _) => destruct b eqn:?
               end;
        try done;
        try (apply list_elem_of_singleton in H; vm_compute in H;
             discriminate);
        by apply elem_of_nil in H.
    + intros ->. left. by left.
  - split.
    + intros [H|[H|[H|[H|[H|H]]]]];
        repeat match type of H with
               | _ ∈ (if ?b then _ else _) => destruct b eqn:?
               end;
        try done;
        try (apply list_elem_of_singleton in H; vm_compute in H;
             discriminate);
        by apply elem_of_nil in H.
    + intros ->. do 4 right. left. by left.
Qed.

(** ** Difficulty beyond the bound *)

(** X12: the difficulty is the raw score, a number from 1 to 6, cut down to
    [levels]: it never exceeds 6, so that any [levels] from 6 on gives the
    raw score; it grows with [levels]; and for [levels] up to 1 it is
    [levels], whatever the text. *)
Theorem difficulty_cap text :
  (forall levels, (score_difficulty U text levels <= 6)%Z) /\
  (forall levels,
     (6 <= levels)%Z ->
     score_difficulty U text levels = score_difficulty U text 6) /\
  (forall l1 l2,
     (l1 <= l2)%Z ->
     (score_difficulty U text l1 <= score_difficulty U text l2)%Z) /\
  (forall levels,
     (levels <= 1)%Z -> score_difficulty U text levels = levels).
Proof.
  pose proof (raw_score_bounds U text) as Hraw.
  repeat split; intros; rewrite ?score_difficulty_min; lia.
Qed.

(** ** No word is lost between chunks *)

Lemma slice_take_drop {A} (l : list A) a n :
  (0 <= a)%Z -> (0 <= n)%Z ->
  slice l a (a + n) = take (Z.to_nat n) (drop (Z.to_nat a) l).
Proof.
  intros Ha Hn. unfold slice, slice_bound.
  destruct (Z.ltb_spec a 0); [lia|]. destruct (Z.ltb_spec (a + n) 0); [lia|].
  destruct (Z.le_gt_cases a (Z.of_nat (length l))) as [Hle|Hgt].
  - rewrite (Z.min_r _ a) by lia.
    destruct (Z.le_gt_cases (a + n) (Z.of_nat (length l))).
    + rewrite Z.min_r by lia. f_equal. lia.
    + rewrite Z.min_l by lia.
      rewrite !take_ge; [done| |]; rewrite length_drop; lia.
  - rewrite !drop_ge by lia. by rewrite !take_nil.
Qed.

Lemma window_count_zero len step idx :
  (0 < step)%Z -> window_count len step idx = 0%nat -> (len <= idx)%Z.
Proof.
  intros Hstep Hz. destruct (Z.le_gt_cases len idx); [done|].
  rewrite window_count_next in Hz by lia. done.
Qed.

Lemma windows_cover n words max_words step idx :
  Forall word_ok words ->
  (0 < step <= max_words)%Z -> (0 <= idx)%Z ->
  n = window_count (Z.of_nat (length words)) step idx ->
  flat_map (fun c => take (Z.to_nat step) (split c))
           (windows n words max_words step idx)
  = drop (Z.to_nat idx) words /\
  Forall (fun c => (1 <= length (split c) <= Z.to_nat max_words)%nat)
         (windows n words max_words step idx).
Proof.
  intros Hwords Hstep. revert idx.
  induction n as [|n IH]; intros idx Hidx Hn.
  - simpl. split; [|constructor].
    symmetry in Hn. apply window_count_zero in Hn; [|lia].
    rewrite drop_ge; [done|lia].
  - destruct (Z.le_gt_cases (Z.of_nat (length words)) idx) as [Hle|Hgt].
    { rewrite window_count_done in Hn by lia. done. }
    rewrite window_count_next in Hn by lia. injection Hn as Hn.
    destruct (IH (idx + step)%Z ltac:(lia) Hn) as [Hcover Hsize].
    cbn [windows flat_map].
    assert (split (join [SPACE] (slice words idx (idx + max_words)))
            = take (Z.to_nat max_words) (drop (Z.to_nat idx) words)) as Hpart.
    { rewrite split_join by by apply slice_Forall.
      apply slice_take_drop; lia. }
    rewrite Hpart. split.
    + rewrite Hcover, take_take, Nat.min_l by lia.
      replace (Z.to_nat (idx + step)) with (Z.to_nat idx + Z.to_nat step)%nat
        by lia.
      rewrite <- drop_drop. apply take_drop.
    + apply Forall_cons. split; [|done].
      rewrite Hpart, length_take, length_drop. lia.
Qed.

Lemma chunk_step_range max_words overlap :
  (0 < max_words)%Z -> (0 <= overlap)%Z ->
  (0 < chunk_step max_words overlap <= max_words)%Z.
Proof.
  intros Hmw Hov. unfold chunk_step.
  destruct (Z.leb_spec (max_words - overlap) 0); lia.
Qed.

Lemma chunk_text_with_windows text max_words overlap :
  (0 < max_words)%Z -> (0 <= overlap)%Z ->
  chunk_text_with text max_words overlap
  = windows (window_count (Z.of_nat (length (split text)))
               (chunk_step max_words overlap) 0)
            (split text) max_words (chunk_step max_words overlap) 0.
Proof.
  intros Hmw Hov.
  pose proof (chunk_step_range max_words overlap Hmw Hov) as Hstep.
  unfold chunk_text_with.
  destruct (split text) as [|w ws] eqn:Hs.
  - rewrite window_count_done by (simpl; lia). done.
  - rewrite chunk_loop_windows; [done|lia|lia|lia|].
    pose proof (window_count_le (Z.of_nat (length (w :: ws)))
                  (chunk_step max_words overlap) 0). lia.
Qed.

(** X13: with a window of at least one word and an overlap that is not
    negative, the chunks lose no word: every chunk has between one and
    [max_words] words, and the first [step] words of every chunk, one chunk
    after the other, are the words of the text, where [step] is
    [max_words - overlap], or [max_words] when that is not positive. *)
Theorem chunk_words_cover text max_words overlap :
  (0 < max_words)%Z -> (0 <= overlap)%Z ->
  let chunks := chunk_text_with text max_words overlap in
  let step := chunk_step max_words overlap in
  (0 < step <= max_words)%Z /\
  flat_map (fun c => take (Z.to_nat step) (split c)) chunks = split text /\
  Forall (fun c => (1 <= length (split c) <= Z.to_nat max_words)%nat) chunks.
Proof.
  intros Hmw Hov.
  pose proof (chunk_step_range max_words overlap Hmw Hov) as Hstep.
  simpl. split; [done|].
  rewrite chunk_text_with_windows by done.
  destruct (windows_cover _ (split text) max_words
              (chunk_step max_words overlap) 0 (split_words text) Hstep
              ltac:(lia) eq_refl) as [Hcover Hsize].
  split; [|done]. by rewrite Hcover.
Qed.

(** X14: a window of zero words gives no chunk, whatever the text and the
    overlap. *)
Theorem chunk_text_zero_window text overlap :
  chunk_text_with text 0 overlap = [].
Proof.
  unfold chunk_text_with. destruct (split text) as [|w ws]; [done|].
  cbn [chunk_loop].
  destruct (Z.ltb_spec 0 (Z.of_nat (length (w :: ws)))); [|done].
  unfold slice. rewrite Z.sub_diag. done.
Qed.

(** ** slugify *)

(** every character of class [p] is [r], and no two of them are next to
    each other *)
Fixpoint runs_collapsed (p : N -> bool) (r : N) (s : str) : bool :=
  match s with
  | [] => true
  | c :: s' =>
    (if p c
     then (c =? r)%N && match s' with d :: _ => negb (p d) | [] => true end
     else true)
    && runs_collapsed p r s'
  end.

Lemma runs_collapsed_eq p r c s' :
  runs_collapsed p r (c :: s')
  = (if p c
     then (c =? r)%N && match s' with d :: _ => negb (p d) | [] => true end
     else true)
    && runs_collapsed p r s'.
Proof. done. Qed.

Lemma collapse_runs_collapsed p r s :
  runs_collapsed p r (collapse_runs p r s) = true.
Proof.
  induction s as [|c s IH]; [done|].
  rewrite collapse_runs_eq. destruct (p c) eqn:Hc.
  - destruct s as [|d s'].
    + simpl. rewrite N.eqb_refl. by destruct (p r).
    + destruct (p d) eqn:Hd; [exact IH|].
      rewrite runs_collapsed_eq, IH, N.eqb_refl.
      rewrite collapse_runs_eq, Hd. simpl. rewrite Hd. by destruct (p r).
  - by rewrite runs_collapsed_eq, Hc, IH.
Qed.

Lemma collapse_runs_fixed p r s :
  runs_collapsed p r s = true -> collapse_runs p r s = s.
Proof.
  induction s as [|c s IH]; [done|].
  rewrite runs_collapsed_eq, collapse_runs_eq.
  intros [Hc Hs]%andb_prop. rewrite (IH Hs).
  destruct (p c); [|done].
  apply andb_prop in Hc as [->%N.eqb_eq Hnext].
  destruct s as [|d s']; [done|].
  apply negb_true_iff in Hnext. by rewrite Hnext.
Qed.

Lemma collapse_runs_class p r s :
  Forall (fun c => p c = false \/ c = r) (collapse_runs p r s).
Proof.
  induction s as [|c s IH]; [constructor|].
  rewrite collapse_runs_eq. destruct (p c) eqn:Hc.
  - destruct s as [|d s']; [apply Forall_singleton; by right|].
    destruct (p d); [done|]. apply Forall_cons. split; [by right|done].
  - apply Forall_cons. split; [by left|done].
Qed.

Lemma runs_collapsed_app p r x y :
  runs_collapsed p r (x ++ y) = true ->
  runs_collapsed p r x = true /\ runs_collapsed p r y = true.
Proof.
  induction x as [|c x IH]; [done|].
  change ((c :: x) ++ y) with (c :: x ++ y).
  rewrite !runs_collapsed_eq.
  intros [Hc Hs]%andb_prop. destruct (IH Hs) as [Hx Hy].
  split; [|done]. rewrite Hx, andb_true_r.
  destruct (p c); [|done].
  apply andb_prop in Hc as [-> Hnext]. by destruct x.
Qed.

Lemma runs_collapsed_no_pair p r s :
  p r = true -> runs_collapsed p r s = true -> contains [r; r] s = false.
Proof.
  intros Hr. induction s as [|c s IH]; [done|].
  rewrite runs_collapsed_eq, contains_cons.
  intros [Hc Hs]%andb_prop.
  rewrite (IH Hs), orb_false_r, starts_with_cons.
  destruct (N.eqb_spec r c) as [<-|]; [|done].
  rewrite Hr in Hc. apply andb_prop in Hc as [_ Hnext].
  destruct s as [|d s']; [done|]. rewrite starts_with_cons.
  destruct (N.eqb_spec r d) as [<-|]; [|done].
  by rewrite Hr in Hnext.
Qed.

Lemma strip_with_Forall (P : N -> Prop) p s :
  Forall P s -> Forall P (strip_with p s).
Proof.
  intros H. destruct (strip_with_infix p s) as (l & r & Hs).
  rewrite Hs in H. apply Forall_app in H as [_ H].
  by apply Forall_app in H as [H _].
Qed.

Lemma last_rev_head (l : str) : last (rev l) = head l.
Proof. destruct l as [|c l]; [done|]. simpl. apply last_snoc. Qed.

Lemma strip_with_ends p s :
  (forall c, head (strip_with p s) = Some c -> p c = false) /\
  (forall c, last (strip_with p s) = Some c -> p c = false).
Proof.
  unfold strip_with, lstrip_with. split.
  - destruct (drop_while p s) as [|c t] eqn:Hd; [done|].
    apply drop_while_head in Hd as Hc.
    rewrite rstrip_cons by done. by intros c' [= <-].
  - unfold rstrip_with. intros c. rewrite last_rev_head.
    destruct (drop_while p (rev (drop_while p s))) as [|d t] eqn:Hd; [done|].
    intros [= <-]. by apply drop_while_head in Hd.
Qed.

Lemma slug_char_ascii_lower c :
  slug_char c = true -> is_ascii c = true /\ ascii_to_lower c = c.
Proof.
  unfold slug_char, is_ascii, ascii_to_lower, ascii_upper_letter,
    ascii_lower_letter, ascii_digit, between, UNDERSCORE.
  intros H.
  assert ((97 <= c <= 122)%N \/ (48 <= c <= 57)%N \/ c = 95%N) as Hc.
  { apply orb_prop in H as [H|H]; [apply orb_prop in H as [H|H]|].
    - apply andb_prop in H as [?%N.leb_le ?%N.leb_le]. lia.
    - apply andb_prop in H as [?%N.leb_le ?%N.leb_le]. lia.
    - apply N.eqb_eq in H. lia. }
  split; [apply N.ltb_lt; lia|].
  destruct (N.leb_spec 65 c), (N.leb_spec c 90); simpl; try done. lia.
Qed.

Lemma lower_slug s :
  Forall (fun c => slug_char c = true) s -> lower U s = s.
Proof.
  intros H. unfold lower.
  assert (forallb is_ascii s = true) as ->.
  { apply forallb_Forall. eapply Forall_impl; [exact H|].
    intros c Hc. by apply slug_char_ascii_lower. }
  induction H as [|c s Hc _ IH]; [done|].
  simpl. f_equal; [|done]. by apply slug_char_ascii_lower.
Qed.

Lemma slugify_chars value :
  Forall (fun c => slug_char c = true) (slugify U value).
Proof.
  unfold slugify. apply strip_with_Forall.
  eapply Forall_impl; [apply collapse_runs_class|].
  intros c [Hc| ->]; [|done].
  apply negb_false_iff in Hc. unfold slug_char. by rewrite Hc.
Qed.

(** X15: a slug is made of lower-case letters, digits and underscores only,
    never starts or ends with an underscore and never has two underscores
    in a row; [slugify] changes nothing on a slug. *)
Theorem slugify_slug value :
  let slug := slugify U value in
  forallb slug_char slug = true /\
  head slug <> Some UNDERSCORE /\
  last slug <> Some UNDERSCORE /\
  contains [UNDERSCORE; UNDERSCORE] slug = false /\
  slugify U slug = slug.
Proof.
  pose proof (slugify_chars value) as Hchars.
  assert (runs_collapsed
            (fun c => negb (ascii_lower_letter c || ascii_digit c))
            UNDERSCORE (slugify U value) = true) as Hruns.
  { unfold slugify.
    destruct (strip_with_infix (N.eqb UNDERSCORE)
                (collapse_runs
                   (fun c => negb (ascii_lower_letter c || ascii_digit c))
                   UNDERSCORE (lower U value))) as (l & r & Hs).
    pose proof (collapse_runs_collapsed
                  (fun c => negb (ascii_lower_letter c || ascii_digit c))
                  UNDERSCORE (lower U value)) as Hc.
    rewrite Hs in Hc. apply runs_collapsed_app in Hc as [_ Hc].
    by apply runs_collapsed_app in Hc as [Hc _]. }
  destruct (strip_with_ends (N.eqb UNDERSCORE)
              (collapse_runs
                 (fun c => negb (ascii_lower_letter c || ascii_digit c))
                 UNDERSCORE (lower U value))) as [Hhead Hlast].
  cbv zeta. split; [by apply forallb_Forall|].
  split; [intros H; by apply Hhead in H|].
  split; [intros H; by apply Hlast in H|].
  split.
  { by apply (runs_collapsed_no_pair
                (fun c => negb (ascii_lower_letter c || ascii_digit c))
                UNDERSCORE). }
  unfold slugify at 1.
  rewrite (lower_slug _ Hchars), (collapse_runs_fixed _ _ _ Hruns).
  unfold slugify. apply strip_with_idem.
Qed.

(** ** What a match keeps of the input

    Whatever holds of every character of the input holds of every character
    a group captures and of the input that remains. *)

Lemma m_chr_Some_P {A} (P : N -> Prop) p (k : @cont A) prev s r :
  Forall P s -> m_chr p k prev s = Some r ->
  exists c s', Forall P s' /\ k (Some c) s' = Some r.
Proof.
  intros HP. destruct s as [|c s']; simpl; [done|].
  destruct (p c); [|done]. apply Forall_cons in HP as [_ HP]. eauto.
Qed.

Lemma m_star_Some_P {A} (P : N -> Prop) p (k : @cont A) prev s r :
  Forall P s -> m_star p k prev s = Some r ->
  exists prev' s', Forall P s' /\ k prev' s' = Some r.
Proof.
  revert prev. induction s as [|c s' IH]; intros prev HP; simpl; [eauto|].
  destruct (p c); [|eauto].
  intros [H|H]%orelse_Some; [|eauto].
  apply Forall_cons in HP as [_ HP]. eauto.
Qed.

Lemma m_star_cap_Some_P {A} (P : N -> Prop) p (k : str -> @cont A)
    acc prev s r :
  Forall P acc -> Forall P s -> m_star_cap p k acc prev s = Some r ->
  exists cap prev' s', Forall P cap /\ Forall P s' /\ k cap prev' s' = Some r.
Proof.
  revert acc prev.
  induction s as [|c s' IH]; intros acc prev Hacc HP; simpl.
  { intros H. by exists acc, prev, []. }
  assert (k acc prev (c :: s') = Some r ->
          exists cap prev' s'',
            Forall P cap /\ Forall P s'' /\ k cap prev' s'' = Some r) as Hstop.
  { intros H. by exists acc, prev, (c :: s'). }
  destruct (p c); [|exact Hstop].
  intros [H|H]%orelse_Some; [|by apply Hstop].
  apply Forall_cons in HP as [Hc HP].
  eapply IH; [|done|done]. apply Forall_app. split; [done|].
  by apply Forall_singleton.
Qed.

Lemma m_star_cap_nil_Some_P {A} (P : N -> Prop) p (k : str -> @cont A)
    prev s r :
  Forall P s -> m_star_cap p k [] prev s = Some r ->
  exists cap prev' s', Forall P cap /\ Forall P s' /\ k cap prev' s' = Some r.
Proof. apply m_star_cap_Some_P. constructor. Qed.

Lemma m_plus_cap_Some_P {A} (P : N -> Prop) p (k : str -> @cont A)
    prev s r :
  Forall P s -> m_plus_cap p k prev s = Some r ->
  exists cap prev' s', Forall P cap /\ Forall P s' /\ k cap prev' s' = Some r.
Proof.
  intros HP. destruct s as [|c s']; simpl; [done|].
  destruct (p c); [|done]. apply Forall_cons in HP as [Hc HP].
  apply m_star_cap_Some_P; [by apply Forall_singleton|done].
Qed.

Ltac unmatch_keeping P H :=
  unfold re_match, m_plus in H;
  repeat first
    [ apply (m_star_Some_P P) in H as (? & ? & ? & H); [|assumption]
    | apply (m_plus_cap_Some_P P) in H as (? & ? & ? & ? & ? & H);
      [|assumption]
    | apply (m_star_cap_nil_Some_P P) in H as (? & ? & ? & ? & ? & H);
      [|assumption]
    | apply (m_chr_Some_P P) in H as (? & ? & ? & H); [|assumption]
    | apply m_eol_Some in H
    | apply m_opt_Some in H as [H|H] ].

Lemma re_answer_line_keeps (P : N -> Prop) line num rest :
  Forall P line ->
  re_match (re_answer_line U) line = Some (num, rest) ->
  Forall P num /\ Forall P rest.
Proof.
  intros HP H. unfold re_answer_line in H. unmatch_keeping P H.
  by injection H as <- <-.
Qed.

Lemma re_question_keeps (P : N -> Prop) line num rest :
  Forall P line ->
  re_match (re_question U) line = Some (num, rest) ->
  Forall P num /\ Forall P rest.
Proof.
  intros HP H. unfold re_question in H. unmatch_keeping P H.
  by injection H as <- <-.
Qed.

Lemma re_question_alt_keeps (P : N -> Prop) line num rest :
  Forall P line ->
  re_match (re_question_alt U) line = Some (num, rest) ->
  Forall P num /\ Forall P rest.
Proof.
  intros HP H. unfold re_question_alt in H.
  unmatch_keeping P H; by injection H as <- <-.
Qed.

Lemma re_option_keeps (P : N -> Prop) line rest :
  Forall P line -> re_match re_option line = Some rest -> Forall P rest.
Proof.
  intros HP H. unfold re_option in H.
  unmatch_keeping P H; by injection H as <-.
Qed.

Lemma splitlines_Forall (P : N -> Prop) s :
  Forall P s -> Forall (Forall P) (splitlines s).
Proof.
  remember (length s) as n eqn:Hn. revert s Hn.
  induction n as [n IH] using lt_wf_ind. intros s Hn HP.
  destruct s as [|c s']; [constructor|].
  rewrite splitlines_eq. apply Forall_cons in HP as [Hc Hs'].
  assert (Forall (Forall P) (splitlines s')) as Hrest.
  { eapply IH; [|done|done]. simpl in Hn. lia. }
  destruct (is_linebreak c).
  - apply Forall_cons. split; [constructor|].
    destruct s' as [|d s'']; [constructor|].
    destruct (_ && _); [|done].
    apply Forall_cons in Hs' as [_ Hs''].
    eapply IH; [|done|done]. simpl in Hn. lia.
  - destruct (splitlines s') as [|l ls]; [by repeat constructor|].
    apply Forall_cons in Hrest as [Hl Hls].
    apply Forall_cons. split; [by apply Forall_cons|done].
Qed.

Lemma option_lines_keep (P : N -> Prop) lines options :
  Forall (Forall P) lines -> Forall (Forall P) options ->
  Forall (Forall P) (foldl option_line options lines).
Proof.
  intros Hlines. revert options.
  induction Hlines as [|line lines Hline _ IH]; intros options Hopts; [done|].
  simpl. apply IH. unfold option_line.
  destruct (re_match re_option line) as [rest|] eqn:Hm; [|done].
  apply Forall_app. split; [done|]. apply Forall_singleton.
  by eapply strip_Forall, re_option_keeps.
Qed.

Lemma extract_options_keep (P : N -> Prop) txt options :
  Forall P txt -> extract_options txt = Some options ->
  Forall (Forall P) options.
Proof.
  intros HP. unfold extract_options.
  pose proof (option_lines_keep P (splitlines txt) []
                (splitlines_Forall P txt HP) ltac:(constructor)) as H.
  destruct (foldl option_line [] (splitlines txt)); [done|].
  by intros [= <-].
Qed.

Lemma parse_answer_key_keeps (P : N -> Prop) sections k v :
  Forall (fun s => Forall P (text s)) sections ->
  parse_answer_key U sections !! k = Some v ->
  Forall P k /\ Forall P v.
Proof.
  intros Hsec. rewrite parse_answer_key_lookup.
  destruct (last_entry k (answer_entries U sections)) as [rest|] eqn:Hlast;
    [|done].
  intros [= <-].
  apply last_entry_elem, answer_entries_match in Hlast
    as (s & line & Hs & _ & Hline & Hm).
  rewrite Forall_forall in Hsec.
  pose proof (splitlines_Forall P _ (Hsec s Hs)) as Hlines.
  rewrite Forall_forall in Hlines.
  destruct (re_answer_line_keeps P line k rest (Hlines line Hline) Hm).
  split; [done|]. by apply strip_Forall.
Qed.

(** the sections as [main] hands them on *)
Lemma main_sections_ascii cfg txt :
  Forall (fun s => Forall (fun c => is_ascii c = true) (text s))
         (out_sections (main U cfg txt)).
Proof.
  unfold main. cbn [out_sections].
  apply Forall_forall. intros s Hs.
  apply list_elem_of_fmap in Hs as (s' & -> & _). simpl.
  apply forallb_Forall, to_ascii_is_ascii.
Qed.

(** X16: the texts a run writes are ASCII: the raw text, the text of every
    section, the stem, the options and the answer of every question, and
    the text of every chunk.  (Section titles are kept as they are.) *)
Theorem outputs_are_ascii cfg txt :
  let o := main U cfg txt in
  forallb is_ascii (out_raw_text o) = true /\
  Forall (fun s => forallb is_ascii (text s) = true) (out_sections o) /\
  Forall (fun q =>
            forallb is_ascii (stem q) = true /\
            (forall opts, options q = Some opts ->
                          Forall (fun o => forallb is_ascii o = true) opts) /\
            (forall a, answer q = Some a -> forallb is_ascii a = true))
         (out_questions o) /\
  Forall (fun c => forallb is_ascii (c_text c) = true) (out_chunks o).
Proof.
  cbv zeta. split; [apply to_ascii_is_ascii|]. split; [|split].
  - eapply Forall_impl; [apply main_sections_ascii|].
    intros s Hs. by apply forallb_Forall.
  - apply Forall_forall. intros q Hq.
    apply build_questions_elem in Hq as (s & slug & idx & pq & _ & _ & _ & ->).
    unfold build_question. cbn [stem options answer].
    split; [apply to_ascii_is_ascii|]. split.
    + intros opts Hopts.
      eapply Forall_impl;
        [eapply (extract_options_keep (fun c => is_ascii c = true));
         [|exact Hopts]|].
      * apply forallb_Forall, to_ascii_is_ascii.
      * intros o Ho. by apply forallb_Forall.
    + intros a. destruct (truthy _); [|done].
      destruct (_ !! _) as [v|]; [|done].
      intros [= <-]. apply to_ascii_is_ascii.
  - apply Forall_forall. intros c Hc.
    apply list_elem_of_lookup in Hc as [i Hi].
    unfold main in Hi. cbn [out_chunks] in Hi.
    rewrite build_chunks_pieces in Hi.
    apply number_chunks_lookup in Hi as (s & piece & _ & ->).
    apply to_ascii_is_ascii.
Qed.

Lemma answers_kept sections cfg :
  Forall (fun s => Forall (fun c => is_ascii c = true) (text s)) sections ->
  Forall (fun q =>
            answer q
            = match parse_answer_key U sections !! question_number q with
              | Some (c :: v) => Some (c :: v)
              | _ => None
              end /\
            answer q <> Some [])
         (build_questions U sections (parse_answer_key U sections) cfg).
Proof.
  intros Hsec. apply Forall_forall. intros q Hq.
  apply build_questions_elem in Hq as (s & slug & idx & pq & _ & _ & _ & ->).
  unfold build_question. cbn [answer question_number].
  destruct (parse_answer_key U sections
              !! or_str (number pq) (str_of_int idx)) as [v|] eqn:Hv;
    [|done].
  destruct v as [|c v]; [done|]. cbn [truthy fmap option_fmap option_map].
  apply (parse_answer_key_keeps (fun c => is_ascii c = true)) in Hv as [_ Hv];
    [|done].
  apply forallb_Forall, to_ascii_id in Hv. by rewrite Hv.
Qed.

(** X17: in a run the answer of a question is the entry of the answer key
    for its number, as it stands, when that entry is not empty, and [None]
    otherwise; it is never the empty string. *)
Theorem run_answers cfg txt :
  let o := main U cfg txt in
  let answers := parse_answer_key U (out_sections o) in
  Forall (fun q =>
            answer q
            = match answers !! question_number q with
              | Some (c :: v) => Some (c :: v)
              | _ => None
              end /\
            answer q <> Some [])
         (out_questions o).
Proof.
  exact (answers_kept (out_sections (main U cfg txt)) cfg
           (main_sections_ascii cfg txt)).
Qed.

(** ** Options *)

Lemma option_lines_eq lines options :
  foldl option_line options lines
  = options ++ (strip <$> omap (re_match re_option) lines).
Proof.
  revert options. induction lines as [|line lines IH]; intros options; simpl.
  - by rewrite app_nil_r.
  - rewrite IH. unfold option_line.
    destruct (re_match re_option line) as [rest|]; simpl; [|done].
    by rewrite <- app_assoc.
Qed.

(** X18: the options of a text are the trimmed rests of the lines the
    option pattern matches, in order; there are no options ([None], never an
    empty list) exactly when no line matches. *)
Theorem extract_options_lines txt :
  let found := strip <$> omap (re_match re_option) (splitlines txt) in
  (extract_options txt = None <-> found = []) /\
  (forall opts, extract_options txt = Some opts ->
                opts = found /\ opts <> [] /\
                Forall (fun o => strip o = o) opts) /\
  (extract_options txt = None <->
   Forall (fun line => re_match re_option line = None) (splitlines txt)).
Proof.
  cbv zeta. unfold extract_options.
  rewrite option_lines_eq, app_nil_l.
  split; [|split].
  - by destruct (strip <$> _).
  - intros opts Hopts.
    assert (opts = strip <$> omap (re_match re_option) (splitlines txt))
      as ->.
    { destruct (strip <$> _); [done|]. by injection Hopts. }
    split; [done|]. split; [by destruct (strip <$> _)|].
    apply Forall_fmap, Forall_forall. intros rest _. apply strip_with_idem.
  - induction (splitlines txt) as [|line lines IH]; simpl.
    + split; [constructor|done].
    + destruct (re_match re_option line) as [rest|] eqn:Hm; simpl.
      * split; [done|]. intros [Hnone _]%Forall_cons. congruence.
      * rewrite IH. split; [intros H; by apply Forall_cons|].
        by intros [_ H]%Forall_cons.
Qed.

(** ** How many chunks *)

Lemma number_chunks_length cfg n pieces :
  length (number_chunks U cfg n pieces) = length pieces.
Proof.
  revert n. induction pieces as [|[s piece] pieces IH]; intros n; simpl;
    [done|by rewrite IH].
Qed.

Lemma chunk_text_length txt :
  length (chunk_text txt)
  = window_count (Z.of_nat (length (split txt))) 160 0.
Proof.
  destruct (split txt) as [|w ws] eqn:Hs.
  - unfold chunk_text, chunk_text_with. by rewrite Hs.
  - rewrite chunk_text_windows, windows_length by by rewrite Hs.
    by rewrite Hs.
Qed.

(** X19: [build_chunks] makes, for every section whose type is not
    [answers], one chunk for every 160 words or part thereof (none for a
    section without words); the number of chunks is the sum of these
    numbers. *)
Theorem chunk_count sections cfg :
  length (build_chunks U sections cfg)
  = sum_list
      ((fun s => Z.to_nat ((Z.of_nat (length (split (text s))) + 159) / 160))
         <$> filter (fun s => type s <> answers_t) sections).
Proof.
  rewrite build_chunks_pieces, number_chunks_length.
  induction sections as [|s sections IH]; [done|].
  rewrite document_pieces_cons, length_app, IH, filter_cons.
  unfold section_pieces.
  destruct (decide (type s = answers_t)) as [Hs|Hs].
  - destruct (decide (type s <> answers_t)); [done|]. done.
  - destruct (decide (type s <> answers_t)); [|done].
    rewrite length_fmap, chunk_text_length. simpl. f_equal.
    unfold window_count. f_equal. f_equal. lia.
Qed.

(** ** Where questions and chunks come from *)

(** X20: every question of a run belongs to a section of the run of type
    [exercise], whose title it carries, with the source "exercise" and the
    metadata of the configuration; every chunk belongs to a section whose
    type is not [answers], whose title and type it carries, and which has at
    least one word. *)
Theorem outputs_provenance cfg txt :
  let o := main U cfg txt in
  Forall (fun q =>
            q_source q = u "exercise" /\
            q_metadata q = config_metadata cfg /\
            exists s, s ∈ out_sections o /\ type s = exercise_t /\
                      q_section_title q = title s)
         (out_questions o) /\
  Forall (fun c =>
            c_metadata c = config_metadata cfg /\
            exists s, s ∈ out_sections o /\ type s <> answers_t /\
                      c_section_title c = title s /\
                      c_section_type c = type s /\
                      split (text s) <> [])
         (out_chunks o).
Proof.
  cbv zeta. split.
  - apply Forall_forall. intros q Hq.
    apply build_questions_elem in Hq as (s & slug & idx & pq & Hs & Ht & _ & ->).
    split; [done|]. split; [done|]. by exists s.
  - apply Forall_forall. intros c Hc.
    apply list_elem_of_lookup in Hc as [i Hi].
    unfold main in Hi. cbn [out_chunks] in Hi.
    rewrite build_chunks_pieces in Hi.
    apply number_chunks_lookup in Hi as (s & piece & Hp & ->).
    split; [done|].
    apply list_elem_of_lookup_2 in Hp.
    pose proof (document_pieces_type _ _ _ Hp) as Hty.
    unfold document_pieces in Hp.
    rewrite list_elem_of_In, in_flat_map in Hp.
    destruct Hp as (s' & Hs' & Hin). unfold section_pieces in Hin.
    destruct (decide (type s' = answers_t)); [done|].
    apply list_elem_of_In, list_elem_of_fmap in Hin as (piece' & [= -> ->] & Hpiece).
    exists s'. rewrite list_elem_of_In. repeat split; try done.
    intros Hnil. unfold chunk_text, chunk_text_with in Hpiece.
    rewrite Hnil in Hpiece. by apply elem_of_nil in Hpiece.
Qed.

(** ** Headings and question lines, on ASCII lines *)

Lemma m_star_Some_split {A} p (k : @cont A) prev s r :
  m_star p k prev s = Some r ->
  exists pre s' prev',
    s = pre ++ s' /\ forallb p pre = true /\ k prev' s' = Some r.
Proof.
  revert prev. induction s as [|c s' IH]; intros prev; simpl.
  { intros H. by exists [], [], prev. }
  assert (k prev (c :: s') = Some r ->
          exists pre s'' prev',
            c :: s' = pre ++ s'' /\ forallb p pre = true /\
            k prev' s'' = Some r) as Hstop.
  { intros H. by exists [], (c :: s'), prev. }
  destruct (p c) eqn:Hc; [|exact Hstop].
  intros [H|H]%orelse_Some; [|by apply Hstop].
  apply IH in H as (pre & s'' & prev' & -> & Hpre & Hk).
  exists (c :: pre), s'', prev'. simpl. by rewrite Hc, Hpre.
Qed.

Lemma m_star_cap_Some_split {A} p (k : str -> @cont A) acc prev s r :
  m_star_cap p k acc prev s = Some r ->
  exists cap s' prev',
    s = cap ++ s' /\ forallb p cap = true /\
    k (acc ++ cap) prev' s' = Some r.
Proof.
  revert acc prev. induction s as [|c s' IH]; intros acc prev; simpl.
  { intros H. exists [], [], prev.
    split; [done|]. split; [done|]. by rewrite app_nil_r. }
  assert (k acc prev (c :: s') = Some r ->
          exists cap s'' prev',
            c :: s' = cap ++ s'' /\ forallb p cap = true /\
            k (acc ++ cap) prev' s'' = Some r) as Hstop.
  { intros H. exists [], (c :: s'), prev.
    split; [done|]. split; [done|]. by rewrite app_nil_r. }
  destruct (p c) eqn:Hc; [|exact Hstop].
  intros [H|H]%orelse_Some; [|by apply Hstop].
  apply IH in H as (cap & s'' & prev' & -> & Hcap & Hk).
  exists (c :: cap), s'', prev'. simpl. rewrite Hc, Hcap.
  by rewrite <- app_assoc in Hk.
Qed.

Lemma m_plus_cap_Some_split {A} p (k : str -> @cont A) prev s r :
  m_plus_cap p k prev s = Some r ->
  exists cap s' prev',
    s = cap ++ s' /\ cap <> [] /\ forallb p cap = true /\
    k cap prev' s' = Some r.
Proof.
  destruct s as [|c s']; simpl; [done|].
  destruct (p c) eqn:Hc; [|done].
  intros (cap & s'' & prev' & -> & Hcap & Hk)%m_star_cap_Some_split.
  exists (c :: cap), s'', prev'. simpl. by rewrite Hc, Hcap.
Qed.

Lemma m_lit_ci_Some {A} w (k : @cont A) prev s r :
  m_lit_ci U w k prev s = Some r ->
  exists pre rest prev',
    s = pre ++ rest /\ Forall2 (fun a c => ci U a c = true) w pre /\
    k prev' rest = Some r.
Proof.
  revert prev s. induction w as [|a w IH]; intros prev s; simpl.
  { intros H. exists [], s, prev. by repeat split. }
  intros (c & s' & -> & Hc & H)%m_chr_Some.
  apply IH in H as (pre & rest & prev' & -> & Hpre & Hk).
  exists (c :: pre), rest, prev'. repeat split; [|done]. by constructor.
Qed.

(** *** characters *)

Lemma ascii_digit_facts c :
  ascii_digit c = true ->
  is_ascii c = true /\ is_space c = false /\ (c =? DOT)%N = false /\
  ascii_to_lower c = c /\ (48 <= c <= 57)%N.
Proof.
  unfold ascii_digit, between. intros [H1%N.leb_le H2%N.leb_le]%andb_prop.
  assert (c = 48 \/ c = 49 \/ c = 50 \/ c = 51 \/ c = 52 \/ c = 53 \/
          c = 54 \/ c = 55 \/ c = 56 \/ c = 57)%N as Hc by lia.
  repeat destruct Hc as [->|Hc]; try subst c; repeat split; done.
Qed.

Lemma is_digit_ascii c :
  is_ascii c = true -> is_digit U c = ascii_digit c.
Proof. intros H. unfold is_digit. by rewrite H. Qed.

Lemma ascii_space_not_digit c :
  is_ascii c = true -> is_space c = true -> is_digit U c = false.
Proof.
  intros Ha Hs. rewrite is_digit_ascii by done.
  destruct (ascii_digit c) eqn:Hd; [|done].
  apply ascii_digit_facts in Hd as (_ & Hns & _). congruence.
Qed.

Lemma ci_ascii a c :
  is_ascii c = true ->
  ci U a c = (ascii_to_lower c =? ascii_to_lower a)%N.
Proof. intros H. unfold ci. by rewrite H. Qed.

Lemma upper_letter_lower a :
  ascii_upper_letter a = true ->
  ascii_to_lower a = (a + 32)%N /\ (65 <= a <= 90)%N.
Proof.
  intros H. unfold ascii_to_lower. rewrite H.
  unfold ascii_upper_letter, between in H.
  apply andb_prop in H as [?%N.leb_le ?%N.leb_le]. done.
Qed.

(** a digit matches no letter of a pattern under [re.I] *)
Lemma ci_letter_digit a d :
  ascii_upper_letter a = true -> ascii_digit d = true -> ci U a d = false.
Proof.
  intros Ha Hd. apply ascii_digit_facts in Hd as (Hasc & _ & _ & Hlow & Hr).
  rewrite ci_ascii, Hlow by done.
  apply upper_letter_lower in Ha as [-> Hra]. apply N.eqb_neq. lia.
Qed.

Lemma m_lit_ci_first {A} a w (k : @cont A) prev c t :
  ci U a c = false -> m_lit_ci U (a :: w) k prev (c :: t) = None.
Proof. intros H. simpl. by rewrite H. Qed.

(** *** what trimming leaves of a line that starts with a visible
    character *)

Lemma lstrip_blank_prefix ws c t :
  forallb is_space ws = true -> is_space c = false ->
  drop_while is_space (ws ++ c :: t) = c :: t.
Proof.
  intros Hws Hc. rewrite drop_while_app_stop by done.
  by rewrite drop_while_all.
Qed.

Lemma rstrip_visible_prefix pre t :
  Forall (fun c => is_space c = false) pre ->
  rstrip_with is_space (pre ++ t) = pre ++ rstrip_with is_space t.
Proof.
  induction 1 as [|c pre Hc _ IH]; [done|].
  simpl. rewrite rstrip_cons by done. by rewrite IH.
Qed.

Lemma rstrip_head t :
  rstrip_with is_space t = [] \/
  exists c t' t'', t = c :: t' /\ rstrip_with is_space t = c :: t''.
Proof.
  destruct (rstrip_prefix is_space t) as [r Hr].
  destruct (rstrip_with is_space t) as [|c t''] eqn:Hs; [by left|].
  right. destruct t as [|c' t']; [done|].
  injection Hr as -> _. by exists c, t', t''.
Qed.

(** *** the outline pattern on digits, a dot, and no digit after it *)

Lemma m_star_stops {A} p (k : @cont A) prev ds t :
  forallb p ds = true ->
  match t with [] => True | c :: _ => p c = false end ->
  (forall i prev', k prev' (drop i ds ++ t) = None) ->
  m_star p k prev (ds ++ t) = None.
Proof.
  intros Hds Ht. revert prev.
  induction ds as [|d ds IH]; intros prev Hk.
  - specialize (Hk 0%nat prev).
    destruct t as [|c t']; simpl in *; [done|]. by rewrite Ht.
  - simpl in Hds. apply andb_prop in Hds as [Hd Hds].
    simpl. rewrite Hd.
    rewrite IH; [|done|intros i prev'; apply (Hk (S i))].
    simpl. apply (Hk 0%nat).
Qed.

Lemma re_outline_numbered n num rest :
  num <> [] -> Forall (fun c => ascii_digit c = true) num ->
  match rest with
  | [] => True
  | c :: _ => is_ascii c = true /\ is_space c = true
  end ->
  re_match (re_outline U n) (num ++ DOT :: rest) = None.
Proof.
  intros Hne Hnum Hrest. destruct num as [|d num]; [done|].
  apply Forall_cons in Hnum as [Hd Hnum].
  unfold re_match, re_outline, m_plus.
  change ((d :: num) ++ DOT :: rest) with (d :: num ++ DOT :: rest).
  cbn [m_chr].
  destruct (is_digit U d); [|done].
  apply m_star_stops.
  - apply forallb_Forall. eapply Forall_impl; [exact Hnum|].
    intros c Hc. simpl. rewrite is_digit_ascii; [done|].
    by apply ascii_digit_facts in Hc as (? & _).
  - done.
  - intros i prev'.
    destruct (drop i num) as [|c cs] eqn:Hdrop.
    + simpl.
      destruct rest as [|c rest']; [done|].
      destruct Hrest as [Ha Hs]. simpl.
      by rewrite (ascii_space_not_digit c Ha Hs).
    + assert (ascii_digit c = true) as Hc.
      { rewrite <- (take_drop i num), Hdrop in Hnum.
        apply Forall_app in Hnum as [_ Hnum].
        by apply Forall_cons in Hnum as [? _]. }
      apply ascii_digit_facts in Hc as (_ & _ & Hdot & _).
      cbv zeta beta. cbn [app m_chr]. by rewrite N.eqb_sym, Hdot.
Qed.

(** no heading pattern matches a text of digits, a dot, and then nothing or
    whitespace *)
Lemma numbered_no_heading num rest :
  num <> [] -> Forall (fun c => ascii_digit c = true) num ->
  match rest with
  | [] => True
  | c :: _ => is_ascii c = true /\ is_space c = true
  end ->
  strip (num ++ DOT :: rest) = num ++ DOT :: rest ->
  is_heading U (num ++ DOT :: rest) = false.
Proof.
  intros Hne Hnum Hrest Hstrip. unfold is_heading.
  rewrite Hstrip, (re_outline_numbered _ num rest Hne Hnum Hrest).
  destruct num as [|d num]; [done|].
  apply Forall_cons in Hnum as [Hd _].
  change ((d :: num) ++ DOT :: rest) with (d :: num ++ DOT :: rest).
  unfold re_match, re_chapter, re_exercise, re_misc_exercise, re_summary,
    re_historical_note, re_answers.
  change (u "CHAPTER") with (67%N :: u "HAPTER").
  change (u "EXERCISE") with (69%N :: u "XERCISE").
  change (u "MISCELLANEOUS") with (77%N :: u "ISCELLANEOUS").
  change (u "SUMMARY") with (83%N :: u "UMMARY").
  change (u "HISTORICAL") with (72%N :: u "ISTORICAL").
  change (u "ANSWER") with (65%N :: u "NSWER").
  rewrite !m_lit_ci_first by by apply ci_letter_digit.
  done.
Qed.

(** no heading pattern matches a text that starts with the letter q *)
Lemma q_no_heading q t :
  is_ascii q = true -> ci U 81 q = true ->
  strip (q :: t) = q :: t ->
  is_heading U (q :: t) = false.
Proof.
  intros Ha Hq Hstrip. unfold is_heading. rewrite Hstrip.
  rewrite ci_ascii in Hq by done. apply N.eqb_eq in Hq.
  change (ascii_to_lower 81) with 113%N in Hq.
  assert (forall a,
            ascii_upper_letter a = true -> a <> 81%N -> ci U a q = false)
    as Hother.
  { intros a Hup Hne. rewrite ci_ascii, Hq by done.
    apply upper_letter_lower in Hup as [-> ?]. apply N.eqb_neq. lia. }
  assert (is_digit U q = false) as Hnd.
  { rewrite is_digit_ascii by done.
    destruct (ascii_digit q) eqn:Hd; [|done].
    apply ascii_digit_facts in Hd as (_ & _ & _ & Hlow & ?). lia. }
  unfold re_match, re_chapter, re_outline, re_exercise, re_misc_exercise,
    re_summary, re_historical_note, re_answers, m_plus.
  change (u "CHAPTER") with (67%N :: u "HAPTER").
  change (u "EXERCISE") with (69%N :: u "XERCISE").
  change (u "MISCELLANEOUS") with (77%N :: u "ISCELLANEOUS").
  change (u "SUMMARY") with (83%N :: u "UMMARY").
  change (u "HISTORICAL") with (72%N :: u "ISTORICAL").
  change (u "ANSWER") with (65%N :: u "NSWER").
  rewrite !m_lit_ci_first by by apply Hother.
  cbn [m_chr]. by rewrite Hnd.
Qed.

Lemma q_char q :
  is_ascii q = true -> ci U 81 q = true -> q = 81%N \/ q = 113%N.
Proof.
  intros Ha Hq. rewrite ci_ascii in Hq by done. apply N.eqb_eq in Hq.
  change (ascii_to_lower 81) with 113%N in Hq.
  unfold ascii_to_lower, ascii_upper_letter, between in Hq.
  destruct (N.leb_spec 65 q), (N.leb_spec q 90); simpl in Hq; lia.
Qed.

Lemma strip_visible_start ws pre t :
  forallb is_space ws = true ->
  pre <> [] -> Forall (fun c => is_space c = false) pre ->
  strip (ws ++ pre ++ t) = pre ++ rstrip_with is_space t.
Proof.
  intros Hws Hne Hpre. unfold strip, strip_with, lstrip_with.
  destruct pre as [|c pre]; [done|].
  apply Forall_cons in Hpre as [Hc Hpre'].
  change ((c :: pre) ++ t) with (c :: pre ++ t).
  rewrite lstrip_blank_prefix by done.
  change (c :: pre ++ t) with ((c :: pre) ++ t).
  apply rstrip_visible_prefix. by apply Forall_cons.
Qed.

(** X21: on an ASCII line, a line that starts a question (either question
    pattern matches it) is never a heading: numbered questions do not open
    sections. *)
Theorem question_line_no_heading line :
  forallb is_ascii line = true ->
  is_Some (question_start U line) ->
  is_heading U line = false.
Proof.
  intros Hascii [m Hm]. apply forallb_Forall in Hascii.
  rewrite <- is_heading_strip.
  pose proof (strip_with_idem is_space line) as Hidem.
  fold (strip line) in Hidem. fold (strip (strip line)) in Hidem.
  unfold question_start in Hm.
  destruct (re_match (re_question U) line) as [m1|] eqn:H.
  - clear Hm. unfold re_question, re_match in H.
    apply m_star_Some_split in H as (ws & l1 & p1 & -> & Hws & H).
    apply m_plus_cap_Some_split in H as (num & l2 & p2 & -> & Hne & Hnum & H).
    apply m_chr_Some in H as (dot & l3 & -> & Hdot%N.eqb_eq & H).
    subst dot.
    unfold m_plus in H.
    apply m_chr_Some in H as (c & l4 & -> & Hc & _).
    apply Forall_app in Hascii as [_ Hascii].
    apply Forall_app in Hascii as [Hnum_ascii Hascii].
    apply Forall_cons in Hascii as [_ Hascii].
    apply Forall_cons in Hascii as [Hc_ascii _].
    assert (Forall (fun c => ascii_digit c = true) num) as Hdigits.
    { apply forallb_Forall in Hnum.
      apply Forall_forall. intros d Hd.
      rewrite Forall_forall in Hnum, Hnum_ascii.
      rewrite <- is_digit_ascii; [by apply Hnum|by apply Hnum_ascii]. }
    assert (strip (ws ++ num ++ DOT :: c :: l4)
            = num ++ DOT :: rstrip_with is_space (c :: l4)) as Hstrip.
    { change (num ++ DOT :: c :: l4) with (num ++ [DOT] ++ c :: l4).
      rewrite (app_assoc num).
      rewrite strip_visible_start; [by rewrite <- app_assoc|done| |].
      - by destruct num.
      - apply Forall_app. split; [|by apply Forall_singleton].
        eapply Forall_impl; [exact Hdigits|].
        intros d Hd. by apply ascii_digit_facts in Hd as (_ & ? & _). }
    rewrite Hstrip in *.
    apply numbered_no_heading; [done|done| |done].
    destruct (rstrip_head (c :: l4)) as [-> | (c' & t' & t'' & [= <- <-] & ->)];
      done.
  - destruct (re_match (re_question_alt U) line) as [m2|] eqn:H2; [|done].
    clear Hm H. unfold re_question_alt, re_match in H2.
    apply m_star_Some_split in H2 as (ws & l1 & p1 & -> & Hws & H2).
    apply m_chr_Some in H2 as (q & l2 & -> & Hq & _).
    apply Forall_app in Hascii as [_ Hascii].
    apply Forall_cons in Hascii as [Hq_ascii _].
    assert (is_space q = false) as Hns.
    { by destruct (q_char q Hq_ascii Hq) as [-> | ->]. }
    assert (strip (ws ++ q :: l2) = q :: rstrip_with is_space l2) as Hstrip.
    { change (q :: l2) with ([q] ++ l2).
      rewrite strip_visible_start; [done|done|done|].
      by apply Forall_singleton. }
    rewrite Hstrip in *. by apply q_no_heading.
Qed.

Lemma ascii_upper_of_ci a c :
  ascii_upper_letter a = true -> is_ascii c = true -> ci U a c = true ->
  ascii_to_upper c = a.
Proof.
  intros Ha Hc Hci. rewrite ci_ascii in Hci by done. apply N.eqb_eq in Hci.
  apply upper_letter_lower in Ha as [Hla Hr]. rewrite Hla in Hci.
  unfold ascii_to_lower, ascii_to_upper, ascii_upper_letter,
    ascii_lower_letter, between in *.
  destruct (N.leb_spec 65 c), (N.leb_spec c 90), (N.leb_spec 97 c),
    (N.leb_spec c 122); simpl in *; lia.
Qed.

Lemma upper_of_ci w pre :
  Forall (fun a => ascii_upper_letter a = true) w ->
  Forall (fun c => is_ascii c = true) pre ->
  Forall2 (fun a c => ci U a c = true) w pre ->
  List.map ascii_to_upper pre = w.
Proof.
  intros Hw Hpre H. induction H as [|a c w pre Hac _ IH]; [done|].
  apply Forall_cons in Hw as [Ha Hw]. apply Forall_cons in Hpre as [Hc Hpre].
  simpl. f_equal; [by apply ascii_upper_of_ci|by apply IH].
Qed.

Lemma upper_ascii s :
  Forall (fun c => is_ascii c = true) s ->
  upper U s = List.map ascii_to_upper s.
Proof. intros H. unfold upper. by apply forallb_Forall in H as ->. Qed.

Lemma found_Some {A} (o : option A) : found o = true -> exists r, o = Some r.
Proof. destruct o; [eauto|done]. Qed.

(** an ASCII text one of whose pieces spells EXERCISE, in any case,
    classifies as an exercise *)
Lemma classify_exercise l pre r :
  Forall (fun c => is_ascii c = true) (l ++ pre ++ r) ->
  Forall2 (fun a c => ci U a c = true) (u "EXERCISE") pre ->
  classify_section U (l ++ pre ++ r) = exercise_t.
Proof.
  intros Hascii Hpre. unfold classify_section.
  rewrite (upper_ascii _ Hascii), !map_app.
  apply Forall_app in Hascii as [_ Hascii].
  apply Forall_app in Hascii as [Hpre_ascii _].
  rewrite (upper_of_ci (u "EXERCISE") pre);
    [|by apply forallb_Forall|done|done].
  assert (contains (u "EXERCISE")
            (List.map ascii_to_upper l ++ u "EXERCISE"
               ++ List.map ascii_to_upper r) = true) as ->; [|done].
  apply contains_infix. by eexists _, _.
Qed.

(** X22: an ASCII line that the pattern for [EXERCISE <number>] or the
    pattern for [MISCELLANEOUS EXERCISE] accepts is a heading, and the
    section it opens has the type [exercise]. *)
Theorem exercise_heading_type line :
  forallb is_ascii line = true ->
  found (re_match (re_exercise U) (strip line)) = true \/
  found (re_match (re_misc_exercise U) (strip line)) = true ->
  is_heading U line = true /\
  classify_section U (strip line) = exercise_t /\
  forall lines, type (make_section U (strip line) lines) = exercise_t.
Proof.
  intros Hascii Hfound.
  assert (Forall (fun c => is_ascii c = true) (strip line)) as Hs.
  { by apply strip_Forall, forallb_Forall. }
  assert (strip line <> [] /\ classify_section U (strip line) = exercise_t)
    as [Hne Hclass].
  { destruct Hfound as [[r H]%found_Some | [r H]%found_Some].
    - unfold re_match, re_exercise in H.
      apply m_lit_ci_Some in H as (pre & rest & p1 & Heq & Hpre & _).
      rewrite Heq in *. split.
      + inversion Hpre; by subst.
      + by apply (classify_exercise [] pre rest).
    - unfold re_match, re_misc_exercise in H.
      apply m_lit_ci_Some in H as (pre1 & rest1 & p1 & Heq & Hpre1 & H).
      unfold m_plus in H.
      apply m_chr_Some in H as (c & rest2 & -> & _ & H).
      apply m_star_Some_split in H as (sp & rest3 & p2 & -> & _ & H).
      apply m_lit_ci_Some in H as (pre2 & rest4 & p3 & -> & Hpre2 & _).
      rewrite Heq in *. split.
      + inversion Hpre1; by subst.
      + replace (pre1 ++ c :: sp ++ pre2 ++ rest4)
          with ((pre1 ++ c :: sp) ++ pre2 ++ rest4) in *
          by by rewrite <- app_assoc.
        by apply classify_exercise. }
  split; [|split; [done|by intros]].
  unfold is_heading. destruct (strip line) as [|c0 t] eqn:Hstrip; [done|].
  destruct Hfound as [-> | ->];
    repeat match goal with
           | |- (if ?b then true else _) = true => destruct b; [done|]
           end; done.
Qed.

(** ** The stems of the parsed questions *)

Lemma splitlines_lines (P : N -> Prop) s :
  Forall P s ->
  Forall (Forall (fun c => is_linebreak c = false /\ P c)) (splitlines s).
Proof.
  remember (length s) as n eqn:Hn. revert s Hn.
  induction n as [n IH] using lt_wf_ind. intros s Hn HP.
  destruct s as [|c s']; [constructor|].
  rewrite splitlines_eq. apply Forall_cons in HP as [Hc Hs'].
  assert (Forall (Forall (fun c => is_linebreak c = false /\ P c))
            (splitlines s')) as Hrest.
  { eapply IH; [|done|done]. simpl in Hn. lia. }
  destruct (is_linebreak c) eqn:Hbreak.
  - apply Forall_cons. split; [constructor|].
    destruct s' as [|d s'']; [constructor|].
    destruct (_ && _); [|done].
    apply Forall_cons in Hs' as [_ Hs''].
    eapply IH; [|done|done]. simpl in Hn. lia.
  - destruct (splitlines s') as [|l ls].
    + apply Forall_singleton. by apply Forall_singleton.
    + apply Forall_cons in Hrest as [Hl Hls].
      apply Forall_cons. split; [by apply Forall_cons|done].
Qed.

(** a line of a stem: not empty, trimmed, without a line boundary *)
Definition tidy (P : N -> Prop) (l : str) : Prop :=
  l <> [] /\ strip l = l /\
  Forall (fun c => is_linebreak c = false /\ P c) l.

Lemma strip_tidy (P : N -> Prop) line :
  Forall (fun c => is_linebreak c = false /\ P c) line ->
  strip line <> [] -> tidy P (strip line).
Proof.
  intros Hline Hne. split; [done|]. split; [apply strip_with_idem|].
  by apply strip_Forall.
Qed.

Lemma head_rev_last (l : str) : head (rev l) = last l.
Proof. by rewrite <- (rev_involutive l) at 2; rewrite last_rev_head. Qed.

Lemma drop_while_fixed p s :
  (forall c, head s = Some c -> p c = false) -> drop_while p s = s.
Proof.
  destruct s as [|c s]; [done|]. intros H. simpl. by rewrite (H c eq_refl).
Qed.

Lemma strip_fixed s :
  (forall c, head s = Some c -> is_space c = false) ->
  (forall c, last s = Some c -> is_space c = false) ->
  strip s = s.
Proof.
  intros Hhead Hlast. unfold strip, strip_with, lstrip_with, rstrip_with.
  rewrite (drop_while_fixed _ s Hhead).
  rewrite drop_while_fixed; [apply rev_involutive|].
  intros c. rewrite head_rev_last. apply Hlast.
Qed.

Lemma tidy_ends (P : N -> Prop) l :
  tidy P l ->
  exists c d, head l = Some c /\ last l = Some d /\
              is_space c = false /\ is_space d = false.
Proof.
  intros (Hne & Hstrip & _).
  destruct (strip_with_ends is_space l) as [Hhead Hlast].
  fold (strip l) in Hhead, Hlast. rewrite Hstrip in Hhead, Hlast.
  destruct (head l) as [c|] eqn:Hc; [|by destruct l].
  destruct (last l) as [d|] eqn:Hd; [|by apply last_None in Hd].
  exists c, d. repeat split; [by apply Hhead|by apply Hlast].
Qed.

Lemma join_head (l : str) ls :
  l <> [] -> head (join [LF] (l :: ls)) = head l.
Proof. intros Hne. destruct l as [|c l]; [done|]. by destruct ls. Qed.

Lemma join_last (P : N -> Prop) lines d :
  Forall (tidy P) lines -> last (join [LF] lines) = Some d ->
  exists l, last lines = Some l /\ last l = Some d.
Proof.
  induction 1 as [|l ls Hl Hls IH]; [done|].
  destruct ls as [|l' ls'].
  - intros H. by exists l.
  - change (join [LF] (l :: l' :: ls'))
      with (l ++ LF :: join [LF] (l' :: ls')).
    assert (join [LF] (l' :: ls') <> []) as Hne.
    { apply Forall_cons in Hls as [(Hne' & _) _].
      destruct l' as [|c l'']; [done|]. by destruct ls'. }
    rewrite last_app_cons.
    destruct (join [LF] (l' :: ls')) as [|c rest] eqn:Hj; [done|].
    rewrite last_cons_cons. intros H.
    destruct (IH H) as (l0 & Hl0 & Hd). exists l0. split; [|done].
    by rewrite last_cons_cons.
Qed.

Lemma strip_tidy_join (P : N -> Prop) lines :
  Forall (tidy P) lines -> strip (join [LF] lines) = join [LF] lines.
Proof.
  intros Hlines. apply strip_fixed.
  - destruct Hlines as [|l ls Hl Hls]; [done|].
    destruct (tidy_ends P l Hl) as (c & _ & Hc & _ & Hns & _).
    rewrite join_head by by destruct Hl. rewrite Hc. by intros ? [= <-].
  - intros d Hd. destruct (join_last P lines d Hlines Hd) as (l & Hl & Hld).
    apply last_Some_elem_of in Hl.
    rewrite Forall_forall in Hlines.
    destruct (tidy_ends P l (Hlines l Hl)) as (_ & d' & _ & Hd' & _ & Hns).
    rewrite Hld in Hd'. by injection Hd' as ->.
Qed.

Lemma splitlines_line l rest :
  Forall (fun c => is_linebreak c = false) l ->
  splitlines (l ++ LF :: rest) = l :: splitlines rest.
Proof.
  induction 1 as [|c l Hc _ IH].
  - rewrite app_nil_l, splitlines_eq.
    change (is_linebreak LF) with true. cbn iota.
    destruct rest as [|d rest']; [done|].
    change (LF =? CR)%N with false. by cbn [andb].
  - change ((c :: l) ++ LF :: rest) with (c :: l ++ LF :: rest).
    by rewrite splitlines_eq, Hc, IH.
Qed.

Lemma splitlines_one l :
  l <> [] -> Forall (fun c => is_linebreak c = false) l ->
  splitlines l = [l].
Proof.
  intros Hne H. induction H as [|c l Hc Hl IH]; [done|].
  rewrite splitlines_eq, Hc. destruct l as [|d l']; [done|].
  by rewrite IH.
Qed.

Lemma splitlines_join (P : N -> Prop) lines :
  Forall (tidy P) lines -> splitlines (join [LF] lines) = lines.
Proof.
  induction 1 as [|l ls (Hne & _ & Hl) Hls IH]; [done|].
  assert (Forall (fun c => is_linebreak c = false) l) as Hl'.
  { eapply Forall_impl; [exact Hl|]. by intros c [? _]. }
  destruct ls as [|l' ls'].
  - by apply splitlines_one.
  - change (join [LF] (l :: l' :: ls'))
      with (l ++ LF :: join [LF] (l' :: ls')).
    by rewrite splitlines_line, IH.
Qed.

(** the loop invariant: numbers and stems are made of the characters of
    the lines, and the lines of a stem are tidy *)
Definition good_pq (P : N -> Prop) (q : parsed_question) : Prop :=
  (exists n, number q = Some n /\ Forall P n) /\
  exists lines, ptext q = join [LF] lines /\ Forall (tidy P) lines.

Definition good_state (P : N -> Prop) (st : pq_state) : Prop :=
  Forall (good_pq P) (pq_questions st) /\
  (forall current, pq_current st = Some current ->
     Forall (tidy P) current /\
     exists n, pq_current_num st = Some n /\ Forall P n).

Lemma close_question_good (P : N -> Prop) st :
  good_state P st -> Forall (good_pq P) (close_question st).
Proof.
  intros [Hq Hc]. unfold close_question.
  destruct (pq_current st) as [current|]; [|done].
  destruct (Hc current eq_refl) as (Hcur & n & Hn & HPn).
  apply Forall_app. split; [done|]. apply Forall_singleton.
  split; [by exists n|]. exists current. split; [|done].
  simpl. by apply (strip_tidy_join P).
Qed.

Lemma open_question_good (P : N -> Prop) st num rest :
  good_state P st -> Forall P num ->
  Forall (fun c => is_linebreak c = false /\ P c) rest ->
  good_state P (open_question st num rest).
Proof.
  intros Hst Hnum Hrest. split; simpl.
  - by apply close_question_good.
  - intros current [= <-]. split; [|by exists num].
    destruct (strip rest) as [|c t] eqn:Hs; [constructor|].
    apply Forall_singleton. rewrite <- Hs. apply strip_tidy; [done|].
    by rewrite Hs.
Qed.

Lemma pq_line_good (P : N -> Prop) st line :
  Forall (fun c => is_linebreak c = false /\ P c) line ->
  good_state P st -> good_state P (pq_line U st line).
Proof.
  intros Hline Hst. unfold pq_line.
  assert (Forall P line) as HP.
  { eapply Forall_impl; [exact Hline|]. by intros c [_ ?]. }
  destruct (re_match (re_question U) line) as [[num rest]|] eqn:Hm.
  { apply open_question_good; [done| |].
    - by destruct (re_question_keeps P line num rest HP Hm).
    - by destruct (re_question_keeps _ line num rest Hline Hm). }
  destruct (re_match (re_question_alt U) line) as [[num rest]|] eqn:Ha.
  { apply open_question_good; [done| |].
    - by destruct (re_question_alt_keeps P line num rest HP Ha).
    - by destruct (re_question_alt_keeps _ line num rest Hline Ha). }
  destruct (pq_current st) as [current|] eqn:Hcur; [|done].
  destruct (strip line) as [|c t] eqn:Hs; [done|].
  destruct Hst as [Hq Hc]. split; simpl; [done|].
  intros current' [= <-].
  destruct (Hc current Hcur) as (Htidy & n & Hn & HPn).
  split; [|by exists n].
  apply Forall_app. split; [done|]. apply Forall_singleton.
  rewrite <- Hs. apply strip_tidy; [done|]. by rewrite Hs.
Qed.

Lemma pq_loop_good (P : N -> Prop) lines st :
  Forall (Forall (fun c => is_linebreak c = false /\ P c)) lines ->
  good_state P st -> good_state P (foldl (pq_line U) st lines).
Proof.
  intros Hlines. revert st.
  induction Hlines as [|line lines Hline _ IH]; intros st Hst; [done|].
  simpl. apply IH. by apply pq_line_good.
Qed.

Lemma parse_questions_good (P : N -> Prop) s :
  Forall P (text s) ->
  Forall (good_pq P) (parse_questions_from_section U s).
Proof.
  intros HP. apply close_question_good, pq_loop_good.
  - by apply splitlines_lines.
  - split; [constructor|done].
Qed.

(** X23: the text of every parsed question is made of lines none of which
    is empty or starts or ends with whitespace: it is these lines joined by
    newlines, splitting it into lines gives them back, and it is trimmed. *)
Theorem parsed_stems_tidy s :
  Forall (fun q =>
            exists lines,
              ptext q = join [LF] lines /\
              splitlines (ptext q) = lines /\
              Forall (fun l => l <> [] /\ strip l = l) lines /\
              strip (ptext q) = ptext q)
         (parse_questions_from_section U s).
Proof.
  eapply Forall_impl.
  - apply (parse_questions_good (fun _ => True)).
    apply Forall_forall. done.
  - intros q (_ & lines & Hq & Hlines). exists lines.
    split; [done|]. rewrite Hq.
    split; [by apply (splitlines_join (fun _ => True))|].
    split; [|by apply (strip_tidy_join (fun _ => True))].
    eapply Forall_impl; [exact Hlines|]. by intros l (? & ? & _).
Qed.

Lemma ascii_numeral n :
  numeral U n -> Forall (fun c => is_ascii c = true) n ->
  Forall (fun c => ascii_digit c = true) n.
Proof.
  intros [_ Hd] Ha. apply forallb_Forall in Hd.
  apply Forall_forall. intros c Hc.
  rewrite Forall_forall in Hd, Ha.
  rewrite <- is_digit_ascii; [by apply Hd|by apply Ha].
Qed.

Lemma run_questions_tidy sections answers cfg :
  Forall (fun s => Forall (fun c => is_ascii c = true) (text s)) sections ->
  Forall (fun q =>
            question_number q <> [] /\
            Forall (fun c => ascii_digit c = true) (question_number q) /\
            strip (stem q) = stem q /\
            Forall (fun l => l <> [] /\ strip l = l) (splitlines (stem q)))
         (build_questions U sections answers cfg).
Proof.
  intros Hsec. apply Forall_forall. intros q Hq.
  apply build_questions_elem in Hq as (s & slug & idx & pq & Hs & _ & Hpq & ->).
  rewrite Forall_forall in Hsec.
  pose proof (parse_questions_good _ s (Hsec s Hs)) as Hgood.
  pose proof (parse_questions_numbered U s) as Hnum.
  rewrite Forall_forall in Hgood, Hnum.
  destruct (Hgood pq Hpq) as ((n & Hn & Hascii) & lines & Htext & Hlines).
  destruct (Hnum pq Hpq) as (n' & Hn' & Hnumeral).
  rewrite Hn in Hn'. injection Hn' as <-.
  unfold build_question. cbn [question_number stem].
  rewrite Hn, (or_str_numeral U n _ Hnumeral).
  split; [by destruct Hnumeral|]. split; [by apply ascii_numeral|].
  assert (to_ascii (strip (ptext pq)) = join [LF] lines) as ->.
  { rewrite Htext, (strip_tidy_join _ lines Hlines).
    apply to_ascii_id, forallb_Forall. rewrite <- Htext.
    apply Forall_forall. intros c Hc.
    assert (Forall (fun c => is_ascii c = true) (join [LF] lines)) as Hj.
    { clear -Hlines. induction Hlines as [|l ls (_ & _ & Hl) _ IH]; [done|].
      assert (Forall (fun c => is_ascii c = true) l) as Hl'.
      { eapply Forall_impl; [exact Hl|]. by intros ? [_ ?]. }
      destruct ls as [|l' ls']; [done|].
      change (join [LF] (l :: l' :: ls'))
        with (l ++ LF :: join [LF] (l' :: ls')).
      apply Forall_app. split; [done|]. by apply Forall_cons. }
    rewrite Htext in Hc. rewrite Forall_forall in Hj. by apply Hj. }
  split; [by apply (strip_tidy_join (fun c => is_ascii c = true))|].
  rewrite (splitlines_join _ lines Hlines).
  eapply Forall_impl; [exact Hlines|]. by intros l (? & ? & _).
Qed.

(** X24: in a run every question number is a non-empty string of the
    digits 0 to 9, and every stem is trimmed and has no empty line and no
    line that starts or ends with whitespace. *)
Theorem run_questions_shape cfg txt :
  Forall (fun q =>
            question_number q <> [] /\
            Forall (fun c => ascii_digit c = true) (question_number q) /\
            strip (stem q) = stem q /\
            Forall (fun l => l <> [] /\ strip l = l) (splitlines (stem q)))
         (out_questions (main U cfg txt)).
Proof.
  exact (run_questions_tidy (out_sections (main U cfg txt)) _ cfg
           (main_sections_ascii cfg txt)).
Qed.

End Further.


(** ** Concrete runs for the further properties *)

(** a page that raises, a page without text and a page of blanks *)
Definition blank_pages : list page :=
  [ page_raises; page_returns None; page_returns (Some (u "  " ++ [LF])) ].

Lemma blank_pages_give_nothing_witness :
  Forall (fun p => forallb is_space (page_text p) = true) blank_pages /\
  exists t,
    extract_text (Some blank_pages) = extracted_text t /\
    out_sections (main ascii_tables sample_config t) = [] /\
    needs_ocr (out_report (main ascii_tables sample_config t)) = true.
Proof.
  assert (Forall (fun p => forallb is_space (page_text p) = true) blank_pages)
    as H by (repeat constructor).
  split; [exact H|].
  destruct (blank_pages_give_nothing ascii_tables sample_config blank_pages H)
    as (t & Ht & _ & Ho).
  exists t. split; [exact Ht|]. split; apply Ho.
Defined.

Definition plain_text : str :=
  join [LF] [u " Sets are collections. "; u ""; u "1. An example"].

Lemma split_sections_no_heading_witness :
  Forall (fun l => is_heading ascii_tables l = false) (splitlines plain_text) /\
  split_sections ascii_tables plain_text
  = [ {| title := u "front_matter"; type := section_t;
         text := join [LF] [u "Sets are collections. "; u "";
                            u "1. An example"] |} ].
Proof.
  assert (Forall (fun l => is_heading ascii_tables l = false)
            (splitlines plain_text)) as H.
  { vm_compute. repeat constructor. }
  split; [exact H|].
  rewrite (split_sections_no_heading ascii_tables plain_text H).
  vm_compute. reflexivity.
Defined.

Lemma chunk_words_cover_witness :
  (0 < 3)%Z /\ (0 <= 1)%Z /\
  chunk_text_with (u "a b c d e f g") 3 1
  = [u "a b c"; u "c d e"; u "e f g"; u "g"] /\
  flat_map (fun c => take 2 (split c)) (chunk_text_with (u "a b c d e f g") 3 1)
  = split (u "a b c d e f g").
Proof.
  assert (0 < 3)%Z as Hw by lia. assert (0 <= 1)%Z as Ho by lia.
  split; [exact Hw|]. split; [exact Ho|].
  split; [vm_compute; reflexivity|].
  exact (proj1 (proj2 (chunk_words_cover (u "a b c d e f g") 3 1 Hw Ho))).
Defined.

Lemma question_line_no_heading_witness :
  forallb is_ascii (u " 12. Solve x + 1 = 2") = true /\
  question_start ascii_tables (u " 12. Solve x + 1 = 2")
  = Some (u "12", u "Solve x + 1 = 2") /\
  question_start ascii_tables (u "q.7: CHAPTER 2") = Some (u "7", u "CHAPTER 2") /\
  is_heading ascii_tables (u " 12. Solve x + 1 = 2") = false /\
  is_heading ascii_tables (u "q.7: CHAPTER 2") = false.
Proof.
  assert (question_start ascii_tables (u " 12. Solve x + 1 = 2")
          = Some (u "12", u "Solve x + 1 = 2")) as H1
    by (vm_compute; reflexivity).
  assert (question_start ascii_tables (u "q.7: CHAPTER 2")
          = Some (u "7", u "CHAPTER 2")) as H2
    by (vm_compute; reflexivity).
  split; [reflexivity|]. split; [exact H1|]. split; [exact H2|]. split.
  - apply (question_line_no_heading ascii_tables); [reflexivity|].
    rewrite H1. by eexists.
  - apply (question_line_no_heading ascii_tables); [reflexivity|].
    rewrite H2. by eexists.
Defined.

Lemma exercise_heading_type_witness :
  forallb is_ascii (u "  Exercise 1.2 ") = true /\
  found (re_match (re_exercise ascii_tables) (strip (u "  Exercise 1.2 ")))
  = true /\
  found (re_match (re_misc_exercise ascii_tables)
           (strip (u "Miscellaneous  exercise on chapter 1")))
  = true /\
  is_heading ascii_tables (u "  Exercise 1.2 ") = true /\
  classify_section ascii_tables (strip (u "  Exercise 1.2 ")) = exercise_t /\
  is_heading ascii_tables (u "Miscellaneous  exercise on chapter 1") = true /\
  type (make_section ascii_tables
          (strip (u "Miscellaneous  exercise on chapter 1")) [u "1. x"])
  = exercise_t.
Proof.
  assert (found (re_match (re_exercise ascii_tables)
                   (strip (u "  Exercise 1.2 "))) = true) as H1
    by (vm_compute; reflexivity).
  assert (found (re_match (re_misc_exercise ascii_tables)
                   (strip (u "Miscellaneous  exercise on chapter 1")))
          = true) as H2
    by (vm_compute; reflexivity).
  destruct (exercise_heading_type ascii_tables (u "  Exercise 1.2 ")
              eq_refl (or_introl H1)) as (Hh1 & Hc1 & _).
  destruct (exercise_heading_type ascii_tables
              (u "Miscellaneous  exercise on chapter 1")
              eq_refl (or_intror H2)) as (Hh2 & _ & Ht2).
  split; [reflexivity|]. split; [exact H1|]. split; [exact H2|].
  split; [exact Hh1|]. split; [exact Hc1|]. split; [exact Hh2|].
  exact (Ht2 [u "1. x"]).
Defined.
